(** * OneSweep: a GPU radix sort and its host-side orchestration

    A shallow embedding of [GPUSortingD3D12/OneSweep.cpp].  The C++ class
    records compute dispatches and UAV barriers into a D3D12 command list;
    here a command list is a [list command], a buffer object is identified
    by a handle, and [PrepareSortCmdList] is a function on the sorter state.

    The device kernels themselves (the HLSL shaders and their [Dispatch]
    wrappers) and the [SweepBase] class are not part of this translation
    unit; where a property depends on what they compute they are modelled
    from the specification, and the definitions say so.

    Layout: definitions first: the host side; a sequential executor of
    the modelled kernels, with the reference definitions for stating what
    the passes compute; further readings of a command list, and
    [InitComputeShaders]; the device with its work-groups running
    concurrently, and the invariants of a sort call on it.  Then the
    properties: of the host side (command sequence, buffer roles,
    constructors, barriers); of stable sorts by digit and of the
    sequential executor; of the concurrent device (completion under fair
    schedules, the look-back protocol, the data a pass moves); of the sort
    end to end; last, further properties of the host side: the command
    list as a whole, what it depends on, and [InitComputeShaders]. *)

From Stdlib Require Import ZArith Lia List.
From stdpp Require Import base decidable numbers sets functions sorting list.

#[local] Open Scope Z_scope.

(** ** Data model *)

(** A [winrt::com_ptr<ID3D12Resource>]: the identity of a buffer object. *)
Definition buffer : Type := nat.

#[global] Typeclasses Transparent buffer.

(** [uint32_t] arithmetic is carried out in [Z] modulo [2^32]. *)
Definition wrap32 (z : Z) : Z := z mod 2 ^ 32.

(** Modelled from the spec: the enumerations of namespace [GPUSorting],
    declared in a header that is not part of this translation unit:
    ascending/descending order, unsigned/signed/float keys and payloads. *)
Inductive ORDER := ORDER_ASCENDING | ORDER_DESCENDING.
Inductive KEY_TYPE := KEY_UINT32 | KEY_INT32 | KEY_FLOAT32.
Inductive PAYLOAD_TYPE := PAYLOAD_UINT32 | PAYLOAD_INT32 | PAYLOAD_FLOAT32.

(** Modelled from the spec: [GPUSorting::DeviceInfo], the device
    capability descriptor (its declaration is missing), with the two
    capabilities the specification names. *)
Record DeviceInfo := mkDeviceInfo {
  maxResidentPartitions : Z;
  preferredPartitionSize : Z
}.

(** A [winrt::com_ptr<ID3D12Device>]: the identity of a device. *)
Definition device : Type := nat.

(** Modelled from the spec: the base class [SweepBase] (missing).  The
    fields are the arguments a [OneSweep] constructor hands to the
    constructor of its base class, in the order of the call.  Of the last
    three, [k_radixPasses] is the member that line 91 reads; the names
    [k_radix] and [k_partitionSize] and the meaning of the three numbers
    come from the specification (2, 4.5 and 6): the number of radix passes,
    the number of radix digits, and the [partitionSize] of the
    digit-binning pass, by which the key count is divided to give the
    partition count of stage 4.  The constructor bodies go on to call
    [SetCompileArguments] and [Initialize] of the base class, which are
    not modelled. *)
Record SweepBase := mkSweepBase {
  m_device : device;
  m_devInfo : DeviceInfo;
  k_sortingOrder : ORDER;
  k_keyType : KEY_TYPE;
  k_payloadType : option PAYLOAD_TYPE;
  k_sortName : list Byte.byte;
  k_radixPasses : Z;
  k_radix : Z;
  k_partitionSize : Z
}.

(** The bytes of the literal ["OneSweep "]. *)
Definition sortName_OneSweep : list Byte.byte :=
  [Byte.x4f; Byte.x6e; Byte.x65; Byte.x53; Byte.x77; Byte.x65; Byte.x65;
   Byte.x70; Byte.x20].

(** [OneSweep::OneSweep(device, deviceInfo, sortingOrder, keyType)]. *)
Definition OneSweep_keys (_device : device) (_deviceInfo : DeviceInfo)
    (sortingOrder : ORDER) (keyType : KEY_TYPE) : SweepBase :=
  mkSweepBase _device _deviceInfo sortingOrder keyType None
    sortName_OneSweep 4 256 (Z.shiftl 1 13).

(** [OneSweep::OneSweep(device, deviceInfo, sortingOrder, keyType,
    payloadType)]. *)
Definition OneSweep_pairs (_device : device) (_deviceInfo : DeviceInfo)
    (sortingOrder : ORDER) (keyType : KEY_TYPE) (payloadType : PAYLOAD_TYPE)
    : SweepBase :=
  mkSweepBase _device _deviceInfo sortingOrder keyType (Some payloadType)
    sortName_OneSweep 4 256 (Z.shiftl 1 13).

(** What is recorded into the command list.  Each kernel wrapper's
    [Dispatch] is recorded with the arguments of the call; a buffer's GPU
    virtual address is identified with the buffer. *)
Inductive command :=
| InitSweepDispatch (globalHist passHist index : buffer) (partitions : Z)
| GlobalHistDispatch (sort globalHist : buffer)
    (numKeys globalHistPartitions : Z)
| ScanDispatch (globalHist passHist : buffer) (partitions radixPasses : Z)
| DigitBinningPassDispatch
    (sort alt sortPayload altPayload index passHist : buffer)
    (numKeys partitions radixShift : Z)
| UAVBarrier (resource : buffer).

(** The members of the sorter object that [PrepareSortCmdList] touches. *)
Record OneSweep := mkOneSweep {
  base : SweepBase;
  m_cmdList : list command;
  m_sortBuffer : buffer;
  m_altBuffer : buffer;
  m_sortPayloadBuffer : buffer;
  m_altPayloadBuffer : buffer;
  m_globalHistBuffer : buffer;
  m_passHistBuffer : buffer;
  m_indexBuffer : buffer;
  m_numKeys : Z;
  m_partitions : Z;
  m_globalHistPartitions : Z
}.

(** ** [OneSweep::PrepareSortCmdList] *)

(** Appending one command to [m_cmdList]. *)
Definition record (c : command) (s : OneSweep) : OneSweep :=
  mkOneSweep (base s) (m_cmdList s ++ [c])
    (m_sortBuffer s) (m_altBuffer s)
    (m_sortPayloadBuffer s) (m_altPayloadBuffer s)
    (m_globalHistBuffer s) (m_passHistBuffer s) (m_indexBuffer s)
    (m_numKeys s) (m_partitions s) (m_globalHistPartitions s).

Definition UAVBarrierSingle (resource : OneSweep -> buffer) (s : OneSweep)
    : OneSweep :=
  record (UAVBarrier (resource s)) s.

(** [swap(m_sortBuffer, m_altBuffer)]. *)
Definition swap_sort_alt (s : OneSweep) : OneSweep :=
  mkOneSweep (base s) (m_cmdList s)
    (m_altBuffer s) (m_sortBuffer s)
    (m_sortPayloadBuffer s) (m_altPayloadBuffer s)
    (m_globalHistBuffer s) (m_passHistBuffer s) (m_indexBuffer s)
    (m_numKeys s) (m_partitions s) (m_globalHistPartitions s).

(** [swap(m_sortPayloadBuffer, m_altPayloadBuffer)]. *)
Definition swap_payload (s : OneSweep) : OneSweep :=
  mkOneSweep (base s) (m_cmdList s)
    (m_sortBuffer s) (m_altBuffer s)
    (m_altPayloadBuffer s) (m_sortPayloadBuffer s)
    (m_globalHistBuffer s) (m_passHistBuffer s) (m_indexBuffer s)
    (m_numKeys s) (m_partitions s) (m_globalHistPartitions s).

(** Lines 70-92: the three preparatory dispatches, each followed by one
    barrier. *)
Definition prologue (s0 : OneSweep) : OneSweep :=
  let s1 := record (InitSweepDispatch (m_globalHistBuffer s0)
                      (m_passHistBuffer s0) (m_indexBuffer s0)
                      (m_partitions s0)) s0 in
  let s2 := UAVBarrierSingle m_globalHistBuffer s1 in
  let s3 := record (GlobalHistDispatch (m_sortBuffer s2)
                      (m_globalHistBuffer s2) (m_numKeys s2)
                      (m_globalHistPartitions s2)) s2 in
  let s4 := UAVBarrierSingle m_globalHistBuffer s3 in
  let s5 := record (ScanDispatch (m_globalHistBuffer s4)
                      (m_passHistBuffer s4) (m_partitions s4)
                      (k_radixPasses (base s4))) s4 in
  UAVBarrierSingle m_passHistBuffer s5.

(** Lines 96-113: the body of the [for] loop. *)
Definition loopBody (radixShift : Z) (s0 : OneSweep) : OneSweep :=
  let s1 := record (DigitBinningPassDispatch
                      (m_sortBuffer s0) (m_altBuffer s0)
                      (m_sortPayloadBuffer s0) (m_altPayloadBuffer s0)
                      (m_indexBuffer s0) (m_passHistBuffer s0)
                      (m_numKeys s0) (m_partitions s0) radixShift) s0 in
  let s2 := UAVBarrierSingle m_sortBuffer s1 in
  let s3 := UAVBarrierSingle m_sortPayloadBuffer s2 in
  let s4 := UAVBarrierSingle m_altBuffer s3 in
  let s5 := UAVBarrierSingle m_altPayloadBuffer s4 in
  swap_payload (swap_sort_alt s5).

(** Line 94: [for (uint32_t radixShift = 0; radixShift < 32;
    radixShift += 8)].  [radixShift] is unsigned, so the addition wraps.
    The recursion is on [countdown], an upper bound on the number of
    iterations still to run; [digitBinningLoop] starts it at the distance
    from [radixShift] to 32, which is never used up (lemma
    [digitBinningLoop_eq] below gives the loop equation for every
    [radixShift]). *)
Fixpoint digitBinningLoop_from (countdown : nat) (radixShift : Z)
    (s : OneSweep) : OneSweep :=
  if decide (radixShift < 32) then
    match countdown with
    | O => s
    | S countdown' =>
        digitBinningLoop_from countdown' (wrap32 (radixShift + 8))
          (loopBody radixShift s)
    end
  else s.

Definition digitBinningLoop (radixShift : Z) (s : OneSweep) : OneSweep :=
  digitBinningLoop_from (Z.to_nat (32 - radixShift)) radixShift s.

Definition PrepareSortCmdList (s : OneSweep) : OneSweep :=
  digitBinningLoop 0 (prologue s).

(** The commands a call appends to the command list it was given. *)
Definition emitted (s : OneSweep) : list command :=
  drop (length (m_cmdList s)) (m_cmdList (PrepareSortCmdList s)).


(** ** Reading a command list *)

Inductive stage := Reset | GlobalHistogram | ExclusiveScan | DigitBinning.

#[global] Instance stage_eq_dec : EqDecision stage.
Proof. solve_decision. Defined.

#[global] Instance command_eq_dec : EqDecision command.
Proof. solve_decision. Defined.

(** The pipeline stage a command dispatches, if it is a dispatch. *)
Definition stage_of (c : command) : option stage :=
  match c with
  | InitSweepDispatch _ _ _ _ => Some Reset
  | GlobalHistDispatch _ _ _ _ => Some GlobalHistogram
  | ScanDispatch _ _ _ _ => Some ExclusiveScan
  | DigitBinningPassDispatch _ _ _ _ _ _ _ _ _ => Some DigitBinning
  | UAVBarrier _ => None
  end.

(** The radix shift of a digit-binning dispatch. *)
Definition binning_shift (c : command) : option Z :=
  match c with
  | DigitBinningPassDispatch _ _ _ _ _ _ _ _ radixShift => Some radixShift
  | _ => None
  end.

(** Which buffer plays which role: source keys, destination (alternate)
    keys, source payloads, destination payloads. *)
Record roles := mkRoles {
  srcKeys : buffer;
  dstKeys : buffer;
  srcPayload : buffer;
  dstPayload : buffer
}.

Definition swap_roles (r : roles) : roles :=
  mkRoles (dstKeys r) (srcKeys r) (dstPayload r) (srcPayload r).

(** The roles as the sorter object currently holds them. *)
Definition current_roles (s : OneSweep) : roles :=
  mkRoles (m_sortBuffer s) (m_altBuffer s)
    (m_sortPayloadBuffer s) (m_altPayloadBuffer s).

(** The roles a digit-binning dispatch was recorded with. *)
Definition binning_roles (c : command) : option roles :=
  match c with
  | DigitBinningPassDispatch srt alt srtP altP _ _ _ _ _ =>
      Some (mkRoles srt alt srtP altP)
  | _ => None
  end.

(** Modelled from the spec: the kernels are not in this translation unit;
    the buffers a dispatch writes are those the specification says the
    stage zeroes, accumulates into, transforms in place, scatters into or
    publishes to, among the buffers bound by the call. *)
Definition writes (c : command) : list buffer :=
  match c with
  | InitSweepDispatch gh ph idx _ => [gh; ph; idx]
  | GlobalHistDispatch _ gh _ _ => [gh]
  | ScanDispatch gh ph _ _ => [gh; ph]
  | DigitBinningPassDispatch _ alt _ altP idx ph _ _ _ => [alt; altP; idx; ph]
  | UAVBarrier _ => []
  end.

(** Modelled from the spec: the buffers a dispatch reads (the key slice,
    the histogram it adds into or scans, the tile counter it increments,
    the pass histogram it looks back through, the keys and payloads it
    scatters). *)
Definition reads (c : command) : list buffer :=
  match c with
  | InitSweepDispatch _ _ _ _ => []
  | GlobalHistDispatch srt gh _ _ => [srt; gh]
  | ScanDispatch gh _ _ _ => [gh]
  | DigitBinningPassDispatch srt _ srtP _ idx ph _ _ _ => [srt; srtP; idx; ph]
  | UAVBarrier _ => []
  end.

(** A barrier naming [b] lies strictly between positions [i] and [j]. *)
Definition barrier_between (cmds : list command) (i j : nat) (b : buffer)
    : Prop :=
  exists k : nat, (i < k < j)%nat /\ cmds !! k = Some (UAVBarrier b).

(** Every buffer written by an earlier dispatch and read by a later one is
    named by a barrier between the two. *)
Definition barriers_cover_all (cmds : list command) : Prop :=
  forall (i j : nat) (e l : command) (b : buffer),
    (i < j)%nat -> cmds !! i = Some e -> cmds !! j = Some l ->
    b ∈ writes e -> b ∈ reads l ->
    barrier_between cmds i j b.

(** A sorter over seven distinct buffer objects, for [numKeys] keys. *)
Definition sample_sorter (order : ORDER) (keyType : KEY_TYPE)
    (numKeys : Z) : OneSweep :=
  mkOneSweep
    (OneSweep_pairs 0%nat (mkDeviceInfo 64 7680) order keyType PAYLOAD_UINT32)
    [] 1%nat 2%nat 3%nat 4%nat 5%nat 6%nat 7%nat
    numKeys ((numKeys + 8191) / 8192) ((numKeys + 32767) / 32768).

(** The digit-binning dispatch of one loop iteration, as recorded. *)
Definition binningDispatch (srt alt srtP altP : buffer) (s : OneSweep)
    (radixShift : Z) : command :=
  DigitBinningPassDispatch srt alt srtP altP
    (m_indexBuffer s) (m_passHistBuffer s)
    (m_numKeys s) (m_partitions s) radixShift.

(** The four barriers that follow a digit-binning dispatch whose source
    buffers are [srt], [srtP] and whose destinations are [alt], [altP]. *)
Definition binningBarriers (srt alt srtP altP : buffer) : list command :=
  [UAVBarrier srt; UAVBarrier srtP; UAVBarrier alt; UAVBarrier altP].

(** The command sequence of one call, written out. *)
Definition expected_cmds (s : OneSweep) : list command :=
  let srt := m_sortBuffer s in
  let alt := m_altBuffer s in
  let srtP := m_sortPayloadBuffer s in
  let altP := m_altPayloadBuffer s in
  [ InitSweepDispatch (m_globalHistBuffer s) (m_passHistBuffer s)
      (m_indexBuffer s) (m_partitions s);
    UAVBarrier (m_globalHistBuffer s);
    GlobalHistDispatch srt (m_globalHistBuffer s) (m_numKeys s)
      (m_globalHistPartitions s);
    UAVBarrier (m_globalHistBuffer s);
    ScanDispatch (m_globalHistBuffer s) (m_passHistBuffer s)
      (m_partitions s) (k_radixPasses (base s));
    UAVBarrier (m_passHistBuffer s) ]
  ++ binningDispatch srt alt srtP altP s 0 :: binningBarriers srt alt srtP altP
  ++ binningDispatch alt srt altP srtP s 8 :: binningBarriers alt srt altP srtP
  ++ binningDispatch srt alt srtP altP s 16 :: binningBarriers srt alt srtP altP
  ++ binningDispatch alt srt altP srtP s 24 :: binningBarriers alt srt altP srtP.


(** The seven buffer objects a sorter refers to. *)
Definition buffers_of (s : OneSweep) : list buffer :=
  [m_sortBuffer s; m_altBuffer s; m_sortPayloadBuffer s;
   m_altPayloadBuffer s; m_globalHistBuffer s; m_passHistBuffer s;
   m_indexBuffer s].

(** * The device side, modelled from the specification

    The kernels (HLSL) and their [Dispatch] wrappers are not part of
    [OneSweep.cpp].  What follows models them from the specification's
    sections 2-4, first as a sequential executor: a dispatch is run in one
    piece, its work-groups one after another in tile order, and a barrier
    has nothing to order.  The executor is the reference that the
    concurrent device further down is compared with: under whatever
    schedule, a sort call that completes on the concurrent device has
    computed what the executor computes ([Sort_agrees]).  The properties
    of the sort end to end are stated of the concurrent device. *)

(** ** Key transform (specification 4.1) *)

Definition SIGN_BIT : Z := 2 ^ 31.
Definition ALL_BITS : Z := 2 ^ 32 - 1.

(** Modelled from the spec: the shader's key-to-unsigned mapping for
    ascending order.  "Signed integers flip their sign bit;
    floating-point keys flip their sign bit when non-negative and
    bitwise-invert all bits when negative." *)
Definition to_ordered (keyType : KEY_TYPE) (key : Z) : Z :=
  match keyType with
  | KEY_UINT32 => key
  | KEY_INT32 => Z.lxor key SIGN_BIT
  | KEY_FLOAT32 =>
      if Z.testbit key 31 then Z.lxor key ALL_BITS else Z.lxor key SIGN_BIT
  end.

(** Modelled from the spec: the inverse of [to_ordered]. *)
Definition from_ordered (keyType : KEY_TYPE) (u : Z) : Z :=
  match keyType with
  | KEY_UINT32 => u
  | KEY_INT32 => Z.lxor u SIGN_BIT
  | KEY_FLOAT32 =>
      if Z.testbit u 31 then Z.lxor u SIGN_BIT else Z.lxor u ALL_BITS
  end.

(** Modelled from the spec: the forward transform, "with an additional
    full bitwise inversion applied when descending order is requested". *)
Definition key_transform (order : ORDER) (keyType : KEY_TYPE) (key : Z) : Z :=
  match order with
  | ORDER_ASCENDING => to_ordered keyType key
  | ORDER_DESCENDING => Z.lxor (to_ordered keyType key) ALL_BITS
  end.

(** Modelled from the spec: the inverse transform applied at output. *)
Definition key_untransform (order : ORDER) (keyType : KEY_TYPE) (u : Z) : Z :=
  match order with
  | ORDER_ASCENDING => from_ordered keyType u
  | ORDER_DESCENDING => from_ordered keyType (Z.lxor u ALL_BITS)
  end.

(** A 32-bit pattern. *)
Definition is_word (key : Z) : Prop := 0 <= key < 2 ^ 32.

(** The value a bit pattern stands for when keys are compared: the
    unsigned value, the two's complement value, or, for floats, the rank
    of the pattern in sign-magnitude order (negative patterns below
    positive ones and reversed; [-0] directly below [+0]; NaN patterns
    ranked by their bits like any other). *)
Definition key_value (keyType : KEY_TYPE) (key : Z) : Z :=
  match keyType with
  | KEY_UINT32 => key
  | KEY_INT32 => if Z.testbit key 31 then key - 2 ^ 32 else key
  | KEY_FLOAT32 => if Z.testbit key 31 then SIGN_BIT - 1 - key else key
  end.

(** The requested order on keys. *)
Definition key_le (order : ORDER) (keyType : KEY_TYPE) (a b : Z) : Prop :=
  match order with
  | ORDER_ASCENDING => key_value keyType a <= key_value keyType b
  | ORDER_DESCENDING => key_value keyType b <= key_value keyType a
  end.

(** ** Digits and histograms *)

(** The number of digit values, [k_radix]. *)
Definition RADIX : nat := 256.

(** Modelled from the spec: "extracting the active 8-bit digit of each
    key" at a radix shift. *)
Definition digit (radixShift : Z) (key : Z) : nat :=
  Z.to_nat (Z.land (Z.shiftr key radixShift) 255).

(** Modelled from the spec: one bin of a digit histogram (the kernels'
    histogram code is missing): how many of [keys] have digit [d]. *)
Definition count_digit (radixShift : Z) (d : nat) (keys : list Z) : nat :=
  length (filter (fun k => digit radixShift k = d) keys).

(** Modelled from the spec: the slice a partition is assigned (the
    kernels' indexing is missing).  Partition [tile] of a key array:
    [size] consecutive elements, the last partition "bounded to
    [keyCount]". *)
Definition slice {A : Type} (size numKeys tile : nat) (l : list A) : list A :=
  take size (drop (tile * size) (take numKeys l)).

(** Modelled from the spec: the scan kernel's prefix sum (missing).
    Exclusive prefix sum of a histogram: for digit [d], the sum of the
    bins of all smaller digits. *)
Definition exclusive_scan (hist : nat -> nat) (d : nat) : nat :=
  sum_list_with hist (seq 0 d).

(** ** Device memory *)

(** Modelled from the spec: the layout of the pass histogram (the shader's
    encoding is missing).  An entry is a count with its tag: nothing yet,
    "local", or "aggregated". *)
Inductive tile_entry :=
| NotReady
| LocalCount (count : nat)
| Aggregated (count : nat).

(** Modelled from the spec: the pass histogram: per pass and digit the
    seed the scan leaves for stage 4, and per pass, tile and digit the
    published entry. *)
Record PassHist := mkPassHist {
  seed : nat -> nat -> nat;
  published : nat -> nat -> nat -> tile_entry
}.

(** Modelled from the spec: device memory, by buffer object (buffer
    allocation and binding are missing).  Key and payload arrays are
    arrays of 32-bit words; a buffer bound as global histogram is viewed
    as passes x digits counters, one bound as pass histogram as
    [PassHist], one bound as tile index as one counter per pass. *)
Record memory := mkMemory {
  words : buffer -> list Z;
  globalHistogram : buffer -> nat -> nat -> nat;
  passHistogram : buffer -> PassHist;
  tileIndex : buffer -> nat -> nat
}.

Definition set_words (b : buffer) (v : list Z) (m : memory) : memory :=
  mkMemory (<[b := v]> (words m)) (globalHistogram m) (passHistogram m)
    (tileIndex m).

Definition set_globalHistogram (b : buffer) (v : nat -> nat -> nat)
    (m : memory) : memory :=
  mkMemory (words m) (<[b := v]> (globalHistogram m)) (passHistogram m)
    (tileIndex m).

Definition set_passHistogram (b : buffer) (v : PassHist) (m : memory)
    : memory :=
  mkMemory (words m) (globalHistogram m) (<[b := v]> (passHistogram m))
    (tileIndex m).

Definition set_tileIndex (b : buffer) (v : nat -> nat) (m : memory)
    : memory :=
  mkMemory (words m) (globalHistogram m) (passHistogram m)
    (<[b := v]> (tileIndex m)).

(** ** Stage 1: Reset (specification 4.2) *)

(** Modelled from the spec: "zero every histogram slot and every
    tile-index counter". *)
Definition InitSweep (globalHist passHist index : buffer) (m : memory)
    : memory :=
  set_tileIndex index (fun _ => 0%nat)
    (set_passHistogram passHist
       (mkPassHist (fun _ _ => 0%nat) (fun _ _ _ => NotReady))
       (set_globalHistogram globalHist (fun _ _ => 0%nat) m)).

(** ** Stage 2: Global Histogram (specification 4.3) *)

(** The radix shift of pass [pass]: the loop's 0, 8, 16, 24. *)
Definition shift_of_pass (pass : nat) : Z := 8 * Z.of_nat pass.

(** Modelled from the spec: the local 4 x 256 histogram of a slice, one
    bin per pass and digit (kernel code missing). *)
Definition local_histogram (keys : list Z) (pass d : nat) : nat :=
  count_digit (shift_of_pass pass) d keys.

(** Modelled from the spec: every partition builds the local histogram of
    its slice and adds each bin to the global bin.  [partSize] is the
    partition size of this stage. *)
Definition GlobalHist (partSize : nat) (sort globalHist : buffer)
    (numKeys partitions : nat) (m : memory) : memory :=
  let keys := words m sort in
  set_globalHistogram globalHist
    (foldl (fun hist tile pass d =>
              (hist pass d
               + local_histogram (slice partSize numKeys tile keys) pass d)%nat)
       (globalHistogram m globalHist) (seq 0 partitions))
    m.

(** ** Stage 3: Exclusive Scan (specification 4.4) *)

(** Modelled from the spec: per pass, the histogram becomes its exclusive
    prefix sums in place; the same offsets are stored in the pass
    histogram as the seed of stage 4. *)
Definition Scan (globalHist passHist : buffer) (radixPasses : nat)
    (m : memory) : memory :=
  let hist := globalHistogram m globalHist in
  let old := passHistogram m passHist in
  let scanned pass d :=
    if decide (pass < radixPasses)%nat
    then exclusive_scan (hist pass) d else hist pass d in
  set_passHistogram passHist
    (mkPassHist
       (fun pass d =>
          if decide (pass < radixPasses)%nat
          then scanned pass d else seed old pass d)
       (published old))
    (set_globalHistogram globalHist scanned m).

(** ** Stage 4: Digit-Binning Pass (specification 4.5) *)

(** Modelled from the spec: what one pass works on (kernel state,
    missing): the tile counter of the pass, the entries of the pass (per
    tile and digit), and the two destination arrays. *)
Record binning := mkBinning {
  counter : nat;
  entries : nat -> nat -> tile_entry;
  outKeys : list Z;
  outPayload : list Z
}.

(** Modelled from the spec, step 3: walk back from [tile - 1]; an
    aggregated entry is added and ends the walk, a local entry is added
    and the walk goes on, tile 0 has nothing to walk.  A missing entry
    would be polled until it appears; with tiles run one after another it
    never would, so the walk has no result then. *)
Fixpoint lookback (entry : nat -> tile_entry) (tile : nat) : option nat :=
  match tile with
  | O => Some 0%nat
  | S prev =>
      match entry prev with
      | Aggregated inclusive => Some inclusive
      | LocalCount count =>
          match lookback entry prev with
          | Some sum => Some (count + sum)%nat
          | None => None
          end
      | NotReady => None
      end
  end.

(** Modelled from the spec: the scatter of step 5 (kernel code missing):
    writing [vals] to the slots [dests] of [out], one after another; a
    slot outside the buffer is not written. *)
Definition scatter {A : Type} (dests : list nat) (vals : list A)
    (out : list A) : list A :=
  foldl (fun o dv => <[dv.1 := dv.2]> o) out (zip dests vals).

(** Modelled from the spec, steps 1-5, for one work-group. *)
Definition binning_tile (partSize : nat) (radixShift : Z) (numKeys : nat)
    (globalDigitOffset : nat -> nat) (keys payload : list Z) (st : binning)
    : option binning :=
  let tileID := counter st in
  let tileKeys := slice partSize numKeys tileID keys in
  let tilePayload := slice partSize numKeys tileID payload in
  let localHistogram d := count_digit radixShift d tileKeys in
  let entries1 :=
    <[tileID := fun d => LocalCount (localHistogram d)]> (entries st) in
  match mapM (fun d => lookback (fun t => entries1 t d) tileID)
          (seq 0 RADIX) with
  | None => None
  | Some prefixes =>
      let exclusivePrefix d := default 0%nat (prefixes !! d) in
      let entries2 :=
        <[tileID :=
            fun d => Aggregated (exclusivePrefix d + localHistogram d)]>
        entries1 in
      let dests :=
        imap (fun j key =>
                let d := digit radixShift key in
                let rankWithinTile :=
                  count_digit radixShift d (take j tileKeys) in
                (globalDigitOffset d + exclusivePrefix d + rankWithinTile)%nat)
          tileKeys in
      Some (mkBinning (S tileID) entries2
              (scatter dests tileKeys (outKeys st))
              (scatter dests tilePayload (outPayload st)))
  end.

(** Modelled from the spec: the dispatch of [n] work-groups (the device
    scheduler is missing), run one after another. *)
Fixpoint binning_tiles (n : nat) (tile : binning -> option binning)
    (st : binning) : option binning :=
  match n with
  | O => Some st
  | S n' =>
      match tile st with
      | Some st' => binning_tiles n' tile st'
      | None => None
      end
  end.

(** Modelled from the spec: one digit-binning dispatch of [partitions]
    work-groups.  The base offsets come from the seed of the pass. *)
Definition DigitBinningPass (partSize : nat)
    (sort alt sortPayload altPayload index passHist : buffer)
    (numKeys partitions : nat) (radixShift : Z) (m : memory)
    : option memory :=
  let pass := Z.to_nat (radixShift / 8) in
  let hist := passHistogram m passHist in
  let st0 := mkBinning (tileIndex m index pass) (published hist pass)
               (words m alt) (words m altPayload) in
  match binning_tiles partitions
          (binning_tile partSize radixShift numKeys (seed hist pass)
             (words m sort) (words m sortPayload)) st0 with
  | None => None
  | Some st =>
      Some (set_words altPayload (outPayload st)
              (set_words alt (outKeys st)
                 (set_passHistogram passHist
                    (mkPassHist (seed hist)
                       (<[pass := entries st]> (published hist)))
                    (set_tileIndex index
                       (<[pass := counter st]> (tileIndex m index)) m))))
  end.

(** ** Running a command list *)

(** Modelled from the spec: the partition sizes compiled into the kernels
    (shader constants, missing): that of the digit-binning pass and that
    of the global histogram. *)
Record kernel_constants := mkKernelConstants {
  PART_SIZE : nat;
  G_HIST_PART_SIZE : nat
}.

(** Modelled from the spec: what the device does with one recorded
    command (command queue missing).  Each dispatch runs its kernel; a
    barrier changes nothing, since commands already run one at a time. *)
Definition exec (K : kernel_constants) (c : command) (m : memory)
    : option memory :=
  match c with
  | InitSweepDispatch globalHist passHist index _ =>
      Some (InitSweep globalHist passHist index m)
  | GlobalHistDispatch sort globalHist numKeys partitions =>
      Some (GlobalHist (G_HIST_PART_SIZE K) sort globalHist
              (Z.to_nat numKeys) (Z.to_nat partitions) m)
  | ScanDispatch globalHist passHist _ radixPasses =>
      Some (Scan globalHist passHist (Z.to_nat radixPasses) m)
  | DigitBinningPassDispatch sort alt sortPayload altPayload index passHist
      numKeys partitions radixShift =>
      DigitBinningPass (PART_SIZE K) sort alt sortPayload altPayload index
        passHist (Z.to_nat numKeys) (Z.to_nat partitions) radixShift m
  | UAVBarrier _ => Some m
  end.

(** Running a command list in order; a stalled dispatch stalls the list. *)
Fixpoint run (K : kernel_constants) (cmds : list command) (m : memory)
    : option memory :=
  match cmds with
  | [] => Some m
  | c :: rest =>
      match exec K c m with
      | Some m' => run K rest m'
      | None => None
      end
  end.

(** ** The sort as a whole *)

(** Modelled from the spec: filling the input buffers (upload code
    missing).  Keys enter the sort buffer through the key transform;
    payloads enter the payload buffer as they are. *)
Definition load (s : OneSweep) (keys payload : list Z) (m : memory)
    : memory :=
  set_words (m_sortPayloadBuffer s) payload
    (set_words (m_sortBuffer s)
       (key_transform (k_sortingOrder (base s)) (k_keyType (base s))
          <$> keys) m).

(** Modelled from the spec: one sort call (submission and read-back code
    missing).  Load, run the commands [PrepareSortCmdList] appends, and
    read the sorter's sort and payload buffers back through the inverse
    transform. *)
Definition Sort (K : kernel_constants) (s : OneSweep)
    (keys payload : list Z) (m : memory) : option (list Z * list Z) :=
  let s' := PrepareSortCmdList s in
  match run K (emitted s) (load s keys payload m) with
  | None => None
  | Some m' =>
      Some (key_untransform (k_sortingOrder (base s)) (k_keyType (base s))
              <$> words m' (m_sortBuffer s'),
            words m' (m_sortPayloadBuffer s'))
  end.

(** Memory as allocated: every array buffer holds [n] zero words, the
    histograms and counters hold a stale 7, nothing is published. *)
Definition blank_memory (n : nat) : memory :=
  mkMemory (fun _ => replicate n 0)
    (fun _ _ _ => 7%nat)
    (fun _ => mkPassHist (fun _ _ => 7%nat) (fun _ _ _ => NotReady))
    (fun _ _ => 7%nat).

(** A sorter over seven distinct buffers whose partition counts fit the
    kernel constants [K]. *)
Definition sorter_for (K : kernel_constants) (order : ORDER)
    (keyType : KEY_TYPE) (numKeys : nat) : OneSweep :=
  mkOneSweep
    (OneSweep_pairs 0%nat (mkDeviceInfo 64 7680) order keyType PAYLOAD_UINT32)
    [] 1%nat 2%nat 3%nat 4%nat 5%nat 6%nat 7%nat
    (Z.of_nat numKeys)
    (Z.of_nat ((numKeys + PART_SIZE K - 1) / PART_SIZE K))
    (Z.of_nat ((numKeys + G_HIST_PART_SIZE K - 1) / G_HIST_PART_SIZE K)).

(** ** Reference definitions for stating what the passes compute *)

(** Stable sort of key/value records by one digit: the records with digit
    0 in their input order, then those with digit 1, and so on. *)
Definition stable_sort_by_digit {A : Type} (radixShift : Z)
    (l : list (Z * A)) : list (Z * A) :=
  concat ((fun d => filter (fun x => digit radixShift x.1 = d) l)
            <$> seq 0 RADIX).

(** One bucket of that sort: the records with digit [d], in input order. *)
Definition bucket {A : Type} (radixShift : Z) (l : list (Z * A)) (d : nat)
    : list (Z * A) :=
  filter (fun x => digit radixShift x.1 = d) l.

(** The four passes, least significant digit first. *)
Definition reference_sort {A : Type} (l : list (Z * A)) : list (Z * A) :=
  stable_sort_by_digit 24
    (stable_sort_by_digit 16
       (stable_sort_by_digit 8 (stable_sort_by_digit 0 l))).

(** The slot a stable sort by digit gives the key at index [i]: the number
    of keys with a smaller digit plus the number of earlier keys with the
    same digit. *)
Definition stable_position (radixShift : Z) (keys : list Z) (i : nat)
    (key : Z) : nat :=
  (exclusive_scan (fun d => count_digit radixShift d keys)
     (digit radixShift key)
   + count_digit radixShift (digit radixShift key) (take i keys))%nat.

(** The stable positions of all keys, in input order. *)
Definition stable_positions (radixShift : Z) (keys : list Z) : list nat :=
  imap (fun i key => stable_position radixShift keys i key) keys.

(** The destinations a digit-binning pass computes when the look-back has
    counted all lower tiles: base offset of the digit plus the number of
    earlier keys with that digit. *)
Definition binning_positions (radixShift : Z) (offsets : nat -> nat)
    (keys : list Z) : list nat :=
  imap (fun i key =>
          (offsets (digit radixShift key)
           + count_digit radixShift (digit radixShift key) (take i keys))%nat)
    keys.

(** The state of a pass after its first [t] work-groups: [t] tile indices
    handed out, every one of those tiles published as aggregated with the
    count of its digit up to the end of its slice, and the keys and
    payloads of those tiles scattered. *)
Definition tiles_done (partSize : nat) (radixShift : Z)
    (offsets : nat -> nat) (keys payload : list Z) (st0 : binning)
    (t : nat) (st : binning) : Prop :=
  counter st = t
  /\ (forall t' d : nat, (t' < t)%nat -> (d < RADIX)%nat ->
        entries st t' d
        = Aggregated (count_digit radixShift d (take (S t' * partSize) keys)))
  /\ outKeys st
     = scatter (take (t * partSize)
                  (binning_positions radixShift offsets keys))
         (take (t * partSize) keys) (outKeys st0)
  /\ outPayload st
     = scatter (take (t * partSize)
                  (binning_positions radixShift offsets keys))
         (take (t * partSize) payload) (outPayload st0).

(** The low [8 * pass] bits of a key: its digits of the passes before
    [pass]. *)
Definition low_bits (pass : nat) (key : Z) : Z :=
  key mod 2 ^ (8 * Z.of_nat pass).

(** Records tagged with their input index. *)
Definition tag {A : Type} (l : list (Z * A)) : list (Z * (A * nat)) :=
  imap (fun i x => (x.1, (x.2, i))) l.

Definition untag {A : Type} (x : Z * (A * nat)) : Z * A := (x.1, x.2.1).

Definition index_of {A : Type} (x : Z * (A * nat)) : nat := x.2.2.

(** Tagged records in the order the first [pass] passes establish: by low
    bits, and among equal low bits by input index. *)
Definition lsd_order {A : Type} (pass : nat) (x y : Z * (A * nat)) : Prop :=
  low_bits pass x.1 < low_bits pass y.1
  \/ (low_bits pass x.1 = low_bits pass y.1
      /\ (index_of x < index_of y)%nat).

(** Device memory as pass [pass] expects it: the source arrays hold the
    records [sorted] (the input after the earlier passes), the four arrays
    have the size of the input, the tile counters of this and the later
    passes are zero, and the seed of every pass holds the exclusive scan of
    that pass's digit histogram of the input keys. *)
Definition before_pass (index passHist src srcPayload dst dstPayload : buffer)
    (keys payload : list Z) (pass : nat) (sorted : list (Z * Z))
    (m : memory) : Prop :=
  zip (words m src) (words m srcPayload) = sorted
  /\ length (words m src) = length keys
  /\ length (words m srcPayload) = length keys
  /\ length (words m dst) = length keys
  /\ length (words m dstPayload) = length keys
  /\ sorted ≡ₚ zip keys payload
  /\ (forall p, (pass <= p)%nat -> tileIndex m index p = 0%nat)
  /\ (forall p d, (p < 4)%nat -> (d < RADIX)%nat ->
        seed (passHistogram m passHist) p d
        = exclusive_scan (fun d' => count_digit (shift_of_pass p) d' keys) d).

(** What the sorter, the kernel constants and the device memory must
    satisfy for a sort of [keys] with [payload]: four distinct key and
    payload buffers of the size of the input, partition counts that cover
    the input, and four radix passes. *)
Definition ready (K : kernel_constants) (s : OneSweep)
    (keys payload : list Z) (m : memory) : Prop :=
  NoDup [m_sortBuffer s; m_altBuffer s;
         m_sortPayloadBuffer s; m_altPayloadBuffer s]
  /\ m_numKeys s = Z.of_nat (length keys)
  /\ length payload = length keys
  /\ length (words m (m_altBuffer s)) = length keys
  /\ length (words m (m_altPayloadBuffer s)) = length keys
  /\ (length keys <= Z.to_nat (m_partitions s) * PART_SIZE K)%nat
  /\ (length keys
      <= Z.to_nat (m_globalHistPartitions s) * G_HIST_PART_SIZE K)%nat
  /\ k_radixPasses (base s) = 4.

(** The offset between the value of a key and its unsigned image. *)
Definition value_offset (keyType : KEY_TYPE) : Z :=
  match keyType with KEY_UINT32 => 0 | _ => 2 ^ 31 end.

(** The roles of the buffers in pass [pass]. *)
Definition pass_roles (s : OneSweep) (pass : nat) : roles :=
  Nat.iter pass swap_roles (current_roles s).

(** Device memory just before the dispatch of pass [pass], and after that
    dispatch and its barriers: the first [6 + 5 * pass], respectively
    [11 + 5 * pass], commands of the call have run. *)
Definition memory_before_pass (K : kernel_constants) (s : OneSweep)
    (pass : nat) (m : memory) : option memory :=
  run K (take (6 + 5 * pass) (emitted s)) m.

Definition memory_after_pass (K : kernel_constants) (s : OneSweep)
    (pass : nat) (m : memory) : option memory :=
  run K (take (11 + 5 * pass) (emitted s)) m.

(** Small kernel constants, so that a handful of keys spreads over several
    partitions. *)
Definition small_constants : kernel_constants := mkKernelConstants 2 3.

(** Kernel constants that agree with the sorter as constructed: [1 << 13]
    keys per digit-binning partition.  The partition size of the global
    histogram is not fixed by this file; [1 << 15] is one choice. *)
Definition onesweep_constants : kernel_constants :=
  mkKernelConstants (Z.to_nat (Z.shiftl 1 13)) (Z.to_nat (Z.shiftl 1 15)).

(** ** More ways of reading a command list *)

(** The buffers a command names, in the order of its arguments. *)
Definition bound (c : command) : list buffer :=
  match c with
  | InitSweepDispatch gh ph idx _ => [gh; ph; idx]
  | GlobalHistDispatch srt gh _ _ => [srt; gh]
  | ScanDispatch gh ph _ _ => [gh; ph]
  | DigitBinningPassDispatch srt alt srtP altP idx ph _ _ _ =>
      [srt; alt; srtP; altP; idx; ph]
  | UAVBarrier b => [b]
  end.

(** The number of radix passes a scan dispatch is handed. *)
Definition scan_passes (c : command) : option Z :=
  match c with
  | ScanDispatch _ _ _ radixPasses => Some radixPasses
  | _ => None
  end.

(** The six buffers that barriers are issued on. *)
Definition barrier_buffers (s : OneSweep) : list buffer :=
  [m_globalHistBuffer s; m_passHistBuffer s; m_sortBuffer s;
   m_sortPayloadBuffer s; m_altBuffer s; m_altPayloadBuffer s].

(** The five commands of one loop iteration run with roles [r] at shift
    [radixShift]: the dispatch and its four barriers (lines 96-110). *)
Definition pass_commands (s : OneSweep) (r : roles) (radixShift : Z)
    : list command :=
  [ DigitBinningPassDispatch (srcKeys r) (dstKeys r)
      (srcPayload r) (dstPayload r)
      (m_indexBuffer s) (m_passHistBuffer s)
      (m_numKeys s) (m_partitions s) radixShift;
    UAVBarrier (srcKeys r); UAVBarrier (srcPayload r);
    UAVBarrier (dstKeys r); UAVBarrier (dstPayload r) ].

(** ** [OneSweep::InitComputeShaders] *)

(** The kernel wrapper classes the function instantiates: three of
    namespace [SweepCommonKernels], one of namespace [OneSweepKernels]. *)
Inductive kernel_class :=
| SweepCommonKernels_InitSweep
| SweepCommonKernels_GlobalHist
| SweepCommonKernels_Scan
| OneSweepKernels_DigitBinningPass.

(** [m_compileArguments], a member of the base class: the arguments handed
    to the shader compiler, each a string. *)
Definition compile_arguments : Type := list (list Byte.byte).

(** A kernel wrapper object, identified with its class and the arguments
    of its constructor call: device, device info, compile arguments and the
    path of the shader file. *)
Record kernel := mkKernel {
  kernel_kind : kernel_class;
  kernel_device : device;
  kernel_devInfo : DeviceInfo;
  kernel_compileArguments : compile_arguments;
  kernel_path : list Byte.byte
}.

(** The free store: the objects created by [new] so far, oldest first.  A
    pointer is the position of its object; as nothing is ever deleted, no
    position is handed out twice. *)
Definition free_store : Type := list kernel.
Definition pointer : Type := nat.

#[global] Typeclasses Transparent free_store pointer.

(** [new T(args)]: the object is created in the free store and a pointer to
    it is returned. *)
Definition new (k : kernel) (h : free_store) : pointer * free_store :=
  (length h, h ++ [k]).

(** The members that [InitComputeShaders] reads and assigns, beside
    [m_device] and [m_devInfo].  The kernel pointers are raw pointers: they
    hold whatever they held before until they are assigned. *)
Record Shaders := mkShaders {
  m_compileArguments : compile_arguments;
  m_initSweep : pointer;
  m_globalHist : pointer;
  m_scan : pointer;
  m_digitBinningPass : pointer
}.

(** The bytes of the literal ["Shaders/OneSweep.hlsl"]. *)
Definition path_OneSweep_hlsl : list Byte.byte :=
  [Byte.x53; Byte.x68; Byte.x61; Byte.x64; Byte.x65; Byte.x72; Byte.x73;
   Byte.x2f; Byte.x4f; Byte.x6e; Byte.x65; Byte.x53; Byte.x77; Byte.x65;
   Byte.x65; Byte.x70; Byte.x2e; Byte.x68; Byte.x6c; Byte.x73; Byte.x6c].

(** Lines 59-66: four [new] expressions, each assigned to its member. *)
Definition InitComputeShaders (b : SweepBase) (k : Shaders)
    (h : free_store) : Shaders * free_store :=
  let path := path_OneSweep_hlsl in
  let '(initSweep, h1) :=
    new (mkKernel SweepCommonKernels_InitSweep (m_device b) (m_devInfo b)
           (m_compileArguments k) path) h in
  let '(globalHist, h2) :=
    new (mkKernel SweepCommonKernels_GlobalHist (m_device b) (m_devInfo b)
           (m_compileArguments k) path) h1 in
  let '(scan, h3) :=
    new (mkKernel SweepCommonKernels_Scan (m_device b) (m_devInfo b)
           (m_compileArguments k) path) h2 in
  let '(digitBinningPass, h4) :=
    new (mkKernel OneSweepKernels_DigitBinningPass (m_device b)
           (m_devInfo b) (m_compileArguments k) path) h3 in
  (mkShaders (m_compileArguments k) initSweep globalHist scan
     digitBinningPass, h4).

(** The four kernel pointers of the object. *)
Definition kernel_pointers (k : Shaders) : list pointer :=
  [m_initSweep k; m_globalHist k; m_scan k; m_digitBinningPass k].


(** * The device with its work-groups running concurrently

    Modelled from the specification's sections 2, 4 and 5.  A dispatch puts
    a number of work-groups in flight; the work-groups of the dispatches in
    flight take atomic steps in whatever order the scheduler picks, and a
    busy-polling group that is picked too early simply makes no step.  A
    UAV barrier on a buffer holds the command processor back until every
    dispatch in flight that accesses the buffer has run to completion.
    Nothing here runs a dispatch in one piece, and nothing fixes the order
    of the work-groups. *)

(** ** Work-groups *)

(** Modelled from the spec, 4.5, steps 2-4, for one digit of one tile: the
    local count is not yet published; it is published and the look-back
    is about to poll tile [cursor - 1], having accumulated
    [exclusivePrefix] so far; the walk has ended; the inclusive count is
    published as aggregated. *)
Inductive lane :=
| Unpublished
| Walking (cursor exclusivePrefix : nat)
| Summed (exclusivePrefix : nat)
| Published (exclusivePrefix : nat).

(** Modelled from the spec: a work-group of a dispatch in flight.  It has
    not started; or it is a digit-binning group that holds its tile index,
    the keys and payloads of its slice, and one look-back per digit; or it
    has finished (a digit-binning group remembers its tile). *)
Inductive workgroup :=
| Waiting
| Binning (tileID : nat) (tileKeys tilePayload : list Z)
    (lanes : nat -> lane)
| Scattered (tileID : nat)
| Retired.

(** A work-group that has finished. *)
Definition complete (wg : workgroup) : bool :=
  match wg with
  | Scattered _ | Retired => true
  | Waiting | Binning _ _ _ _ => false
  end.

(** Modelled from the spec: the work-groups a dispatch puts in flight.
    Reset runs one group per buffer it zeroes; the global histogram one
    per partition; the scan "one group per pass"; a digit-binning pass one
    per partition. *)
Definition spawn (c : command) : list workgroup :=
  match c with
  | InitSweepDispatch _ _ _ _ => replicate 3 Waiting
  | GlobalHistDispatch _ _ _ globalHistPartitions =>
      replicate (Z.to_nat globalHistPartitions) Waiting
  | ScanDispatch _ _ _ radixPasses => replicate (Z.to_nat radixPasses) Waiting
  | DigitBinningPassDispatch _ _ _ _ _ _ _ partitions _ =>
      replicate (Z.to_nat partitions) Waiting
  | UAVBarrier _ => []
  end.

(** ** The steps of the kernels *)

(** Modelled from the spec, 4.2: the three groups of Reset.  Group 0
    zeroes the global histogram, group 1 the pass histogram (the seed and
    the slots of the [partitions] tiles of every pass), group 2 the tile
    counters. *)
Definition reset_step (globalHist passHist index : buffer)
    (partitions group : nat) (m : memory) : option memory :=
  match group with
  | 0%nat => Some (set_globalHistogram globalHist (fun _ _ => 0%nat) m)
  | 1%nat =>
      let old := passHistogram m passHist in
      Some (set_passHistogram passHist
              (mkPassHist (fun _ _ => 0%nat)
                 (fun pass tile d =>
                    if decide (tile < partitions)%nat then NotReady
                    else published old pass tile d))
              m)
  | 2%nat => Some (set_tileIndex index (fun _ => 0%nat) m)
  | _ => None
  end.

(** Modelled from the spec, 4.3: group [group] builds the local histogram
    of its slice and adds each bin to the global bin. *)
Definition global_hist_step (partSize : nat) (sort globalHist : buffer)
    (numKeys group : nat) (m : memory) : memory :=
  let local := local_histogram (slice partSize numKeys group (words m sort)) in
  let hist := globalHistogram m globalHist in
  set_globalHistogram globalHist
    (fun pass d => (hist pass d + local pass d)%nat) m.

(** Modelled from the spec, 4.4: the group of pass [pass] turns the row of
    its pass into exclusive prefix sums in place and stores them as the
    seed of the pass. *)
Definition scan_step (globalHist passHist : buffer) (pass : nat)
    (m : memory) : memory :=
  let hist := globalHistogram m globalHist in
  let old := passHistogram m passHist in
  let scanned := exclusive_scan (hist pass) in
  set_passHistogram passHist
    (mkPassHist (<[pass := scanned]> (seed old)) (published old))
    (set_globalHistogram globalHist (<[pass := scanned]> hist) m).

(** Modelled from the spec, 4.5: a work-group writes one entry of the pass
    histogram, that of its own tile for one digit of the pass. *)
Definition publish (passHist : buffer) (pass tile d : nat) (e : tile_entry)
    (m : memory) : memory :=
  let old := passHistogram m passHist in
  set_passHistogram passHist
    (mkPassHist (seed old)
       (<[pass := <[tile := <[d := e]> (published old pass tile)]>
                    (published old pass)]> (published old)))
    m.

(** Modelled from the spec, 4.5, steps 2-4, one atomic step of the lane of
    one digit.  [entry] gives the published entries of the digit by tile,
    [localCount] is the lane's bin of the local histogram.  The result is
    the next state of the lane and what it writes to its own slot, if
    anything; there is no result when the lane has nothing to do or polls
    a slot that is not there yet. *)
Definition lane_step (entry : nat -> tile_entry) (tileID localCount : nat)
    (l : lane) : option (lane * option tile_entry) :=
  match l with
  | Unpublished => Some (Walking tileID 0, Some (LocalCount localCount))
  | Walking 0 exclusivePrefix => Some (Summed exclusivePrefix, None)
  | Walking (S prev) exclusivePrefix =>
      match entry prev with
      | Aggregated inclusive =>
          Some (Summed (exclusivePrefix + inclusive), None)
      | LocalCount count => Some (Walking prev (exclusivePrefix + count), None)
      | NotReady => None
      end
  | Summed exclusivePrefix =>
      Some (Published exclusivePrefix,
            Some (Aggregated (exclusivePrefix + localCount)))
  | Published _ => None
  end.

(** The exclusive prefix a lane has settled on. *)
Definition settled (l : lane) : option nat :=
  match l with
  | Published exclusivePrefix => Some exclusivePrefix
  | _ => None
  end.

(** Modelled from the spec, 4.5, step 5: the destinations of the keys of
    a tile, "globalDigitOffset + exclusivePrefix + rankWithinTile". *)
Definition destinations (radixShift : Z)
    (globalDigitOffset exclusivePrefix : nat -> nat) (tileKeys : list Z)
    : list nat :=
  imap (fun j key =>
          let d := digit radixShift key in
          (globalDigitOffset d + exclusivePrefix d
           + count_digit radixShift d (take j tileKeys))%nat)
    tileKeys.

(** Modelled from the spec, 4.5: one atomic step of a digit-binning
    group.  A waiting group takes the next tile index by incrementing the
    counter of the pass and loads its slice.  A running group steps the
    lane of digit [d]; once every lane has published its aggregate the
    group scatters its keys and payloads and is done. *)
Definition binning_step (partSize : nat)
    (sort alt sortPayload altPayload index passHist : buffer)
    (numKeys : nat) (radixShift : Z) (d : nat) (wg : workgroup)
    (m : memory) : option (workgroup * memory) :=
  let pass := Z.to_nat (radixShift / 8) in
  match wg with
  | Waiting =>
      let tileID := tileIndex m index pass in
      Some (Binning tileID
              (slice partSize numKeys tileID (words m sort))
              (slice partSize numKeys tileID (words m sortPayload))
              (fun _ => Unpublished),
            set_tileIndex index
              (<[pass := S tileID]> (tileIndex m index)) m)
  | Binning tileID tileKeys tilePayload lanes =>
      match mapM (fun d' => settled (lanes d')) (seq 0 RADIX) with
      | Some prefixes =>
          let exclusivePrefix d' := default 0%nat (prefixes !! d') in
          let dests :=
            destinations radixShift (seed (passHistogram m passHist) pass)
              exclusivePrefix tileKeys in
          Some (Scattered tileID,
                set_words altPayload
                  (scatter dests tilePayload (words m altPayload))
                  (set_words alt (scatter dests tileKeys (words m alt)) m))
      | None =>
          if decide (d < RADIX)%nat then
            match lane_step
                    (fun tile => published (passHistogram m passHist)
                                   pass tile d)
                    tileID (count_digit radixShift d tileKeys) (lanes d) with
            | Some (l, written) =>
                Some (Binning tileID tileKeys tilePayload (<[d := l]> lanes),
                      match written with
                      | Some e => publish passHist pass tileID d e m
                      | None => m
                      end)
            | None => None
            end
          else None
      end
  | Scattered _ | Retired => None
  end.

(** Modelled from the spec: one atomic step of work-group [group] of the
    dispatch recorded as [c], on digit [d] where the group has lanes.
    There is no result when the group has nothing to do right now. *)
Definition workgroup_step (K : kernel_constants) (c : command)
    (group d : nat) (wg : workgroup) (m : memory)
    : option (workgroup * memory) :=
  match c with
  | InitSweepDispatch globalHist passHist index partitions =>
      match wg with
      | Waiting =>
          match reset_step globalHist passHist index (Z.to_nat partitions)
                  group m with
          | Some m' => Some (Retired, m')
          | None => None
          end
      | _ => None
      end
  | GlobalHistDispatch sort globalHist numKeys _ =>
      match wg with
      | Waiting =>
          Some (Retired,
                global_hist_step (G_HIST_PART_SIZE K) sort globalHist
                  (Z.to_nat numKeys) group m)
      | _ => None
      end
  | ScanDispatch globalHist passHist _ _ =>
      match wg with
      | Waiting => Some (Retired, scan_step globalHist passHist group m)
      | _ => None
      end
  | DigitBinningPassDispatch sort alt sortPayload altPayload index passHist
      numKeys _ radixShift =>
      binning_step (PART_SIZE K) sort alt sortPayload altPayload index
        passHist (Z.to_nat numKeys) radixShift d wg m
  | UAVBarrier _ => None
  end.

(** ** The device *)

(** Modelled from the spec: the commands not yet taken by the command
    processor, the dispatches in flight with their work-groups, and
    memory. *)
Record gpu := mkGpu {
  pending : list command;
  in_flight : list (command * list workgroup);
  mem : memory
}.

(** Modelled from the spec, 5: what the scheduler may pick next, the
    command processor or a work-group of a dispatch in flight (and a digit
    for its lanes). *)
Inductive choice :=
| Issue
| Step (dispatch group d : nat).

(** The buffers a dispatch accesses. *)
Definition accessed (c : command) : list buffer := reads c ++ writes c.

(** A dispatch in flight all of whose work-groups have finished. *)
Definition finished (x : command * list workgroup) : bool :=
  forallb complete x.2.

(** Modelled from the spec, 4.2 and 5: a barrier on [b] lets the command
    processor pass once every dispatch in flight that accesses [b] has run
    to completion. *)
Definition barrier_open (b : buffer)
    (flight : list (command * list workgroup)) : bool :=
  forallb (fun x => bool_decide (b ∉ accessed x.1) || finished x) flight.

(** Modelled from the spec: one step of the device.  The command
    processor puts the next dispatch in flight at once, and passes a
    barrier when it is open (retiring the dispatches that have finished);
    a work-group makes its step.  A pick that cannot do anything leaves the
    device as it is. *)
Definition gpu_step (K : kernel_constants) (ch : choice) (g : gpu) : gpu :=
  match ch with
  | Issue =>
      match pending g with
      | [] => g
      | UAVBarrier b :: rest =>
          if barrier_open b (in_flight g)
          then mkGpu rest (filter (fun x => finished x = false) (in_flight g))
                 (mem g)
          else g
      | c :: rest => mkGpu rest (in_flight g ++ [(c, spawn c)]) (mem g)
      end
  | Step dispatch group d =>
      match in_flight g !! dispatch with
      | Some (c, wgs) =>
          match wgs !! group with
          | Some wg =>
              match workgroup_step K c group d wg (mem g) with
              | Some (wg', m') =>
                  mkGpu (pending g)
                    (<[dispatch := (c, <[group := wg']> wgs)]> (in_flight g))
                    m'
              | None => g
              end
          | None => g
          end
      | None => g
      end
  end.

(** Modelled from the spec: the device under a schedule, the picks of the
    scheduler in order. *)
Definition gpu_run (K : kernel_constants) (schedule : list choice) (g : gpu)
    : gpu :=
  foldl (fun g' ch => gpu_step K ch g') g schedule.

(** Modelled from the spec: the sort call has completed, every command
    has been taken and every dispatch has finished. *)
Definition gpu_idle (g : gpu) : bool :=
  bool_decide (pending g = []) && forallb finished (in_flight g).

(** ** A sort call *)

(** Modelled from the spec: the commands of one [PrepareSortCmdList] call
    submitted on memory that holds the input. *)
Definition submit (s : OneSweep) (keys payload : list Z) (m : memory) : gpu :=
  mkGpu (emitted s) [] (load s keys payload m).

(** Modelled from the spec: reading the result back from the sorter's sort
    and payload buffers, keys through the inverse transform. *)
Definition read_back (s : OneSweep) (g : gpu) : list Z * list Z :=
  let s' := PrepareSortCmdList s in
  (key_untransform (k_sortingOrder (base s)) (k_keyType (base s))
     <$> words (mem g) (m_sortBuffer s'),
   words (mem g) (m_sortPayloadBuffer s')).

(** ** Fair schedules *)

(** Modelled from the spec, 5: "every partition launched is guaranteed
    eventual scheduling".  A round gives the command processor and every
    lane of the first [groups] work-groups of the first [dispatches]
    dispatches in flight at least one turn, in any order and among any
    other picks. *)
Definition fair_round (dispatches groups : nat) (round : list choice)
    : Prop :=
  Issue ∈ round
  /\ forall i w d : nat, (i < dispatches)%nat -> (w < groups)%nat ->
       (d < RADIX)%nat -> Step i w d ∈ round.

(** The plainest fair round. *)
Definition round_robin (dispatches groups : nat) : list choice :=
  Issue
  :: (i ← seq 0 dispatches; w ← seq 0 groups; d ← seq 0 RADIX;
      [Step i w d]).

(** The largest number of work-groups a dispatch of the sorter puts in
    flight. *)
Definition widest_dispatch (s : OneSweep) : nat :=
  Nat.max 3
    (Nat.max (Z.to_nat (m_globalHistPartitions s))
       (Nat.max (Z.to_nat (k_radixPasses (base s)))
          (Z.to_nat (m_partitions s)))).

(** ** Work left to do *)

(** The steps a lane of tile [tileID] can still make. *)
Definition lane_work (tileID : nat) (l : lane) : nat :=
  match l with
  | Unpublished => tileID + 3
  | Walking cursor _ => cursor + 2
  | Summed _ => 1
  | Published _ => 0
  end.

(** The steps a work-group of a dispatch of [groups] groups can still
    make. *)
Definition workgroup_work (groups : nat) (wg : workgroup) : nat :=
  match wg with
  | Waiting => 2 + RADIX * (groups + 2)
  | Binning tileID _ _ lanes =>
      1 + sum_list_with (fun d => lane_work tileID (lanes d)) (seq 0 RADIX)
  | Scattered _ | Retired => 0
  end.

(** The steps the work-groups of a dispatch can still make. *)
Definition dispatch_work (wgs : list workgroup) : nat :=
  sum_list_with (workgroup_work (length wgs)) wgs.

(** The steps the device can still make: one per pending command, and
    those of the work-groups in flight and still to be put in flight. *)
Definition gpu_work (g : gpu) : nat :=
  sum_list_with (fun c => S (dispatch_work (spawn c))) (pending g)
  + sum_list_with (fun x => dispatch_work x.2) (in_flight g).

(** The number of fair rounds after which a sort call is sure to have
    completed. *)
Definition rounds_needed (s : OneSweep) : nat :=
  sum_list_with (fun c => S (dispatch_work (spawn c))) (emitted s).

(** ** What a sort call requires *)

(** Modelled from the spec, 6: the kernels have been compiled for the
    sorter, so that the digit-binning kernel works on partitions of the
    partition size the constructor configures. *)
Definition compiled_for (b : SweepBase) (K : kernel_constants) : Prop :=
  Z.of_nat (PART_SIZE K) = k_partitionSize b.

(** Modelled from the spec, 6: the kernels are compiled for the sorter,
    the four key and payload buffers are distinct and "sized to key
    count", the partition counts cover the keys, and there are four
    radix passes. *)
Definition prepared (K : kernel_constants) (s : OneSweep)
    (keys payload : list Z) (m : memory) : Prop :=
  compiled_for (base s) K /\ ready K s keys payload m.

(** ** The phases of a sort call *)

(** A dispatch together with the buffers of the barriers that follow
    it. *)
Abbreviation phase := (command * list buffer)%type.

(** The commands a list of phases stands for. *)
Definition commands_of (phases : list phase) : list command :=
  phases ≫= (fun ph => ph.1 :: (UAVBarrier <$> ph.2)).

(** The digit-binning phase of pass [pass]. *)
Definition binning_phase (s : OneSweep) (pass : nat) : phase :=
  let r := pass_roles s pass in
  (DigitBinningPassDispatch (srcKeys r) (dstKeys r)
     (srcPayload r) (dstPayload r)
     (m_indexBuffer s) (m_passHistBuffer s)
     (m_numKeys s) (m_partitions s) (shift_of_pass pass),
   [srcKeys r; srcPayload r; dstKeys r; dstPayload r]).

(** The seven phases of the commands of one [PrepareSortCmdList] call. *)
Definition sort_phases (s : OneSweep) : list phase :=
  [ (InitSweepDispatch (m_globalHistBuffer s) (m_passHistBuffer s)
       (m_indexBuffer s) (m_partitions s),
     [m_globalHistBuffer s]);
    (GlobalHistDispatch (m_sortBuffer s) (m_globalHistBuffer s)
       (m_numKeys s) (m_globalHistPartitions s),
     [m_globalHistBuffer s]);
    (ScanDispatch (m_globalHistBuffer s) (m_passHistBuffer s)
       (m_partitions s) (k_radixPasses (base s)),
     [m_passHistBuffer s]) ]
  ++ (binning_phase s <$> seq 0 4).

(** ** Invariants of a device that runs phases *)

(** The device is between phases (nothing in flight, [quiet] holds of
    memory, possibly some barriers left to pass), or phase [j] is in
    flight and [running] holds of its work-groups and memory. *)
Definition serial_inv (phases : list phase)
    (quiet : nat -> memory -> Prop)
    (running : nat -> list workgroup -> memory -> Prop) (g : gpu) : Prop :=
  exists (j : nat) (bs : list buffer),
    (j <= length phases)%nat
    /\ ((in_flight g = []
         /\ pending g = (UAVBarrier <$> bs) ++ commands_of (drop j phases)
         /\ quiet j (mem g))
        \/ (exists (c : command) (wgs : list workgroup),
              phases !! j = Some (c, bs)
              /\ in_flight g = [(c, wgs)]
              /\ pending g
                 = (UAVBarrier <$> bs) ++ commands_of (drop (S j) phases)
              /\ running j wgs (mem g))).

(** A work-group of a kernel whose groups make a single step. *)
Definition simple (wg : workgroup) : Prop := wg = Waiting \/ wg = Retired.

(** The tile a digit-binning group holds. *)
Definition workgroup_tile (wg : workgroup) : option nat :=
  match wg with
  | Binning tileID _ _ _ | Scattered tileID => Some tileID
  | Waiting | Retired => None
  end.

(** The number of keys with digit [d] in the tiles before [tile], when
    tile [u] has [cnt u d] of them. *)
Definition tiles_before (cnt : nat -> nat -> nat) (tile d : nat) : nat :=
  sum_list_with (fun u => cnt u d) (seq 0 tile).

(** What the published entry [e] of a lane of tile [tile] and digit [d]
    is, by the state of the lane, and what the lane has accumulated. *)
Definition lane_inv (cnt : nat -> nat -> nat) (tile d : nat) (l : lane)
    (e : tile_entry) : Prop :=
  match l with
  | Unpublished => e = NotReady
  | Walking cursor exclusivePrefix =>
      (cursor <= tile)%nat
      /\ e = LocalCount (cnt tile d)
      /\ (exclusivePrefix + tiles_before cnt cursor d
          = tiles_before cnt tile d)%nat
  | Summed exclusivePrefix =>
      e = LocalCount (cnt tile d)
      /\ exclusivePrefix = tiles_before cnt tile d
  | Published exclusivePrefix =>
      e = Aggregated (tiles_before cnt (S tile) d)
      /\ exclusivePrefix = tiles_before cnt tile d
  end.

(** The protocol invariant of a digit-binning pass in flight.  The tiles
    handed out are exactly those below the counter, each to one group; a
    running group holds keys with the counts [cnt] of its tile, and every
    lane agrees with its published entry; a finished group has published
    all its aggregates; nothing is published for the tiles not handed out
    yet. *)
Definition binning_inv (passHist index : buffer) (groups : nat)
    (radixShift : Z) (cnt : nat -> nat -> nat) (wgs : list workgroup)
    (m : memory) : Prop :=
  let pass := Z.to_nat (radixShift / 8) in
  let entry := published (passHistogram m passHist) pass in
  length wgs = groups
  /\ omap workgroup_tile wgs ≡ₚ seq 0 (tileIndex m index pass)
  /\ Forall (fun wg => wg <> Retired) wgs
  /\ (forall (w tile : nat) (tileKeys tilePayload : list Z)
        (lanes : nat -> lane),
        wgs !! w = Some (Binning tile tileKeys tilePayload lanes) ->
        forall d : nat, (d < RADIX)%nat ->
          count_digit radixShift d tileKeys = cnt tile d
          /\ lane_inv cnt tile d (lanes d) (entry tile d))
  /\ (forall w tile : nat, wgs !! w = Some (Scattered tile) ->
        forall d : nat, (d < RADIX)%nat ->
          entry tile d = Aggregated (tiles_before cnt (S tile) d))
  /\ (forall tile d : nat,
        (tileIndex m index pass <= tile < groups)%nat ->
        entry tile d = NotReady).

(** The counters of the passes from [pass] on are zero, and nothing is
    published for their tiles. *)
Definition fresh_from (s : OneSweep) (pass : nat) (m : memory) : Prop :=
  forall p : nat, (pass <= p)%nat ->
    tileIndex m (m_indexBuffer s) p = 0%nat
    /\ forall tile d : nat, (tile < Z.to_nat (m_partitions s))%nat ->
         published (passHistogram m (m_passHistBuffer s)) p tile d
         = NotReady.

(** The protocol invariant between the phases of a sort call: once Reset
    has run, the passes still to come are fresh. *)
Definition protocol_quiet (s : OneSweep) (j : nat) (m : memory) : Prop :=
  match j with
  | O => True
  | _ => fresh_from s (j - 3) m
  end.

(** The protocol invariant while phase [j] of a sort call is in flight. *)
Definition protocol_running (s : OneSweep) (j : nat)
    (wgs : list workgroup) (m : memory) : Prop :=
  match j with
  | 0%nat =>
      length wgs = 3%nat
      /\ Forall simple wgs
      /\ (wgs !! 1%nat = Some Retired ->
          forall p tile d : nat, (tile < Z.to_nat (m_partitions s))%nat ->
            published (passHistogram m (m_passHistBuffer s)) p tile d
            = NotReady)
      /\ (wgs !! 2%nat = Some Retired ->
          forall p : nat, tileIndex m (m_indexBuffer s) p = 0%nat)
  | 1%nat =>
      length wgs = Z.to_nat (m_globalHistPartitions s)
      /\ Forall simple wgs /\ fresh_from s 0 m
  | 2%nat =>
      length wgs = Z.to_nat (k_radixPasses (base s))
      /\ Forall simple wgs /\ fresh_from s 0 m
  | S (S (S pass)) =>
      fresh_from s (S pass) m
      /\ exists cnt : nat -> nat -> nat,
           binning_inv (m_passHistBuffer s) (m_indexBuffer s)
             (Z.to_nat (m_partitions s)) (shift_of_pass pass) cnt wgs m
  end.

(** ** What the passes have done to the data *)

(** The records after the first [pass] passes. *)
Fixpoint passes_done (pass : nat) (l : list (Z * Z)) : list (Z * Z) :=
  match pass with
  | O => l
  | S prev => stable_sort_by_digit (shift_of_pass prev) (passes_done prev l)
  end.

(** A key buffer and a payload buffer hold the records [l]. *)
Definition holds (m : memory) (b bP : buffer) (l : list (Z * Z)) : Prop :=
  words m b = l.*1 /\ words m bP = l.*2.

(** The seed of every pass is the exclusive scan of the digit histogram
    of the keys for that pass. *)
Definition seeded (s : OneSweep) (keys : list Z) (m : memory) : Prop :=
  forall p d : nat, (p < 4)%nat -> (d < RADIX)%nat ->
    seed (passHistogram m (m_passHistBuffer s)) p d
    = exclusive_scan (fun d' => count_digit (shift_of_pass p) d' keys) d.

(** Memory holds the input, and the alternate buffers have its size. *)
Definition loaded (s : OneSweep) (keys payload : list Z) (m : memory)
    : Prop :=
  holds m (m_sortBuffer s) (m_sortPayloadBuffer s) (zip keys payload)
  /\ length (words m (m_altBuffer s)) = length keys
  /\ length (words m (m_altPayloadBuffer s)) = length keys.

(** The other pair of buffers of a pass has the size of the input before
    the first pass and holds the source of the pass before afterwards. *)
Definition other_pair (s : OneSweep) (keys payload : list Z) (pass : nat)
    (b bP : buffer) (m : memory) : Prop :=
  match pass with
  | O => length (words m b) = length keys
         /\ length (words m bP) = length keys
  | S prev => holds m b bP (passes_done prev (zip keys payload))
  end.

(** Memory as pass [pass] finds it: its source buffers hold the records
    after the passes before it, its destination buffers are the other
    pair, and every pass is seeded. *)
Definition pass_ready (s : OneSweep) (keys payload : list Z) (pass : nat)
    (m : memory) : Prop :=
  let r := pass_roles s pass in
  holds m (srcKeys r) (srcPayload r) (passes_done pass (zip keys payload))
  /\ other_pair s keys payload pass (dstKeys r) (dstPayload r) m
  /\ seeded s keys m.

(** The data invariant between the phases of a sort call. *)
Definition data_quiet (s : OneSweep) (keys payload : list Z) (j : nat)
    (m : memory) : Prop :=
  protocol_quiet s j m
  /\ match j with
     | 0%nat => loaded s keys payload m
     | 1%nat =>
         loaded s keys payload m
         /\ forall p d : nat, globalHistogram m (m_globalHistBuffer s) p d
                              = 0%nat
     | 2%nat =>
         loaded s keys payload m
         /\ forall p d : nat,
              globalHistogram m (m_globalHistBuffer s) p d
              = count_digit (shift_of_pass p) d keys
     | S (S (S pass)) => pass_ready s keys payload pass m
     end.

(** The local count of digit [d] in tile [tile] of the source of pass
    [pass]. *)
Definition tile_count (K : kernel_constants) (keys payload : list Z)
    (pass tile d : nat) : nat :=
  count_digit (shift_of_pass pass) d
    (slice (PART_SIZE K) (length keys) tile
       (passes_done pass (zip keys payload)).*1).

(** The data of a digit-binning pass in flight: the source is untouched,
    a running group holds the slice of its tile, and the records of the
    tiles of the finished groups are at their stable positions in the
    destination. *)
Definition binning_data (K : kernel_constants) (s : OneSweep)
    (keys payload : list Z) (pass : nat) (wgs : list workgroup)
    (m : memory) : Prop :=
  let r := pass_roles s pass in
  let l := passes_done pass (zip keys payload) in
  holds m (srcKeys r) (srcPayload r) l
  /\ length (words m (dstKeys r)) = length keys
  /\ length (words m (dstPayload r)) = length keys
  /\ seeded s keys m
  /\ (forall (w tile : nat) (tileKeys tilePayload : list Z)
        (lanes : nat -> lane),
        wgs !! w = Some (Binning tile tileKeys tilePayload lanes) ->
        tileKeys = slice (PART_SIZE K) (length keys) tile (l.*1)
        /\ tilePayload = slice (PART_SIZE K) (length keys) tile (l.*2))
  /\ (forall w tile : nat, wgs !! w = Some (Scattered tile) ->
        forall (i : nat) (x : Z * Z),
          (tile * PART_SIZE K <= i < S tile * PART_SIZE K)%nat ->
          l !! i = Some x ->
          words m (dstKeys r)
            !! stable_position (shift_of_pass pass) (l.*1) i x.1
          = Some x.1
          /\ words m (dstPayload r)
               !! stable_position (shift_of_pass pass) (l.*1) i x.1
             = Some x.2).

(** The data invariant while phase [j] of a sort call is in flight. *)
Definition data_running (K : kernel_constants) (s : OneSweep)
    (keys payload : list Z) (j : nat) (wgs : list workgroup) (m : memory)
    : Prop :=
  match j with
  | 0%nat =>
      protocol_running s 0 wgs m
      /\ loaded s keys payload m
      /\ (wgs !! 0%nat = Some Retired ->
          forall p d : nat,
            globalHistogram m (m_globalHistBuffer s) p d = 0%nat)
  | 1%nat =>
      protocol_running s 1 wgs m
      /\ loaded s keys payload m
      /\ forall p d : nat,
           globalHistogram m (m_globalHistBuffer s) p d
           = sum_list_with
               (fun w =>
                  match wgs !! w with
                  | Some Retired =>
                      local_histogram
                        (slice (G_HIST_PART_SIZE K) (length keys) w keys) p d
                  | _ => 0%nat
                  end)
               (seq 0 (length wgs))
  | 2%nat =>
      protocol_running s 2 wgs m
      /\ loaded s keys payload m
      /\ length wgs = 4%nat
      /\ forall p : nat, (p < 4)%nat ->
           (wgs !! p = Some Waiting ->
            forall d : nat,
              globalHistogram m (m_globalHistBuffer s) p d
              = count_digit (shift_of_pass p) d keys)
           /\ (wgs !! p = Some Retired ->
               forall d : nat, (d < RADIX)%nat ->
                 seed (passHistogram m (m_passHistBuffer s)) p d
                 = exclusive_scan
                     (fun d' => count_digit (shift_of_pass p) d' keys) d)
  | S (S (S pass)) =>
      fresh_from s (S pass) m
      /\ binning_inv (m_passHistBuffer s) (m_indexBuffer s)
           (Z.to_nat (m_partitions s)) (shift_of_pass pass)
           (tile_count K keys payload pass) wgs m
      /\ binning_data K s keys payload pass wgs m
  end.

(** ** A sort call on no keys *)

(** A digit-binning dispatch recorded for no keys; any other command. *)
Definition zero_keys (c : command) : Prop :=
  match c with
  | DigitBinningPassDispatch _ _ _ _ _ _ numKeys _ _ => numKeys = 0
  | _ => True
  end.

(** A digit-binning group that has loaded an empty slice; any other
    work-group. *)
Definition empty_tile (wg : workgroup) : Prop :=
  match wg with
  | Binning _ tileKeys tilePayload _ => tileKeys = [] /\ tilePayload = []
  | _ => True
  end.

(** The invariant of a sort call on no keys: the key and payload buffers
    are as [W] has them. *)
Definition words_kept (W : buffer -> list Z) (g : gpu) : Prop :=
  (forall b : buffer, words (mem g) b = W b)
  /\ Forall zero_keys (pending g)
  /\ Forall (fun x => zero_keys x.1 /\ Forall empty_tile x.2) (in_flight g).
(** * Properties of the host-side orchestration *)

(** More countdown than the distance to 32 changes nothing. *)
Lemma digitBinningLoop_from_enough (n : nat) (r : Z) (s : OneSweep) :
  (Z.to_nat (32 - r) <= n)%nat ->
  digitBinningLoop_from n r s = digitBinningLoop r s.
Proof.
  unfold digitBinningLoop.
  remember (Z.to_nat (32 - r)) as m eqn:Hm.
  revert n r s Hm.
  induction m as [m IH] using lt_wf_ind. intros n r s Hm Hle.
  destruct n as [|n], m as [|m]; cbn [digitBinningLoop_from];
    destruct (decide (r < 32)) as [Hr|Hr]; try reflexivity; try lia.
  assert (Hw : (Z.to_nat (32 - wrap32 (r + 8)) <= m)%nat).
  { unfold wrap32. destruct (decide (0 <= r)).
    - rewrite Z.mod_small by lia. lia.
    - pose proof (Z.mod_pos_bound (r + 8) (2 ^ 32)). lia. }
  rewrite (IH (Z.to_nat (32 - wrap32 (r + 8)))) with (n := n) by lia.
  rewrite (IH (Z.to_nat (32 - wrap32 (r + 8)))) with (n := m) by lia.
  reflexivity.
Qed.

(** The loop equation: test, body, increment, repeat. *)
Lemma digitBinningLoop_eq (r : Z) (s : OneSweep) :
  digitBinningLoop r s =
  if decide (r < 32)
  then digitBinningLoop (wrap32 (r + 8)) (loopBody r s)
  else s.
Proof.
  unfold digitBinningLoop at 1.
  destruct (Z.to_nat (32 - r)) as [|n] eqn:Hn; cbn [digitBinningLoop_from];
    destruct (decide (r < 32)) as [Hr|Hr]; try reflexivity; try lia.
  apply digitBinningLoop_from_enough.
  unfold wrap32. destruct (decide (0 <= r)).
  - rewrite Z.mod_small by lia. lia.
  - pose proof (Z.mod_pos_bound (r + 8) (2 ^ 32)). lia.
Qed.

Lemma digitBinningLoop_step (r : Z) (s : OneSweep) :
  r < 32 ->
  digitBinningLoop r s = digitBinningLoop (wrap32 (r + 8)) (loopBody r s).
Proof.
  intros Hr. rewrite digitBinningLoop_eq.
  destruct (decide (r < 32)); [reflexivity | contradiction].
Qed.

Lemma digitBinningLoop_exit (r : Z) (s : OneSweep) :
  ~ r < 32 -> digitBinningLoop r s = s.
Proof.
  intros Hr. rewrite digitBinningLoop_eq.
  destruct (decide (r < 32)); [contradiction | reflexivity].
Qed.

(** The loop runs its body for the shifts 0, 8, 16 and 24 and then stops. *)
Lemma PrepareSortCmdList_unfold (s : OneSweep) :
  PrepareSortCmdList s =
  loopBody 24 (loopBody 16 (loopBody 8 (loopBody 0 (prologue s)))).
Proof.
  unfold PrepareSortCmdList.
  rewrite (digitBinningLoop_step 0) by lia.
  change (wrap32 (0 + 8)) with 8.
  rewrite (digitBinningLoop_step 8) by lia.
  change (wrap32 (8 + 8)) with 16.
  rewrite (digitBinningLoop_step 16) by lia.
  change (wrap32 (16 + 8)) with 24.
  rewrite (digitBinningLoop_step 24) by lia.
  change (wrap32 (24 + 8)) with 32.
  apply digitBinningLoop_exit. lia.
Qed.

(** One loop iteration, field by field: five commands are appended and
    the two pairs of handles are exchanged. *)
Lemma loopBody_eq (r : Z) (s : OneSweep) :
  loopBody r s =
  mkOneSweep (base s)
    (m_cmdList s ++
       binningDispatch (m_sortBuffer s) (m_altBuffer s)
         (m_sortPayloadBuffer s) (m_altPayloadBuffer s) s r
       :: binningBarriers (m_sortBuffer s) (m_altBuffer s)
            (m_sortPayloadBuffer s) (m_altPayloadBuffer s))
    (m_altBuffer s) (m_sortBuffer s)
    (m_altPayloadBuffer s) (m_sortPayloadBuffer s)
    (m_globalHistBuffer s) (m_passHistBuffer s) (m_indexBuffer s)
    (m_numKeys s) (m_partitions s) (m_globalHistPartitions s).
Proof.
  destruct s. cbv [loopBody UAVBarrierSingle record swap_payload swap_sort_alt
    binningDispatch binningBarriers m_cmdList m_sortBuffer m_altBuffer
    m_sortPayloadBuffer m_altPayloadBuffer m_globalHistBuffer
    m_passHistBuffer m_indexBuffer m_numKeys m_partitions
    m_globalHistPartitions base].
  repeat rewrite <- app_assoc. reflexivity.
Qed.

Lemma prologue_eq (s : OneSweep) :
  prologue s =
  mkOneSweep (base s)
    (m_cmdList s ++
       [ InitSweepDispatch (m_globalHistBuffer s) (m_passHistBuffer s)
           (m_indexBuffer s) (m_partitions s);
         UAVBarrier (m_globalHistBuffer s);
         GlobalHistDispatch (m_sortBuffer s) (m_globalHistBuffer s)
           (m_numKeys s) (m_globalHistPartitions s);
         UAVBarrier (m_globalHistBuffer s);
         ScanDispatch (m_globalHistBuffer s) (m_passHistBuffer s)
           (m_partitions s) (k_radixPasses (base s));
         UAVBarrier (m_passHistBuffer s) ])
    (m_sortBuffer s) (m_altBuffer s)
    (m_sortPayloadBuffer s) (m_altPayloadBuffer s)
    (m_globalHistBuffer s) (m_passHistBuffer s) (m_indexBuffer s)
    (m_numKeys s) (m_partitions s) (m_globalHistPartitions s).
Proof.
  destruct s. cbv [prologue UAVBarrierSingle record m_cmdList m_sortBuffer
    m_altBuffer m_sortPayloadBuffer m_altPayloadBuffer m_globalHistBuffer
    m_passHistBuffer m_indexBuffer m_numKeys m_partitions
    m_globalHistPartitions base].
  repeat rewrite <- app_assoc. reflexivity.
Qed.

(** The whole call, field by field. *)
Lemma PrepareSortCmdList_eq (s : OneSweep) :
  PrepareSortCmdList s =
  mkOneSweep (base s) (m_cmdList s ++ expected_cmds s)
    (m_sortBuffer s) (m_altBuffer s)
    (m_sortPayloadBuffer s) (m_altPayloadBuffer s)
    (m_globalHistBuffer s) (m_passHistBuffer s) (m_indexBuffer s)
    (m_numKeys s) (m_partitions s) (m_globalHistPartitions s).
Proof.
  rewrite PrepareSortCmdList_unfold. destruct s.
  cbv [loopBody prologue UAVBarrierSingle record swap_payload swap_sort_alt
    expected_cmds binningDispatch binningBarriers m_cmdList m_sortBuffer
    m_altBuffer m_sortPayloadBuffer m_altPayloadBuffer m_globalHistBuffer
    m_passHistBuffer m_indexBuffer m_numKeys m_partitions
    m_globalHistPartitions base].
  f_equal. rewrite <- !app_assoc. reflexivity.
Qed.

Lemma PrepareSortCmdList_cmdList (s : OneSweep) :
  m_cmdList (PrepareSortCmdList s) = m_cmdList s ++ expected_cmds s.
Proof. rewrite PrepareSortCmdList_eq. reflexivity. Qed.

Lemma emitted_eq (s : OneSweep) : emitted s = expected_cmds s.
Proof.
  unfold emitted. rewrite PrepareSortCmdList_cmdList.
  apply drop_app_length.
Qed.

(** ** The digit-binning dispatches *)

(** C3.  The commands appended by [PrepareSortCmdList] contain exactly
    four digit-binning dispatches, and their radix shifts are, in the order
    of issue, 0, 8, 16 and 24: one per 8-bit digit of a 32-bit key, in
    strictly increasing order, and no other digit-binning dispatch. *)
Theorem binning_shifts_0_8_16_24 (s : OneSweep) :
  omap binning_shift (emitted s) = [0; 8; 16; 24]
  /\ length (filter (fun c => stage_of c = Some DigitBinning) (emitted s))
     = 4%nat.
Proof.
  rewrite emitted_eq. split; reflexivity.
Qed.

(** Every loop iteration exchanges both pairs of handles. *)
Lemma loopBody_roles (r : Z) (s : OneSweep) :
  current_roles (loopBody r s) = swap_roles (current_roles s).
Proof. rewrite loopBody_eq. reflexivity. Qed.

(** C4.  Each loop iteration swaps the two key buffers and the two payload
    buffers; hence each of the four digit-binning dispatches is recorded
    with the roles of its predecessor exchanged (the destination of a pass
    is the source of the next), and after the fourth dispatch the sorter
    holds the roles of that dispatch exchanged once more. *)
Theorem roles_swapped_after_each_pass (s : OneSweep) :
  let r0 := current_roles s in
  let r1 := swap_roles r0 in
  let r2 := swap_roles r1 in
  let r3 := swap_roles r2 in
  omap binning_roles (emitted s) = [r0; r1; r2; r3]
  /\ srcKeys r1 = dstKeys r0 /\ srcPayload r1 = dstPayload r0
  /\ srcKeys r2 = dstKeys r1 /\ srcPayload r2 = dstPayload r1
  /\ srcKeys r3 = dstKeys r2 /\ srcPayload r3 = dstPayload r2
  /\ current_roles (PrepareSortCmdList s) = swap_roles r3
  /\ (forall (radixShift : Z) (s' : OneSweep),
        current_roles (loopBody radixShift s')
        = swap_roles (current_roles s')).
Proof.
  cbv zeta. rewrite emitted_eq, PrepareSortCmdList_eq.
  repeat split.
Qed.

(** ** The constructors *)



(** ** Validation *)

(** C7, as stated, fails: with a key count of zero the call still appends
    all seven dispatches, four of them digit-binning passes. *)
Lemma zero_keys_still_dispatched :
  let s := sample_sorter ORDER_ASCENDING KEY_UINT32 0 in
  m_numKeys s = 0
  /\ omap stage_of (emitted s)
     = [Reset; GlobalHistogram; ExclusiveScan;
        DigitBinning; DigitBinning; DigitBinning; DigitBinning]
  /\ ~ (forall s' : OneSweep,
          m_numKeys s' = 0 -> omap stage_of (emitted s') = []).
Proof.
  cbv zeta. split; [reflexivity|]. split; [reflexivity|].
  intros H.
  specialize (H (sample_sorter ORDER_ASCENDING KEY_UINT32 0) eq_refl).
  discriminate H.
Qed.

(** C7, amended.  [PrepareSortCmdList] checks nothing: whatever the key
    count, the partition counts, the sorting order, the key type and the
    payload type, it returns normally and appends the same seven
    dispatches, leaving every other member as it was. *)
Theorem PrepareSortCmdList_never_rejects (s : OneSweep) :
  omap stage_of (emitted s)
  = [Reset; GlobalHistogram; ExclusiveScan;
     DigitBinning; DigitBinning; DigitBinning; DigitBinning]
  /\ m_cmdList (PrepareSortCmdList s) = m_cmdList s ++ emitted s
  /\ base (PrepareSortCmdList s) = base s
  /\ m_numKeys (PrepareSortCmdList s) = m_numKeys s
  /\ m_partitions (PrepareSortCmdList s) = m_partitions s.
Proof.
  rewrite emitted_eq, PrepareSortCmdList_eq. repeat split.
Qed.

(** ** Barriers *)

(** C5, as stated, fails: the reset dispatch (position 0) zeroes the
    tile-index buffer, the first digit-binning dispatch (position 6)
    increments it, and none of the barriers between them names it. *)
Lemma index_buffer_not_covered :
  let s := sample_sorter ORDER_ASCENDING KEY_UINT32 4 in
  NoDup (buffers_of s)
  /\ m_indexBuffer s ∈ writes (InitSweepDispatch 5%nat 6%nat 7%nat 1)
  /\ emitted s !! 0%nat = Some (InitSweepDispatch 5%nat 6%nat 7%nat 1)
  /\ ~ barrier_between (emitted s) 0 6 (m_indexBuffer s)
  /\ ~ barriers_cover_all (emitted s).
Proof.
  cbv zeta.
  assert (Hno : ~ barrier_between
                   (emitted (sample_sorter ORDER_ASCENDING KEY_UINT32 4))
                   0 6 7%nat).
  { intros (k & Hk & Hb).
    do 7 (destruct k as [|k]; [first [lia | discriminate Hb]|]). lia. }
  split; [|split; [|split; [|split]]].
  - apply (bool_decide_unpack _); vm_compute; exact I.
  - apply (bool_decide_unpack _); vm_compute; exact I.
  - reflexivity.
  - exact Hno.
  - intros H. apply Hno.
    apply (H 0%nat 6%nat (InitSweepDispatch 5%nat 6%nat 7%nat 1)
             (DigitBinningPassDispatch 1%nat 2%nat 3%nat 4%nat 7%nat 6%nat
                4 1 0) 7%nat).
    + lia.
    + reflexivity.
    + reflexivity.
    + apply (bool_decide_unpack _); vm_compute; exact I.
    + apply (bool_decide_unpack _); vm_compute; exact I.
Qed.

(** The handles of a sorter over distinct buffers are pairwise different. *)
Lemma buffers_distinct (s : OneSweep) :
  NoDup (buffers_of s) ->
  forall i j : nat, i <> j ->
  forall x, buffers_of s !! i = Some x -> buffers_of s !! j <> Some x.
Proof.
  intros Hnd i j Hij x Hi Hj. apply Hij.
  exact (NoDup_lookup _ _ _ _ Hnd Hi Hj).
Qed.

(** Case analysis on the position [i] of a command [H : cmds !! i = Some c]
    in an explicit command list; [k] runs in every case. *)
Ltac split_index i H k :=
  first
    [ discriminate H
    | rewrite lookup_nil in H; discriminate H
    | destruct i as [|i];
      [ cbn in H; injection H as <-; k
      | cbn in H; split_index i H k ] ].

(** C5, amended.  For a sorter over distinct buffers: the seven
    dispatches are recorded in the order reset, global histogram, scan,
    and the four digit-binning passes, at shifts 0, 8, 16 and 24; every
    dispatch, the last one included, is directly followed by a UAV barrier
    on a single buffer; and whenever an earlier dispatch writes a buffer
    that a later dispatch reads, a barrier naming that buffer lies between
    the two, for every buffer other than the tile-index buffer and other
    than the pass histogram between two digit-binning passes. *)
Theorem barriers_cover_by_design (s : OneSweep)
    (Hdistinct : NoDup (buffers_of s)) :
  omap stage_of (emitted s)
  = [Reset; GlobalHistogram; ExclusiveScan;
     DigitBinning; DigitBinning; DigitBinning; DigitBinning]
  /\ omap binning_shift (emitted s) = [0; 8; 16; 24]
  /\ (forall (i : nat) (c : command),
        emitted s !! i = Some c -> is_Some (stage_of c) ->
        exists b' : buffer, emitted s !! S i = Some (UAVBarrier b'))
  /\ (forall (i j : nat) (e l : command) (b : buffer),
        (i < j)%nat ->
        emitted s !! i = Some e ->
        emitted s !! j = Some l ->
        b ∈ writes e ->
        b ∈ reads l ->
        b <> m_indexBuffer s ->
        (stage_of e = Some DigitBinning -> b <> m_passHistBuffer s) ->
        barrier_between (emitted s) i j b).
Proof.
  rewrite emitted_eq in *.
  split; [reflexivity|]. split; [reflexivity|]. split.
  { intros i c Hi [st Hst].
    unfold expected_cmds, binningDispatch, binningBarriers in *.
    cbn [app] in *.
    split_index i Hi ltac:(first [discriminate Hst
                                 | eexists; reflexivity]). }
  intros i j e l b Hij Hi Hj Hw Hr Hidx Hph.
  assert (Hall : forall x y : nat, x <> y ->
            forall h, buffers_of s !! x = Some h ->
                      buffers_of s !! y <> Some h)
    by (apply buffers_distinct; assumption).
  pose proof (Hall 0%nat 1%nat ltac:(lia) _ eq_refl) as H01.
  pose proof (Hall 0%nat 2%nat ltac:(lia) _ eq_refl) as H02.
  pose proof (Hall 0%nat 3%nat ltac:(lia) _ eq_refl) as H03.
  pose proof (Hall 0%nat 4%nat ltac:(lia) _ eq_refl) as H04.
  pose proof (Hall 0%nat 5%nat ltac:(lia) _ eq_refl) as H05.
  pose proof (Hall 1%nat 2%nat ltac:(lia) _ eq_refl) as H12.
  pose proof (Hall 1%nat 3%nat ltac:(lia) _ eq_refl) as H13.
  pose proof (Hall 1%nat 4%nat ltac:(lia) _ eq_refl) as H14.
  pose proof (Hall 1%nat 5%nat ltac:(lia) _ eq_refl) as H15.
  pose proof (Hall 2%nat 3%nat ltac:(lia) _ eq_refl) as H23.
  pose proof (Hall 2%nat 4%nat ltac:(lia) _ eq_refl) as H24.
  pose proof (Hall 2%nat 5%nat ltac:(lia) _ eq_refl) as H25.
  pose proof (Hall 3%nat 4%nat ltac:(lia) _ eq_refl) as H34.
  pose proof (Hall 3%nat 5%nat ltac:(lia) _ eq_refl) as H35.
  pose proof (Hall 4%nat 5%nat ltac:(lia) _ eq_refl) as H45.
  clear Hall. cbn in H01, H02, H03, H04, H05, H12, H13, H14, H15, H23, H24,
    H25, H34, H35, H45.
  unfold barrier_between, expected_cmds, binningDispatch, binningBarriers
    in *.
  cbn [app] in *.
  split_index i Hi ltac:(cbn in Hw; try (by apply elem_of_nil in Hw)).
  all: split_index j Hj ltac:(try lia; cbn in Hr;
                              try (by apply elem_of_nil in Hr)).
  all: cbn in Hph.
  all: repeat match goal with
       | H : _ ∈ _ :: _ |- _ => apply elem_of_cons in H as [H|H]
       | H : _ ∈ [] |- _ => by apply elem_of_nil in H
       end.
  all: subst b.
  all: try congruence.
  all: try (exfalso; apply Hph; reflexivity).
  all: first
    [ exists 1%nat; split; [lia | reflexivity]
    | exists 3%nat; split; [lia | reflexivity]
    | exists 5%nat; split; [lia | reflexivity]
    | exists 7%nat; split; [lia | reflexivity]
    | exists 8%nat; split; [lia | reflexivity]
    | exists 9%nat; split; [lia | reflexivity]
    | exists 10%nat; split; [lia | reflexivity]
    | exists 12%nat; split; [lia | reflexivity]
    | exists 13%nat; split; [lia | reflexivity]
    | exists 14%nat; split; [lia | reflexivity]
    | exists 15%nat; split; [lia | reflexivity]
    | exists 17%nat; split; [lia | reflexivity]
    | exists 18%nat; split; [lia | reflexivity]
    | exists 19%nat; split; [lia | reflexivity]
    | exists 20%nat; split; [lia | reflexivity] ].
Qed.

(** The amended C5 at work on a sorter over seven distinct buffers: the
    fourth digit-binning dispatch (position 21) is directly followed by a
    barrier; and the first digit-binning pass (position 6) scatters into
    buffer 2, the second (position 11) reads it, and a barrier on buffer 2
    lies between them. *)
Lemma barriers_cover_by_design_witness :
  let s := sample_sorter ORDER_ASCENDING KEY_UINT32 4 in
  NoDup (buffers_of s)
  /\ omap binning_shift (emitted s) = [0; 8; 16; 24]
  /\ (exists b' : buffer, emitted s !! 22%nat = Some (UAVBarrier b'))
  /\ barrier_between (emitted s) 6 11 2%nat.
Proof.
  cbv zeta.
  assert (Hdistinct : NoDup (buffers_of
                               (sample_sorter ORDER_ASCENDING KEY_UINT32 4))).
  { apply (bool_decide_unpack _). vm_compute. exact I. }
  split; [exact Hdistinct|].
  destruct (barriers_cover_by_design
              (sample_sorter ORDER_ASCENDING KEY_UINT32 4) Hdistinct)
    as (_ & Hshifts & Hfollowed & Hcovered).
  split; [exact Hshifts|]. split.
  - apply (Hfollowed 21%nat
             (DigitBinningPassDispatch 2%nat 1%nat 4%nat 3%nat 7%nat 6%nat
                4 1 24)); [reflexivity | eexists; reflexivity].
  - apply (Hcovered 6%nat 11%nat
             (DigitBinningPassDispatch 1%nat 2%nat 3%nat 4%nat 7%nat 6%nat
                4 1 0)
             (DigitBinningPassDispatch 2%nat 1%nat 4%nat 3%nat 7%nat 6%nat
                4 1 8)
             2%nat).
    + lia.
    + reflexivity.
    + reflexivity.
    + apply (bool_decide_unpack _). vm_compute. exact I.
    + apply (bool_decide_unpack _). vm_compute. exact I.
    + vm_compute. lia.
    + intros _. vm_compute. lia.
Defined.

(** * Properties of the modelled device side *)

(** ** Digits and counts *)

Lemma digit_lt (radixShift key : Z) : (digit radixShift key < RADIX)%nat.
Proof.
  unfold digit, RADIX. change 255 with (Z.ones 8).
  rewrite Z.land_ones by lia.
  pose proof (Z.mod_pos_bound (Z.shiftr key radixShift) (2 ^ 8)).
  lia.
Qed.

Lemma count_digit_app (radixShift : Z) (d : nat) (l1 l2 : list Z) :
  count_digit radixShift d (l1 ++ l2)
  = (count_digit radixShift d l1 + count_digit radixShift d l2)%nat.
Proof. unfold count_digit. rewrite filter_app, length_app. reflexivity. Qed.

Lemma count_digit_fst {A : Type} (radixShift : Z) (d : nat)
    (l : list (Z * A)) :
  length (filter (fun x => digit radixShift x.1 = d) l)
  = count_digit radixShift d (l.*1).
Proof.
  unfold count_digit. induction l as [|x l IH]; [reflexivity|].
  rewrite fmap_cons, !filter_cons. cbn.
  destruct (decide (digit radixShift x.1 = d)); cbn; rewrite IH; reflexivity.
Qed.

Lemma count_digit_perm (radixShift : Z) (d : nat) (l1 l2 : list Z) :
  l1 ≡ₚ l2 -> count_digit radixShift d l1 = count_digit radixShift d l2.
Proof. intros H. unfold count_digit. rewrite H. reflexivity. Qed.

Lemma exclusive_scan_S (hist : nat -> nat) (d : nat) :
  exclusive_scan hist (S d) = (exclusive_scan hist d + hist d)%nat.
Proof.
  unfold exclusive_scan. rewrite seq_S, sum_list_with_app. cbn. lia.
Qed.

Lemma exclusive_scan_ext (h1 h2 : nat -> nat) (d : nat) :
  (forall d', (d' < d)%nat -> h1 d' = h2 d') ->
  exclusive_scan h1 d = exclusive_scan h2 d.
Proof.
  induction d as [|d IH]; intros H; [reflexivity|].
  rewrite !exclusive_scan_S, IH by (intros; apply H; lia).
  rewrite (H d) by lia. reflexivity.
Qed.

Lemma filter_everything {B : Type} (P : B -> Prop)
    `{!forall x, Decision (P x)} (l : list B) :
  (forall x, P x) -> filter P l = l.
Proof.
  intros HP. induction l as [|x l IH]; [reflexivity|].
  rewrite filter_cons_True, IH by apply HP. reflexivity.
Qed.

(** The exclusive scan of the digit histogram at [n] counts the keys whose
    digit is below [n]. *)
Lemma exclusive_scan_count (radixShift : Z) (keys : list Z) (n : nat) :
  exclusive_scan (fun d => count_digit radixShift d keys) n
  = length (filter (fun k => (digit radixShift k < n)%nat) keys).
Proof.
  induction n as [|n IH].
  - cbn. induction keys as [|k keys IHk]; [reflexivity|].
    rewrite filter_cons_False by lia. exact IHk.
  - rewrite exclusive_scan_S, IH. clear IH. unfold count_digit.
    induction keys as [|k keys IHk]; [reflexivity|].
    rewrite !filter_cons.
    destruct (decide (digit radixShift k < n)%nat),
             (decide (digit radixShift k = n)),
             (decide (digit radixShift k < S n)%nat); cbn [length]; lia.
Qed.

(** ** A stable sort by digit puts every record at its stable position *)

Section stable_sort.
Context {A : Type}.
Implicit Types (l : list (Z * A)) (x : Z * A).

Lemma length_buckets radixShift l (n : nat) :
  length (concat (bucket radixShift l <$> seq 0 n))
  = exclusive_scan (fun d => count_digit radixShift d (l.*1)) n.
Proof.
  induction n as [|n IH]; [reflexivity|].
  rewrite seq_S, fmap_app, concat_app, length_app, IH, exclusive_scan_S.
  cbn. rewrite app_nil_r. unfold bucket. rewrite count_digit_fst.
  reflexivity.
Qed.

Lemma lookup_buckets radixShift l (n d r : nat) :
  (d < n)%nat ->
  (r < length (bucket radixShift l d))%nat ->
  concat (bucket radixShift l <$> seq 0 n)
    !! (exclusive_scan (fun d => count_digit radixShift d (l.*1)) d + r)%nat
  = bucket radixShift l d !! r.
Proof.
  intros Hd Hr.
  replace n with (d + S (n - S d))%nat by lia.
  rewrite seq_app, fmap_app, concat_app. cbn [seq fmap list_fmap concat].
  rewrite lookup_app_r by (rewrite length_buckets; lia).
  rewrite length_buckets.
  replace (_ + r - _)%nat with r by lia.
  rewrite lookup_app_l by assumption. reflexivity.
Qed.

Lemma lookup_filter_prefix (P : Z * A -> Prop) `{!forall x, Decision (P x)}
    l (i : nat) x :
  l !! i = Some x -> P x ->
  filter P l !! length (filter P (take i l)) = Some x.
Proof.
  intros Hi HP.
  transitivity (filter P (take i l ++ x :: drop (S i) l)
                  !! length (filter P (take i l))).
  { rewrite take_drop_middle by assumption. reflexivity. }
  rewrite filter_app, filter_cons_True by assumption.
  rewrite lookup_app_r by lia.
  rewrite Nat.sub_diag. reflexivity.
Qed.

Lemma stable_position_lookup radixShift l (i : nat) x :
  l !! i = Some x ->
  stable_sort_by_digit radixShift l
    !! stable_position radixShift (l.*1) i x.1
  = Some x.
Proof.
  intros Hi. unfold stable_sort_by_digit, stable_position.
  pose proof (lookup_filter_prefix
                (fun y => digit radixShift y.1 = digit radixShift x.1)
                l i x Hi eq_refl) as Hf.
  rewrite <- fmap_take, <- count_digit_fst.
  change (fun d => filter (fun x0 => digit radixShift x0.1 = d) l)
    with (bucket radixShift l).
  rewrite lookup_buckets.
  - exact Hf.
  - apply digit_lt.
  - apply lookup_lt_Some in Hf. exact Hf.
Qed.

Lemma length_stable_sort_by_digit radixShift l :
  length (stable_sort_by_digit radixShift l) = length l.
Proof.
  unfold stable_sort_by_digit.
  change (fun d => filter (fun x0 => digit radixShift x0.1 = d) l)
    with (bucket radixShift l).
  rewrite length_buckets, exclusive_scan_count.
  rewrite <- (length_fmap fst l). f_equal.
  apply filter_everything. intros k. apply digit_lt.
Qed.
End stable_sort.

(** ** Scattering *)

Section scatter.
Context {B : Type}.
Implicit Types (ds : list nat) (vs out : list B).

Lemma scatter_cons (d : nat) ds (v : B) vs out :
  scatter (d :: ds) (v :: vs) out = scatter ds vs (<[d := v]> out).
Proof. reflexivity. Qed.

Lemma length_scatter ds vs out : length (scatter ds vs out) = length out.
Proof.
  revert vs out. induction ds as [|d ds IH]; intros [|v vs] out;
    try reflexivity.
  rewrite scatter_cons, IH, length_insert. reflexivity.
Qed.

Lemma scatter_app ds1 ds2 vs1 vs2 out :
  length ds1 = length vs1 ->
  scatter (ds1 ++ ds2) (vs1 ++ vs2) out
  = scatter ds2 vs2 (scatter ds1 vs1 out).
Proof.
  intros Hlen. unfold scatter.
  rewrite zip_with_app by assumption. apply foldl_app.
Qed.

Lemma scatter_lookup_other ds vs out (p : nat) :
  p ∉ ds -> scatter ds vs out !! p = out !! p.
Proof.
  revert vs out. induction ds as [|d ds IH]; intros [|v vs] out Hp;
    try reflexivity.
  rewrite scatter_cons, IH by set_solver.
  apply list_lookup_insert_ne. set_solver.
Qed.

Lemma scatter_lookup ds vs out (i p : nat) (v : B) :
  NoDup ds -> ds !! i = Some p -> vs !! i = Some v ->
  (p < length out)%nat ->
  scatter ds vs out !! p = Some v.
Proof.
  revert vs out i. induction ds as [|d ds IH]; intros vs out i Hnd Hd Hv Hp.
  - rewrite lookup_nil in Hd. discriminate.
  - destruct vs as [|v0 vs]; [rewrite lookup_nil in Hv; discriminate|].
    apply NoDup_cons in Hnd as [Hnotin Hnd].
    rewrite scatter_cons. destruct i as [|i]; cbn in Hd, Hv.
    + injection Hd as ->. injection Hv as ->.
      rewrite scatter_lookup_other by assumption.
      apply list_lookup_insert_eq. assumption.
    + apply (IH vs _ i); try assumption.
      rewrite length_insert. assumption.
Qed.

(** Scattering to a permutation of the slots fixes the whole output. *)
Lemma scatter_determined ds vs out (target : list B) :
  NoDup ds ->
  length ds = length out -> length vs = length out ->
  length target = length out ->
  (forall p, p ∈ ds -> (p < length out)%nat) ->
  (forall i p v, ds !! i = Some p -> vs !! i = Some v ->
                 target !! p = Some v) ->
  scatter ds vs out = target.
Proof.
  intros Hnd Hds Hvs Htarget Hbound Hspec.
  assert (Hperm : ds ≡ₚ seq 0 (length out)).
  { apply submseteq_length_Permutation.
    - apply NoDup_submseteq; [assumption|].
      intros p Hp. apply elem_of_seq. specialize (Hbound p Hp). lia.
    - rewrite length_seq. lia. }
  apply list_eq. intros p.
  destruct (decide (p < length out)%nat) as [Hp|Hp].
  - assert (Hin : p ∈ ds) by (rewrite Hperm; apply elem_of_seq; lia).
    apply list_elem_of_lookup in Hin as [i Hi].
    destruct (lookup_lt_is_Some_2 vs i) as [v Hv].
    { apply lookup_lt_Some in Hi. lia. }
    rewrite (scatter_lookup ds vs out i p v) by assumption.
    symmetry. apply (Hspec i); assumption.
  - rewrite !lookup_ge_None_2; [reflexivity|lia|].
    rewrite length_scatter. lia.
Qed.

Lemma scatter_fmap {C : Type} (f : B -> C) ds vs out :
  f <$> scatter ds vs out = scatter ds (f <$> vs) (f <$> out).
Proof.
  revert vs out. induction ds as [|d ds IH]; intros [|v vs] out;
    try reflexivity.
  rewrite fmap_cons, !scatter_cons, IH, list_fmap_insert. reflexivity.
Qed.
End scatter.

(** ** Scattering to the stable positions is the stable sort by digit *)

Lemma length_stable_positions (radixShift : Z) (keys : list Z) :
  length (stable_positions radixShift keys) = length keys.
Proof. apply length_imap. Qed.

Lemma lookup_stable_positions (radixShift : Z) (keys : list Z) (i p : nat) :
  stable_positions radixShift keys !! i = Some p <->
  exists key, keys !! i = Some key
              /\ p = stable_position radixShift keys i key.
Proof.
  unfold stable_positions. rewrite list_lookup_imap.
  destruct (keys !! i) as [key|]; cbn; split.
  - intros [= <-]. eauto.
  - intros (? & [= <-] & ->). reflexivity.
  - discriminate.
  - intros (? & [=] & _).
Qed.

Lemma stable_position_bound (radixShift : Z) (keys : list Z) (i : nat)
    (key : Z) :
  keys !! i = Some key ->
  (stable_position radixShift keys i key < length keys)%nat.
Proof.
  intros Hi.
  set (l := (fun k => (k, tt)) <$> keys).
  assert (Hfst : l.*1 = keys).
  { unfold l. rewrite <- list_fmap_compose. apply list_fmap_id. }
  assert (Hl : l !! i = Some (key, tt)).
  { unfold l. rewrite list_lookup_fmap, Hi. reflexivity. }
  apply (stable_position_lookup radixShift) in Hl.
  rewrite Hfst in Hl. apply lookup_lt_Some in Hl.
  rewrite length_stable_sort_by_digit in Hl.
  unfold l in Hl. rewrite length_fmap in Hl. exact Hl.
Qed.

Lemma NoDup_stable_positions (radixShift : Z) (keys : list Z) :
  NoDup (stable_positions radixShift keys).
Proof.
  apply NoDup_alt. intros i j p Hi Hj.
  apply lookup_stable_positions in Hi as (ki & Hki & ->).
  apply lookup_stable_positions in Hj as (kj & Hkj & Heq).
  set (l := imap (fun n k => (k, n)) keys).
  assert (Hfst : l.*1 = keys).
  { unfold l. apply list_eq. intros n.
    rewrite list_lookup_fmap, list_lookup_imap.
    destruct (keys !! n); reflexivity. }
  pose proof (stable_position_lookup radixShift l i (ki, i)) as H1.
  pose proof (stable_position_lookup radixShift l j (kj, j)) as H2.
  unfold l in H1 at 1. unfold l in H2 at 1.
  rewrite list_lookup_imap, Hki in H1.
  rewrite list_lookup_imap, Hkj in H2.
  specialize (H1 eq_refl). specialize (H2 eq_refl).
  rewrite Hfst in H1, H2. cbn in H1, H2.
  rewrite Heq, H2 in H1. congruence.
Qed.

Theorem scatter_stable_positions {A : Type} (radixShift : Z)
    (l out : list (Z * A)) :
  length out = length l ->
  scatter (stable_positions radixShift (l.*1)) l out
  = stable_sort_by_digit radixShift l.
Proof.
  intros Hlen. apply scatter_determined.
  - apply NoDup_stable_positions.
  - rewrite length_stable_positions, length_fmap. lia.
  - lia.
  - rewrite length_stable_sort_by_digit. lia.
  - intros p Hp. apply list_elem_of_lookup in Hp as [i Hi].
    apply lookup_stable_positions in Hi as (key & Hkey & ->).
    apply (stable_position_bound radixShift) in Hkey.
    rewrite length_fmap in Hkey. lia.
  - intros i p x Hi Hx.
    apply lookup_stable_positions in Hi as (key & Hkey & ->).
    rewrite list_lookup_fmap, Hx in Hkey. injection Hkey as <-.
    apply stable_position_lookup. assumption.
Qed.

(** ** One digit-binning pass *)

Lemma mapM_total {X Y : Type} (f : X -> option Y) (g : X -> Y)
    (l : list X) :
  (forall x, x ∈ l -> f x = Some (g x)) -> mapM f l = Some (g <$> l).
Proof.
  intros H. apply mapM_Some. apply Forall2_fmap_r, Forall_Forall2_diag.
  apply Forall_forall. exact H.
Qed.

Lemma slice_full {B : Type} (partSize tile : nat) (l : list B) :
  slice partSize (length l) tile l = take partSize (drop (tile * partSize) l).
Proof. unfold slice. rewrite (take_ge l) by lia. reflexivity. Qed.

Lemma length_binning_positions radixShift offsets (keys : list Z) :
  length (binning_positions radixShift offsets keys) = length keys.
Proof. apply length_imap. Qed.

(** The tile's own destinations are its part of the pass's destinations. *)
Lemma tile_positions (partSize : nat) (radixShift : Z)
    (offsets excl : nat -> nat) (keys : list Z) (t : nat) :
  (forall d, (d < RADIX)%nat ->
     excl d = count_digit radixShift d (take (t * partSize) keys)) ->
  imap (fun j key =>
          (offsets (digit radixShift key) + excl (digit radixShift key)
           + count_digit radixShift (digit radixShift key)
               (take j (take partSize (drop (t * partSize) keys))))%nat)
    (take partSize (drop (t * partSize) keys))
  = take partSize
      (drop (t * partSize) (binning_positions radixShift offsets keys)).
Proof.
  intros Hexcl. apply list_eq. intros j.
  unfold binning_positions.
  rewrite list_lookup_imap, !lookup_take.
  destruct (decide (j < partSize)%nat) as [Hj|Hj]; [|reflexivity].
  rewrite !lookup_drop, list_lookup_imap.
  destruct (keys !! (t * partSize + j)%nat) as [key|]; [|reflexivity].
  cbn. f_equal.
  rewrite Hexcl by apply digit_lt.
  rewrite take_take, Nat.min_l by lia.
  rewrite <- (take_take_drop keys (t * partSize) j), count_digit_app. lia.
Qed.

Lemma binning_tile_step (partSize : nat) (radixShift : Z)
    (offsets : nat -> nat) (keys payload : list Z) (st0 st : binning)
    (t : nat) :
  length payload = length keys ->
  tiles_done partSize radixShift offsets keys payload st0 t st ->
  exists st',
    binning_tile partSize radixShift (length keys) offsets keys payload st
    = Some st'
    /\ tiles_done partSize radixShift offsets keys payload st0 (S t) st'.
Proof.
  intros Hlen (Hc & He & Hk & Hp).
  unfold binning_tile. rewrite Hc.
  rewrite slice_full. rewrite <- Hlen, slice_full.
  set (tileKeys := take partSize (drop (t * partSize) keys)).
  set (tilePayload := take partSize (drop (t * partSize) payload)).
  set (g := fun d => count_digit radixShift d (take (t * partSize) keys)).
  set (entries1 := <[t := _]> (entries st)).
  assert (Hlb : forall d, d ∈ seq 0 RADIX ->
            lookback (fun t' => entries1 t' d) t = Some (g d)).
  { intros d Hd. apply elem_of_seq in Hd. unfold g.
    destruct t as [|t0]; [reflexivity|].
    cbn [lookback]. unfold entries1.
    rewrite fn_lookup_insert_ne by lia.
    rewrite He by lia. reflexivity. }
  rewrite (mapM_total _ g _ Hlb).
  assert (Hexcl : forall d, (d < RADIX)%nat ->
            default 0%nat ((g <$> seq 0 RADIX) !! d) = g d).
  { intros d Hd. rewrite list_lookup_fmap, lookup_seq_lt by assumption.
    reflexivity. }
  eexists. split; [reflexivity|].
  unfold tiles_done. cbn [counter entries outKeys outPayload].
  assert (Hpos := tile_positions partSize radixShift offsets
                    (fun d => default 0%nat ((g <$> seq 0 RADIX) !! d))
                    keys t Hexcl).
  fold tileKeys in Hpos. rewrite Hpos.
  split; [reflexivity|]. split; [|split].
  - intros t' d Ht' Hd.
    destruct (decide (t' = t)) as [->|Hne].
    + rewrite fn_lookup_insert. f_equal. rewrite Hexcl by assumption.
      unfold g, tileKeys.
      replace (S t * partSize)%nat with (t * partSize + partSize)%nat by lia.
      rewrite <- take_take_drop, count_digit_app. reflexivity.
    + unfold entries1. rewrite !fn_lookup_insert_ne by lia.
      apply He; [lia|assumption].
  - rewrite Hk.
    replace (S t * partSize)%nat with (t * partSize + partSize)%nat by lia.
    rewrite <- !take_take_drop. rewrite scatter_app; [reflexivity|].
    rewrite !length_take, length_binning_positions. reflexivity.
  - rewrite Hp.
    replace (S t * partSize)%nat with (t * partSize + partSize)%nat by lia.
    rewrite <- !take_take_drop. rewrite scatter_app; [reflexivity|].
    rewrite !length_take, length_binning_positions. lia.
Qed.

Lemma binning_tiles_done (partSize : nat) (radixShift : Z)
    (offsets : nat -> nat) (keys payload : list Z) (st0 st : binning)
    (n t : nat) :
  length payload = length keys ->
  tiles_done partSize radixShift offsets keys payload st0 t st ->
  exists st',
    binning_tiles n
      (binning_tile partSize radixShift (length keys) offsets keys payload)
      st
    = Some st'
    /\ tiles_done partSize radixShift offsets keys payload st0 (t + n) st'.
Proof.
  intros Hlen. revert t st. induction n as [|n IH]; intros t st Hdone.
  - exists st. rewrite Nat.add_0_r. split; [reflexivity|assumption].
  - destruct (binning_tile_step _ _ _ _ _ _ _ _ Hlen Hdone)
      as (st1 & Hstep & Hdone1).
    cbn [binning_tiles]. rewrite Hstep.
    replace (t + S n)%nat with (S t + n)%nat by lia.
    apply IH. assumption.
Qed.

(** A pass whose counter starts at zero and whose tiles cover the keys
    scatters keys and payloads to the pass's destinations; no look-back
    stalls. *)
Lemma binning_pass_scatters (partSize : nat) (radixShift : Z)
    (offsets : nat -> nat) (keys payload : list Z) (st0 : binning)
    (partitions : nat) :
  length payload = length keys ->
  counter st0 = 0%nat ->
  (length keys <= partitions * partSize)%nat ->
  exists st,
    binning_tiles partitions
      (binning_tile partSize radixShift (length keys) offsets keys payload)
      st0
    = Some st
    /\ counter st = partitions
    /\ outKeys st
       = scatter (binning_positions radixShift offsets keys) keys
           (outKeys st0)
    /\ outPayload st
       = scatter (binning_positions radixShift offsets keys) payload
           (outPayload st0).
Proof.
  intros Hlen Hc Hcover.
  assert (H0 : tiles_done partSize radixShift offsets keys payload st0 0 st0).
  { repeat split; try assumption; intros; lia. }
  destruct (binning_tiles_done partSize radixShift offsets keys payload
              st0 st0 partitions 0 Hlen H0) as (st & Hrun & Hc' & _ & Hk & Hp).
  exists st. split; [exact Hrun|]. split; [exact Hc'|].
  cbn [Nat.add] in Hk, Hp.
  rewrite !take_ge in Hk, Hp
    by (rewrite ?length_binning_positions; lia).
  split; assumption.
Qed.

Lemma binning_positions_stable (radixShift : Z) (offsets : nat -> nat)
    (keys : list Z) :
  (forall d, (d < RADIX)%nat ->
     offsets d
     = exclusive_scan (fun d' => count_digit radixShift d' keys) d) ->
  binning_positions radixShift offsets keys
  = stable_positions radixShift keys.
Proof.
  intros Hoff. unfold binning_positions, stable_positions, stable_position.
  apply imap_ext. intros i key _. cbn.
  rewrite Hoff by apply digit_lt. reflexivity.
Qed.

(** ** Four passes, least significant digit first *)

Lemma low_bits_bound (pass : nat) (key : Z) :
  0 <= low_bits pass key < 2 ^ (8 * Z.of_nat pass).
Proof. apply Z.mod_pos_bound. apply Z.pow_pos_nonneg; lia. Qed.

Lemma low_bits_0 (key : Z) : low_bits 0 key = 0.
Proof. unfold low_bits. cbn. apply Z.mod_1_r. Qed.

Lemma low_bits_word (key : Z) : is_word key -> low_bits 4 key = key.
Proof. intros H. unfold low_bits. apply Z.mod_small. exact H. Qed.

(** The digit of pass [pass] sits on top of the lower digits. *)
Lemma low_bits_S (pass : nat) (key : Z) :
  low_bits (S pass) key
  = low_bits pass key
    + 2 ^ (8 * Z.of_nat pass) * Z.of_nat (digit (shift_of_pass pass) key).
Proof.
  unfold low_bits, digit, shift_of_pass.
  replace (8 * Z.of_nat (S pass)) with (8 * Z.of_nat pass + 8) by lia.
  rewrite Z.pow_add_r by lia.
  rewrite Z.rem_mul_r by (try apply Z.pow_nonzero; lia).
  rewrite Z.shiftr_div_pow2 by lia.
  change 255 with (Z.ones 8). rewrite Z.land_ones by lia.
  rewrite Z2Nat.id; [reflexivity|].
  apply Z.mod_pos_bound. lia.
Qed.

Section permutation.
Context {A : Type}.
Implicit Types l : list (Z * A).

Lemma stable_sort_by_digit_below_perm radixShift l (n : nat) :
  concat ((fun d => filter (fun x => digit radixShift x.1 = d) l)
            <$> seq 0 n)
  ≡ₚ filter (fun x => (digit radixShift x.1 < n)%nat) l.
Proof.
  induction n as [|n IH].
  - cbn. induction l as [|x l IHl]; [reflexivity|].
    rewrite filter_cons_False by lia. exact IHl.
  - rewrite seq_S, fmap_app, concat_app, IH. cbn. rewrite app_nil_r.
    clear IH. induction l as [|x l IHl]; [reflexivity|].
    rewrite !filter_cons.
    destruct (decide (digit radixShift x.1 < n)%nat),
             (decide (digit radixShift x.1 = n)),
             (decide (digit radixShift x.1 < S n)%nat); try lia.
    + cbn. rewrite IHl. reflexivity.
    + rewrite <- Permutation_middle, IHl. reflexivity.
    + exact IHl.
Qed.

Lemma stable_sort_by_digit_perm radixShift l :
  stable_sort_by_digit radixShift l ≡ₚ l.
Proof.
  unfold stable_sort_by_digit. rewrite stable_sort_by_digit_below_perm.
  rewrite filter_everything; [reflexivity|].
  intros x. apply digit_lt.
Qed.

Lemma reference_sort_perm l : reference_sort l ≡ₚ l.
Proof.
  unfold reference_sort. rewrite !stable_sort_by_digit_perm. reflexivity.
Qed.

End permutation.

Section lsd.
Context {A : Type}.
Implicit Types T : list (Z * (A * nat)).

(** Within one bucket the order of the previous passes carries over. *)
Lemma bucket_sorted (pass d : nat) T :
  StronglySorted (lsd_order pass) T ->
  StronglySorted (lsd_order (S pass))
    (filter (fun x => digit (shift_of_pass pass) x.1 = d) T).
Proof.
  induction 1 as [|x T HT IH Hx]; [constructor|].
  rewrite filter_cons. destruct (decide _) as [Hd|Hd]; [|exact IH].
  constructor; [exact IH|].
  apply Forall_forall. intros y Hy.
  apply list_elem_of_filter in Hy as [Hdy Hy].
  rewrite Forall_forall in Hx. specialize (Hx y Hy).
  unfold lsd_order in *. rewrite !low_bits_S, Hd, Hdy. lia.
Qed.

Lemma buckets_sorted (pass n : nat) T :
  StronglySorted (lsd_order pass) T ->
  StronglySorted (lsd_order (S pass))
    (concat ((fun d => filter (fun x => digit (shift_of_pass pass) x.1 = d) T)
               <$> seq 0 n)).
Proof.
  intros HT. induction n as [|n IH]; [constructor|].
  rewrite seq_S, fmap_app, concat_app. cbn. rewrite app_nil_r.
  apply StronglySorted_app. split; [|split].
  - intros x y Hx Hy.
    rewrite stable_sort_by_digit_below_perm in Hx.
    apply list_elem_of_filter in Hx as [Hdx _].
    apply list_elem_of_filter in Hy as [Hdy _].
    left. rewrite !low_bits_S.
    pose proof (low_bits_bound pass x.1).
    pose proof (low_bits_bound pass y.1).
    nia.
  - exact IH.
  - apply bucket_sorted. exact HT.
Qed.

Lemma stable_sort_by_digit_sorted (pass : nat) T :
  StronglySorted (lsd_order pass) T ->
  StronglySorted (lsd_order (S pass))
    (stable_sort_by_digit (shift_of_pass pass) T).
Proof. apply buckets_sorted. Qed.
End lsd.

(** ** Payloads travel with their keys *)

Lemma filter_fmap_key {A B : Type} (h : Z * A -> Z * B) (P : Z -> Prop)
    `{!forall k, Decision (P k)} (l : list (Z * A)) :
  (forall x, (h x).1 = x.1) ->
  filter (fun y => P y.1) (h <$> l) = h <$> filter (fun x => P x.1) l.
Proof.
  intros Hh. induction l as [|x l IH]; [reflexivity|].
  rewrite fmap_cons, !filter_cons, Hh.
  destruct (decide (P x.1)); rewrite IH; reflexivity.
Qed.

Lemma stable_sort_by_digit_fmap {A B : Type} (h : Z * A -> Z * B)
    (radixShift : Z) (l : list (Z * A)) :
  (forall x, (h x).1 = x.1) ->
  stable_sort_by_digit radixShift (h <$> l)
  = h <$> stable_sort_by_digit radixShift l.
Proof.
  intros Hh. unfold stable_sort_by_digit.
  induction (seq 0 RADIX) as [|d ds IH]; [reflexivity|].
  cbn [fmap list_fmap concat]. rewrite fmap_app. f_equal; [|exact IH].
  pose proof (filter_fmap_key h (fun k => digit radixShift k = d) l Hh) as H.
  exact H.
Qed.

Lemma reference_sort_fmap {A B : Type} (h : Z * A -> Z * B)
    (l : list (Z * A)) :
  (forall x, (h x).1 = x.1) ->
  reference_sort (h <$> l) = h <$> reference_sort l.
Proof.
  intros Hh. unfold reference_sort.
  rewrite !stable_sort_by_digit_fmap by assumption. reflexivity.
Qed.

(** ** Sortedness by positions *)

Lemma StronglySorted_lookup {B : Type} (R : relation B) (l : list B) :
  StronglySorted R l <->
  (forall (i j : nat) (x y : B),
     (i < j)%nat -> l !! i = Some x -> l !! j = Some y -> R x y).
Proof.
  split.
  - induction 1 as [|x l Hl IH Hx]; intros i j a b Hij Hi Hj.
    + rewrite lookup_nil in Hi. discriminate.
    + destruct j as [|j]; [lia|]. cbn in Hj.
      destruct i as [|i]; cbn in Hi.
      * injection Hi as <-. rewrite Forall_forall in Hx. apply Hx.
        apply list_elem_of_lookup. eauto.
      * apply (IH i j); [lia|assumption..].
  - induction l as [|x l IH]; intros H; constructor.
    + apply IH. intros i j a b Hij Hi Hj. apply (H (S i) (S j)); [lia|assumption..].
    + apply Forall_forall. intros y Hy.
      apply list_elem_of_lookup in Hy as [j Hj].
      apply (H 0%nat (S j)); [lia|reflexivity|assumption].
Qed.

(** ** Tagging records with their input index *)

Section tagging.
Context {A : Type}.
Implicit Types l : list (Z * A).

Lemma lookup_tag l (i : nat) (t : Z * (A * nat)) :
  tag l !! i = Some t <->
  l !! i = Some (untag t) /\ index_of t = i.
Proof.
  unfold tag. rewrite list_lookup_imap.
  destruct t as [k [a n]]. unfold untag, index_of. cbn.
  destruct (l !! i) as [[k' a']|]; cbn; split.
  - intros [= -> -> ->]. split; reflexivity.
  - intros [[= -> ->] ->]. reflexivity.
  - discriminate.
  - intros [[=] _].
Qed.

Lemma elem_of_tag l (t : Z * (A * nat)) :
  t ∈ tag l <-> l !! index_of t = Some (untag t).
Proof.
  rewrite list_elem_of_lookup. split.
  - intros [i Hi]. apply lookup_tag in Hi as [Hi <-]. exact Hi.
  - intros H. exists (index_of t). apply lookup_tag. split; [exact H|reflexivity].
Qed.

Lemma untag_tag l : untag <$> tag l = l.
Proof.
  apply list_eq. intros i. rewrite list_lookup_fmap.
  destruct (tag l !! i) as [t|] eqn:Ht.
  - apply lookup_tag in Ht as [Ht _]. rewrite Ht. reflexivity.
  - cbn. symmetry. apply lookup_ge_None.
    apply lookup_ge_None in Ht. unfold tag in Ht.
    rewrite length_imap in Ht. exact Ht.
Qed.

Lemma index_of_tag l : index_of <$> tag l = seq 0 (length l).
Proof.
  apply list_eq. intros i. rewrite list_lookup_fmap.
  destruct (tag l !! i) as [t|] eqn:Ht.
  - pose proof (lookup_lt_Some _ _ _ Ht) as Hlt.
    unfold tag in Hlt. rewrite length_imap in Hlt.
    apply lookup_tag in Ht as [_ Ht].
    rewrite lookup_seq_lt by assumption. cbn. congruence.
  - apply lookup_ge_None in Ht. unfold tag in Ht.
    rewrite length_imap in Ht.
    rewrite lookup_seq_ge by assumption. reflexivity.
Qed.

Lemma tag_sorted l : StronglySorted (lsd_order 0) (tag l).
Proof.
  apply StronglySorted_lookup. intros i j x y Hij Hi Hj.
  apply lookup_tag in Hi as [_ Hi]. apply lookup_tag in Hj as [_ Hj].
  right. rewrite !low_bits_0. split; [reflexivity|lia].
Qed.

(** What the four passes achieve, on tagged records. *)
Lemma reference_sort_tagged l :
  untag <$> reference_sort (tag l) = reference_sort l
  /\ reference_sort (tag l) ≡ₚ tag l
  /\ StronglySorted (lsd_order 4) (reference_sort (tag l)).
Proof.
  split; [|split].
  - rewrite <- reference_sort_fmap by reflexivity.
    rewrite untag_tag. reflexivity.
  - apply reference_sort_perm.
  - unfold reference_sort.
    apply (stable_sort_by_digit_sorted 3).
    apply (stable_sort_by_digit_sorted 2).
    apply (stable_sort_by_digit_sorted 1).
    apply (stable_sort_by_digit_sorted 0).
    apply tag_sorted.
Qed.
End tagging.

(** ** The kernels on device memory *)

(** Adding up the local histograms of the first [tiles] slices counts the
    keys of those slices. *)
Lemma global_histogram_sum (partSize : nat) (keys : list Z)
    (hist : nat -> nat -> nat) (tiles pass d : nat) :
  foldl (fun h tile p d' =>
           (h p d'
            + local_histogram (slice partSize (length keys) tile keys) p d')%nat)
    hist (seq 0 tiles) pass d
  = (hist pass d
     + count_digit (shift_of_pass pass) d (take (tiles * partSize) keys))%nat.
Proof.
  induction tiles as [|t IH].
  - cbn [seq foldl Nat.mul]. rewrite take_0. unfold count_digit.
    rewrite filter_nil. cbn [length]. lia.
  - rewrite seq_S, foldl_app. cbn [foldl Nat.add]. rewrite IH.
    unfold local_histogram. rewrite slice_full.
    replace (S t * partSize)%nat with (t * partSize + partSize)%nat by lia.
    rewrite <- take_take_drop, count_digit_app. lia.
Qed.

Lemma pass_of_shift (pass : nat) :
  Z.to_nat (shift_of_pass pass / 8) = pass.
Proof.
  unfold shift_of_pass. rewrite Z.mul_comm, Z.div_mul by lia. lia.
Qed.

Lemma NoDup_four (a b c d : buffer) :
  NoDup [a; b; c; d] ->
  a <> b /\ a <> c /\ a <> d /\ b <> c /\ b <> d /\ c <> d.
Proof.
  rewrite !NoDup_cons, !not_elem_of_cons, !elem_of_nil.
  intuition congruence.
Qed.

(** One digit-binning dispatch on memory that is ready for pass [pass]:
    it completes, leaves the stable sort by the pass's digit of the source
    records in the destination arrays, and touches neither the sources, nor
    the seeds, nor the counters of other passes. *)
Lemma DigitBinningPass_sorts (partSize : nat)
    (srt alt srtP altP idx ph : buffer) (partitions pass : nat)
    (m : memory) (keys payload : list Z) :
  NoDup [srt; alt; srtP; altP] ->
  words m srt = keys -> words m srtP = payload ->
  length payload = length keys ->
  length (words m alt) = length keys ->
  length (words m altP) = length keys ->
  (length keys <= partitions * partSize)%nat ->
  tileIndex m idx pass = 0%nat ->
  (forall d, (d < RADIX)%nat ->
     seed (passHistogram m ph) pass d
     = exclusive_scan (fun d' => count_digit (shift_of_pass pass) d' keys) d) ->
  exists m',
    DigitBinningPass partSize srt alt srtP altP idx ph (length keys)
      partitions (shift_of_pass pass) m = Some m'
    /\ zip (words m' alt) (words m' altP)
       = stable_sort_by_digit (shift_of_pass pass) (zip keys payload)
    /\ length (words m' alt) = length keys
    /\ length (words m' altP) = length keys
    /\ words m' srt = keys /\ words m' srtP = payload
    /\ (forall p, p <> pass -> tileIndex m' idx p = tileIndex m idx p)
    /\ seed (passHistogram m' ph) = seed (passHistogram m ph).
Proof.
  intros Hnd Hk Hp Hlen Hak Hap Hcover Hidx Hseed.
  apply NoDup_four in Hnd as (H1 & H2 & H3 & H4 & H5 & H6).
  unfold DigitBinningPass. rewrite pass_of_shift, Hk, Hp.
  set (st0 := mkBinning _ _ _ _).
  destruct (binning_pass_scatters partSize (shift_of_pass pass)
              (seed (passHistogram m ph) pass) keys payload st0 partitions
              Hlen Hidx Hcover) as (st & -> & Hc & HoK & HoP).
  rewrite (binning_positions_stable _ _ _ Hseed) in HoK, HoP.
  eexists. split; [reflexivity|].
  cbn [words set_words set_passHistogram set_tileIndex tileIndex
       passHistogram seed].
  rewrite fn_lookup_insert.
  rewrite (fn_lookup_insert_ne _ altP alt) by congruence.
  rewrite fn_lookup_insert.
  rewrite !(fn_lookup_insert_ne _ _ srt) by congruence.
  rewrite !(fn_lookup_insert_ne _ _ srtP) by congruence.
  rewrite Hk, Hp, HoK, HoP, !length_scatter. cbn [outKeys outPayload st0].
  repeat split; try assumption.
  - set (l := zip keys payload).
    assert (Hl1 : l.*1 = keys) by (apply fst_zip; lia).
    assert (Hl2 : l.*2 = payload) by (apply snd_zip; lia).
    pose proof (scatter_stable_positions (shift_of_pass pass) l
                  (zip (words m alt) (words m altP))) as Hs.
    rewrite Hl1 in Hs.
    rewrite <- (zip_fst_snd (stable_sort_by_digit (shift_of_pass pass) l)).
    rewrite <- Hs by (unfold l; rewrite !length_zip; lia).
    rewrite !scatter_fmap, Hl1, Hl2.
    rewrite fst_zip, snd_zip by lia. reflexivity.
  - intros p Hne. rewrite fn_lookup_insert.
    apply fn_lookup_insert_ne. congruence.
  - rewrite fn_lookup_insert. reflexivity.
Qed.

Lemma before_pass_step (partSize : nat)
    (idx ph src srcP dst dstP : buffer) (partitions pass : nat)
    (keys payload : list Z) (sorted : list (Z * Z)) (m : memory) :
  NoDup [src; dst; srcP; dstP] ->
  length payload = length keys ->
  (length keys <= partitions * partSize)%nat ->
  (pass < 4)%nat ->
  before_pass idx ph src srcP dst dstP keys payload pass sorted m ->
  exists m',
    DigitBinningPass partSize src dst srcP dstP idx ph (length keys)
      partitions (shift_of_pass pass) m = Some m'
    /\ before_pass idx ph dst dstP src srcP keys payload (S pass)
         (stable_sort_by_digit (shift_of_pass pass) sorted) m'.
Proof.
  intros Hnd Hlen Hcover Hpass (Hz & Hs & HsP & Hd & HdP & Hperm & Hidx & Hseed).
  assert (Hkeys : words m src ≡ₚ keys).
  { rewrite <- (fst_zip (words m src) (words m srcP)) by lia.
    rewrite Hz, Hperm. rewrite fst_zip by lia. reflexivity. }
  destruct (DigitBinningPass_sorts partSize src dst srcP dstP idx ph
              partitions pass m (words m src) (words m srcP))
    as (m' & Hrun & Hz' & Hd' & HdP' & Hs' & HsP' & Hidx' & Hseed');
    try reflexivity; try lia; try assumption.
  - apply Hidx. lia.
  - intros d Hd0. rewrite Hseed by assumption.
    apply exclusive_scan_ext. intros d' _.
    apply count_digit_perm. symmetry. exact Hkeys.
  - rewrite Hs in Hrun. exists m'. split; [exact Hrun|].
    unfold before_pass. rewrite Hz', Hz, Hs', HsP', Hseed'.
    repeat split; try lia; try assumption.
    + rewrite stable_sort_by_digit_perm. exact Hperm.
    + intros p Hp. rewrite Hidx' by lia. apply Hidx. lia.
Qed.

Lemma NoDup_four_swap (a b c d : buffer) :
  NoDup [a; b; c; d] -> NoDup [b; a; d; c].
Proof.
  rewrite !NoDup_cons, !not_elem_of_cons, !elem_of_nil.
  intuition congruence.
Qed.

(** The three preparatory stages leave memory as pass 0 expects it. *)
Lemma prologue_before_pass (K : kernel_constants) (s : OneSweep)
    (keys payload : list Z) (m : memory) :
  ready K s keys payload m ->
  words m (m_sortBuffer s) = keys ->
  words m (m_sortPayloadBuffer s) = payload ->
  before_pass (m_indexBuffer s) (m_passHistBuffer s)
    (m_sortBuffer s) (m_sortPayloadBuffer s)
    (m_altBuffer s) (m_altPayloadBuffer s) keys payload 0
    (zip keys payload)
    (Scan (m_globalHistBuffer s) (m_passHistBuffer s)
       (Z.to_nat (k_radixPasses (base s)))
       (GlobalHist (G_HIST_PART_SIZE K) (m_sortBuffer s)
          (m_globalHistBuffer s) (Z.to_nat (m_numKeys s))
          (Z.to_nat (m_globalHistPartitions s))
          (InitSweep (m_globalHistBuffer s) (m_passHistBuffer s)
             (m_indexBuffer s) m))).
Proof.
  intros (Hnd & Hn & Hlen & Ha & HaP & Hcover & Hgcover & Hpasses) Hk Hp.
  unfold before_pass, Scan, GlobalHist, InitSweep.
  cbn [words tileIndex passHistogram globalHistogram seed published
       set_words set_tileIndex set_passHistogram set_globalHistogram].
  rewrite Hk, Hp, Hn, Nat2Z.id, Hpasses.
  rewrite !fn_lookup_insert.
  repeat split; try assumption; try reflexivity.
  intros p d Hp4 Hd. cbn [seed].
  rewrite decide_True by (change (Z.to_nat 4) with 4%nat; lia).
  rewrite decide_True by (change (Z.to_nat 4) with 4%nat; lia).
  apply exclusive_scan_ext. intros d' _.
  rewrite global_histogram_sum. rewrite take_ge by lia. reflexivity.
Qed.

(** Running the commands of one call on ready memory: every prefix up to
    a pass completes, and memory is as the next pass expects it. *)
Lemma run_passes (K : kernel_constants) (s : OneSweep)
    (keys payload : list Z) (m : memory) :
  ready K s keys payload m ->
  words m (m_sortBuffer s) = keys ->
  words m (m_sortPayloadBuffer s) = payload ->
  let idx := m_indexBuffer s in
  let ph := m_passHistBuffer s in
  let srt := m_sortBuffer s in
  let srtP := m_sortPayloadBuffer s in
  let alt := m_altBuffer s in
  let altP := m_altPayloadBuffer s in
  let r0 := zip keys payload in
  let r1 := stable_sort_by_digit 0 r0 in
  let r2 := stable_sort_by_digit 8 r1 in
  let r3 := stable_sort_by_digit 16 r2 in
  let r4 := stable_sort_by_digit 24 r3 in
  exists m0 m1 m2 m3 m4 : memory,
    (memory_before_pass K s 0 m = Some m0
     /\ memory_before_pass K s 1 m = Some m1
     /\ memory_before_pass K s 2 m = Some m2
     /\ memory_before_pass K s 3 m = Some m3
     /\ run K (emitted s) m = Some m4)
    /\ (memory_after_pass K s 0 m = Some m1
        /\ memory_after_pass K s 1 m = Some m2
        /\ memory_after_pass K s 2 m = Some m3
        /\ memory_after_pass K s 3 m = Some m4)
    /\ before_pass idx ph srt srtP alt altP keys payload 0 r0 m0
    /\ before_pass idx ph alt altP srt srtP keys payload 1 r1 m1
    /\ before_pass idx ph srt srtP alt altP keys payload 2 r2 m2
    /\ before_pass idx ph alt altP srt srtP keys payload 3 r3 m3
    /\ before_pass idx ph srt srtP alt altP keys payload 4 r4 m4.
Proof.
  intros Hready Hk Hp. cbv zeta.
  pose proof (prologue_before_pass K s keys payload m Hready Hk Hp) as H0.
  destruct Hready as (Hnd & Hn & Hlen & _ & _ & Hcover & _ & _).
  pose proof (NoDup_four_swap _ _ _ _ Hnd) as Hnd'.
  unfold memory_before_pass, memory_after_pass.
  rewrite emitted_eq. unfold expected_cmds, binningDispatch, binningBarriers.
  cbn [app run exec take Nat.add Nat.mul]. rewrite Hn, Nat2Z.id in *.
  set (parts := Z.to_nat (m_partitions s)) in *.
  destruct (before_pass_step (PART_SIZE K) _ _ _ _ _ _ parts 0 keys payload
              _ _ Hnd Hlen Hcover ltac:(lia) H0) as (m1 & Hr1 & H1).
  change (shift_of_pass 0) with 0 in Hr1, H1. rewrite Hr1.
  destruct (before_pass_step (PART_SIZE K) _ _ _ _ _ _ parts 1 keys payload
              _ _ Hnd' Hlen Hcover ltac:(lia) H1) as (m2 & Hr2 & H2).
  change (shift_of_pass 1) with 8 in Hr2, H2. rewrite Hr2.
  destruct (before_pass_step (PART_SIZE K) _ _ _ _ _ _ parts 2 keys payload
              _ _ Hnd Hlen Hcover ltac:(lia) H2) as (m3 & Hr3 & H3).
  change (shift_of_pass 2) with 16 in Hr3, H3. rewrite Hr3.
  destruct (before_pass_step (PART_SIZE K) _ _ _ _ _ _ parts 3 keys payload
              _ _ Hnd' Hlen Hcover ltac:(lia) H3) as (m4 & Hr4 & H4).
  change (shift_of_pass 3) with 24 in Hr4, H4. rewrite Hr4.
  eexists _, m1, m2, m3, m4.
  split; [repeat split; reflexivity|].
  split; [repeat split; reflexivity|].
  split; [exact H0|]. split; [exact H1|]. split; [exact H2|].
  split; [exact H3|exact H4].
Qed.

(** Running the commands of one call on ready memory completes and leaves
    the four-pass sort of the loaded records in the sort and payload
    buffers. *)
Lemma run_emitted (K : kernel_constants) (s : OneSweep)
    (keys payload : list Z) (m : memory) :
  ready K s keys payload m ->
  words m (m_sortBuffer s) = keys ->
  words m (m_sortPayloadBuffer s) = payload ->
  exists m',
    run K (emitted s) m = Some m'
    /\ zip (words m' (m_sortBuffer s)) (words m' (m_sortPayloadBuffer s))
       = reference_sort (zip keys payload)
    /\ length (words m' (m_sortBuffer s)) = length keys
    /\ length (words m' (m_sortPayloadBuffer s)) = length keys.
Proof.
  intros Hready Hk Hp.
  destruct (run_passes K s keys payload m Hready Hk Hp)
    as (m0 & m1 & m2 & m3 & m4 & (_ & _ & _ & _ & Hrun) & _
        & _ & _ & _ & _ & (Hz & Hs & HsP & _)).
  exists m4. repeat split; assumption.
Qed.

(** ** The key transform *)

Lemma testbit_31_small (k : Z) : 0 <= k < 2 ^ 31 -> Z.testbit k 31 = false.
Proof.
  intros H. destruct (decide (k = 0)) as [->|Hne]; [reflexivity|].
  apply Z.bits_above_log2; [lia|].
  apply Z.log2_lt_pow2; lia.
Qed.

Lemma lxor_sign_small (k : Z) :
  0 <= k < 2 ^ 31 -> Z.lxor k SIGN_BIT = k + 2 ^ 31.
Proof.
  intros H. unfold SIGN_BIT. symmetry. apply Z.add_nocarry_lxor.
  apply Z.bits_inj'. intros n Hn.
  rewrite Z.land_spec, Z.bits_0, Z.pow2_bits_eqb by lia.
  destruct (Z.eqb_spec 31 n) as [<-|Hne].
  - rewrite testbit_31_small by assumption. reflexivity.
  - apply andb_false_r.
Qed.

Lemma lxor_sign_large (k : Z) :
  2 ^ 31 <= k < 2 ^ 32 -> Z.lxor k SIGN_BIT = k - 2 ^ 31.
Proof.
  intros H.
  assert (Hk : k = Z.lxor (k - 2 ^ 31) SIGN_BIT).
  { rewrite lxor_sign_small by lia. lia. }
  rewrite Hk at 1.
  rewrite Z.lxor_assoc, Z.lxor_nilpotent, Z.lxor_0_r. reflexivity.
Qed.

Lemma testbit_31_large (k : Z) :
  2 ^ 31 <= k < 2 ^ 32 -> Z.testbit k 31 = true.
Proof.
  intros H.
  assert (Hk : k = Z.lxor (k - 2 ^ 31) SIGN_BIT).
  { rewrite lxor_sign_small by lia. lia. }
  rewrite Hk, Z.lxor_spec, testbit_31_small by lia.
  unfold SIGN_BIT. rewrite Z.pow2_bits_true by lia. reflexivity.
Qed.

Lemma lxor_all_bits (k : Z) : is_word k -> Z.lxor k ALL_BITS = 2 ^ 32 - 1 - k.
Proof.
  intros H. unfold is_word in H.
  assert (Hhigh : forall n, 32 <= n -> Z.testbit k n = false).
  { intros n Hn. destruct (decide (k = 0)) as [->|Hne]; [apply Z.bits_0|].
    apply Z.bits_above_log2; [lia|].
    apply Z.lt_le_trans with 32; [|assumption].
    apply Z.log2_lt_pow2; lia. }
  change ALL_BITS with (Z.ones 32).
  transitivity (Z.ldiff (Z.ones 32) k).
  - apply Z.bits_inj'. intros n Hn.
    rewrite Z.lxor_spec, Z.ldiff_spec.
    destruct (decide (n < 32)) as [Hlt|Hge].
    + rewrite Z.ones_spec_low by lia. apply xorb_true_r.
    + rewrite Z.ones_spec_high, Hhigh by lia. reflexivity.
  - change (2 ^ 32 - 1) with (Z.ones 32).
    symmetry. apply Z.sub_nocarry_ldiff.
    apply Z.bits_inj'. intros n Hn.
    rewrite Z.ldiff_spec, Z.bits_0.
    destruct (decide (n < 32)) as [Hlt|Hge].
    + rewrite Z.ones_spec_low by lia. apply andb_false_r.
    + rewrite Hhigh by lia. reflexivity.
Qed.

(** A word either has its sign bit clear or set; flipping the bit adds or
    subtracts [2^31]. *)
Lemma word_cases (k : Z) :
  is_word k ->
  (0 <= k < 2 ^ 31 /\ Z.testbit k 31 = false
   /\ Z.lxor k SIGN_BIT = k + 2 ^ 31)
  \/ (2 ^ 31 <= k < 2 ^ 32 /\ Z.testbit k 31 = true
      /\ Z.lxor k SIGN_BIT = k - 2 ^ 31).
Proof.
  intros H. unfold is_word in H.
  destruct (decide (k < 2 ^ 31)).
  - left. split; [lia|].
    split; [apply testbit_31_small|apply lxor_sign_small]; lia.
  - right. split; [lia|].
    split; [apply testbit_31_large|apply lxor_sign_large]; lia.
Qed.

Lemma to_ordered_value (keyType : KEY_TYPE) (k : Z) :
  is_word k ->
  to_ordered keyType k = key_value keyType k + value_offset keyType.
Proof.
  intros H. pose proof (lxor_all_bits k H) as Hall.
  destruct (word_cases k H) as [(Hr & Hb & Hx)|(Hr & Hb & Hx)];
    destruct keyType; unfold to_ordered, key_value, value_offset;
    rewrite ?Hb, ?Hx, ?Hall; unfold SIGN_BIT; lia.
Qed.

Lemma key_value_bound (keyType : KEY_TYPE) (k : Z) :
  is_word k -> is_word (key_value keyType k + value_offset keyType).
Proof.
  intros H.
  destruct (word_cases k H) as [(Hr & Hb & Hx)|(Hr & Hb & Hx)];
    destruct keyType; unfold key_value, value_offset, SIGN_BIT, is_word;
    rewrite ?Hb; lia.
Qed.

Lemma to_ordered_word (keyType : KEY_TYPE) (k : Z) :
  is_word k -> is_word (to_ordered keyType k).
Proof.
  intros H. rewrite to_ordered_value by assumption.
  apply key_value_bound. assumption.
Qed.

Lemma from_ordered_word (keyType : KEY_TYPE) (u : Z) :
  is_word u -> is_word (from_ordered keyType u).
Proof.
  intros H. pose proof (lxor_all_bits u H) as Hall.
  destruct (word_cases u H) as [(Hr & Hb & Hx)|(Hr & Hb & Hx)];
    destruct keyType; unfold from_ordered, is_word in *;
    rewrite ?Hb, ?Hx, ?Hall; lia.
Qed.

Lemma from_to_ordered (keyType : KEY_TYPE) (k : Z) :
  is_word k -> from_ordered keyType (to_ordered keyType k) = k.
Proof.
  intros H. pose proof (lxor_all_bits k H) as Hall.
  destruct keyType; unfold from_ordered, to_ordered.
  - reflexivity.
  - rewrite Z.lxor_assoc, Z.lxor_nilpotent. apply Z.lxor_0_r.
  - destruct (word_cases k H) as [(Hr & Hb & Hx)|(Hr & Hb & Hx)];
      rewrite Hb.
    + rewrite Hx, testbit_31_large by lia.
      rewrite <- Hx, Z.lxor_assoc, Z.lxor_nilpotent. apply Z.lxor_0_r.
    + rewrite Hall, testbit_31_small by lia.
      rewrite <- Hall, Z.lxor_assoc, Z.lxor_nilpotent. apply Z.lxor_0_r.
Qed.

Lemma to_from_ordered (keyType : KEY_TYPE) (u : Z) :
  is_word u -> to_ordered keyType (from_ordered keyType u) = u.
Proof.
  intros H. pose proof (lxor_all_bits u H) as Hall.
  destruct keyType; unfold from_ordered, to_ordered.
  - reflexivity.
  - rewrite Z.lxor_assoc, Z.lxor_nilpotent. apply Z.lxor_0_r.
  - destruct (word_cases u H) as [(Hr & Hb & Hx)|(Hr & Hb & Hx)];
      rewrite Hb.
    + rewrite Hall, testbit_31_large by lia.
      rewrite <- Hall, Z.lxor_assoc, Z.lxor_nilpotent. apply Z.lxor_0_r.
    + rewrite Hx, testbit_31_small by lia.
      rewrite <- Hx, Z.lxor_assoc, Z.lxor_nilpotent. apply Z.lxor_0_r.
Qed.

Lemma key_transform_word (order : ORDER) (keyType : KEY_TYPE) (k : Z) :
  is_word k -> is_word (key_transform order keyType k).
Proof.
  intros H. pose proof (to_ordered_word keyType k H) as Hw.
  destruct order; unfold key_transform; [exact Hw|].
  rewrite lxor_all_bits by assumption. unfold is_word in *. lia.
Qed.

Lemma key_untransform_word (order : ORDER) (keyType : KEY_TYPE) (u : Z) :
  is_word u -> is_word (key_untransform order keyType u).
Proof.
  intros H. destruct order; unfold key_untransform;
    apply from_ordered_word; [exact H|].
  rewrite lxor_all_bits by assumption. unfold is_word in *. lia.
Qed.

Lemma key_untransform_transform (order : ORDER) (keyType : KEY_TYPE)
    (k : Z) :
  is_word k ->
  key_untransform order keyType (key_transform order keyType k) = k.
Proof.
  intros H. destruct order; unfold key_untransform, key_transform.
  - apply from_to_ordered. assumption.
  - rewrite Z.lxor_assoc, Z.lxor_nilpotent, Z.lxor_0_r.
    apply from_to_ordered. assumption.
Qed.

Lemma key_transform_untransform (order : ORDER) (keyType : KEY_TYPE)
    (u : Z) :
  is_word u ->
  key_transform order keyType (key_untransform order keyType u) = u.
Proof.
  intros H. destruct order; unfold key_untransform, key_transform.
  - apply to_from_ordered. assumption.
  - rewrite to_from_ordered.
    + rewrite Z.lxor_assoc, Z.lxor_nilpotent. apply Z.lxor_0_r.
    + rewrite lxor_all_bits by assumption. unfold is_word in *. lia.
Qed.

(** The unsigned order of the images is the requested order of the keys. *)
Lemma key_transform_le (order : ORDER) (keyType : KEY_TYPE) (a b : Z) :
  is_word a -> is_word b ->
  (key_transform order keyType a <= key_transform order keyType b
   <-> key_le order keyType a b).
Proof.
  intros Ha Hb.
  pose proof (to_ordered_word keyType a Ha) as Hwa.
  pose proof (to_ordered_word keyType b Hb) as Hwb.
  destruct order; unfold key_transform, key_le.
  - rewrite !to_ordered_value by assumption. lia.
  - rewrite !lxor_all_bits by assumption.
    rewrite !to_ordered_value by assumption. lia.
Qed.

(** ** The key-to-slot mapping of a pass *)

Lemma stable_positions_perm (radixShift : Z) (keys : list Z) :
  stable_positions radixShift keys ≡ₚ seq 0 (length keys).
Proof.
  apply submseteq_length_Permutation.
  - apply NoDup_submseteq; [apply NoDup_stable_positions|].
    intros p Hp. apply list_elem_of_lookup in Hp as [i Hi].
    apply lookup_stable_positions in Hi as (key & Hkey & ->).
    apply elem_of_seq. apply (stable_position_bound radixShift) in Hkey. lia.
  - rewrite length_seq, length_stable_positions. lia.
Qed.

(** ** What the four passes achieve, by positions *)

Lemma reference_sort_stable {A : Type} (l : list (Z * A)) :
  exists sigma : list nat,
    sigma ≡ₚ seq 0 (length l)
    /\ (forall p i, sigma !! p = Some i -> reference_sort l !! p = l !! i)
    /\ (forall p q i j x y,
          (p < q)%nat -> sigma !! p = Some i -> sigma !! q = Some j ->
          l !! i = Some x -> l !! j = Some y ->
          low_bits 4 x.1 < low_bits 4 y.1
          \/ (low_bits 4 x.1 = low_bits 4 y.1 /\ (i < j)%nat)).
Proof.
  destruct (reference_sort_tagged l) as (Huntag & Hperm & Hsorted).
  exists (index_of <$> reference_sort (tag l)).
  assert (Hin : forall p t, reference_sort (tag l) !! p = Some t ->
                  l !! index_of t = Some (untag t)).
  { intros p t Hp. apply elem_of_tag. rewrite <- Hperm.
    apply list_elem_of_lookup. eauto. }
  split; [|split].
  - rewrite Hperm. rewrite index_of_tag. reflexivity.
  - intros p i Hp. apply list_lookup_fmap_Some in Hp as (t & -> & Ht).
    rewrite <- Huntag, list_lookup_fmap, Ht. cbn.
    symmetry. apply (Hin p). exact Ht.
  - intros p q i j x y Hpq Hp Hq Hx Hy.
    apply list_lookup_fmap_Some in Hp as (tp & -> & Htp).
    apply list_lookup_fmap_Some in Hq as (tq & -> & Htq).
    pose proof (Hin p tp Htp) as Hxp. pose proof (Hin q tq Htq) as Hyq.
    rewrite Hx in Hxp. rewrite Hy in Hyq.
    injection Hxp as ->. injection Hyq as ->.
    apply (proj1 (StronglySorted_lookup _ _) Hsorted p q tp tq Hpq Htp Htq).
Qed.

(** ** The sort as a whole *)

Lemma ready_load (K : kernel_constants) (s : OneSweep)
    (keys payload : list Z) (m : memory) :
  ready K s keys payload m ->
  let keys' := key_transform (k_sortingOrder (base s)) (k_keyType (base s))
                 <$> keys in
  ready K s keys' payload (load s keys payload m)
  /\ words (load s keys payload m) (m_sortBuffer s) = keys'
  /\ words (load s keys payload m) (m_sortPayloadBuffer s) = payload.
Proof.
  intros (Hnd & Hn & Hlen & Ha & HaP & Hcover & Hgcover & Hpasses). cbv zeta.
  pose proof (NoDup_four _ _ _ _ Hnd) as (H1 & H2 & H3 & H4 & H5 & H6).
  unfold ready, load. cbn [words set_words].
  rewrite !length_fmap.
  rewrite !(fn_lookup_insert_ne _ _ (m_altBuffer s)) by congruence.
  rewrite !(fn_lookup_insert_ne _ _ (m_altPayloadBuffer s)) by congruence.
  rewrite (fn_lookup_insert_ne _ _ (m_sortBuffer s)) by congruence.
  rewrite !fn_lookup_insert.
  repeat split; assumption.
Qed.

(** The sort computes the four-pass reference sort of the transformed
    keys with their payloads, read back through the inverse transform. *)
Lemma Sort_eq (K : kernel_constants) (s : OneSweep)
    (keys payload : list Z) (m : memory) :
  ready K s keys payload m ->
  let order := k_sortingOrder (base s) in
  let keyType := k_keyType (base s) in
  let sorted :=
    reference_sort (zip (key_transform order keyType <$> keys) payload) in
  Sort K s keys payload m
  = Some (key_untransform order keyType <$> sorted.*1, sorted.*2).
Proof.
  intros Hready. cbv zeta.
  destruct (ready_load K s keys payload m Hready) as (Hready' & Hk & Hp).
  destruct (run_emitted K s _ payload _ Hready' Hk Hp)
    as (m' & Hrun & Hz & Hs & HsP).
  unfold Sort. rewrite Hrun, PrepareSortCmdList_eq.
  cbn [m_sortBuffer m_sortPayloadBuffer].
  rewrite <- Hz. rewrite fst_zip, snd_zip by lia. reflexivity.
Qed.

Lemma zip_fmap_fst {A B C : Type} (f : A -> C) (l : list (A * B)) :
  zip (f <$> l.*1) (l.*2) = (fun x => (f x.1, x.2)) <$> l.
Proof.
  induction l as [|x l IH]; [reflexivity|].
  cbn. rewrite <- IH. reflexivity.
Qed.


(** * The concurrent device *)

(** ** Phases run one at a time *)

Lemma commands_of_cons (c : command) (bs : list buffer)
    (phases : list phase) :
  commands_of ((c, bs) :: phases)
  = c :: (UAVBarrier <$> bs) ++ commands_of phases.
Proof. reflexivity. Qed.

Lemma commands_of_drop (phases : list phase) (j : nat) (c : command)
    (bs : list buffer) :
  phases !! j = Some (c, bs) ->
  commands_of (drop j phases)
  = c :: (UAVBarrier <$> bs) ++ commands_of (drop (S j) phases).
Proof.
  intros Hj. rewrite (drop_S _ _ _ Hj). apply commands_of_cons.
Qed.

Lemma finished_single (c : command) (wgs : list workgroup) :
  finished (c, wgs) = forallb complete wgs.
Proof. reflexivity. Qed.

(** A list of phases each of which starts with a dispatch and goes on with
    a barrier on a buffer the dispatch accesses is run one phase at a
    time: the first barrier lets nothing pass before the dispatch has
    finished.  With [quiet] established by the phase before, kept by the
    steps of the work-groups as [running], and turned into the next
    [quiet] when the work-groups have finished, [serial_inv] holds of every
    state the device reaches, whatever the scheduler picks. *)
Section serial.
Context (K : kernel_constants) (phases : list phase).
Context (quiet : nat -> memory -> Prop).
Context (running : nat -> list workgroup -> memory -> Prop).

Hypothesis phases_guarded :
  forall (j : nat) (c : command) (bs : list buffer),
    phases !! j = Some (c, bs) ->
    stage_of c <> None
    /\ exists (b : buffer) (bs' : list buffer), bs = b :: bs' /\ b ∈ accessed c.

Hypothesis running_init :
  forall (j : nat) (c : command) (bs : list buffer) (m : memory),
    phases !! j = Some (c, bs) -> quiet j m -> running j (spawn c) m.

Hypothesis running_step :
  forall (j : nat) (c : command) (bs : list buffer) (wgs : list workgroup)
    (m : memory) (w d : nat) (wg wg' : workgroup) (m' : memory),
    phases !! j = Some (c, bs) -> running j wgs m ->
    wgs !! w = Some wg ->
    workgroup_step K c w d wg m = Some (wg', m') ->
    running j (<[w := wg']> wgs) m'.

Hypothesis running_exit :
  forall (j : nat) (c : command) (bs : list buffer) (wgs : list workgroup)
    (m : memory),
    phases !! j = Some (c, bs) -> running j wgs m ->
    forallb complete wgs = true -> quiet (S j) m.

(** Every pick of the scheduler keeps the invariant. *)
Lemma serial_inv_step (ch : choice) (g : gpu) :
  serial_inv phases quiet running g ->
  serial_inv phases quiet running (gpu_step K ch g).
Proof.
  intros (j & bs & Hj & [(Hfl & Hp & Hq) | (c & wgs & Hc & Hfl & Hp & Hr)]).
  - (* between phases *)
    destruct ch as [|i w d]; cbn [gpu_step].
    + rewrite Hp. destruct bs as [|b bs]; cbn [fmap list_fmap app].
      * destruct (phases !! j) as [[c bs]|] eqn:Hc.
        -- rewrite (commands_of_drop _ _ _ _ Hc).
           destruct (phases_guarded _ _ _ Hc) as [Hd _].
           assert (Hgo : gpu_step K Issue g
                         = mkGpu ((UAVBarrier <$> bs)
                                  ++ commands_of (drop (S j) phases))
                             [(c, spawn c)] (mem g)).
           { cbn [gpu_step]. rewrite Hp. cbn [fmap list_fmap app].
             rewrite (commands_of_drop _ _ _ _ Hc), Hfl.
             destruct c; try reflexivity. contradiction Hd. reflexivity. }
           cbn [gpu_step] in Hgo. rewrite Hp in Hgo.
           cbn [fmap list_fmap app] in Hgo.
           rewrite (commands_of_drop _ _ _ _ Hc) in Hgo. rewrite Hgo.
           exists j, bs. split; [exact Hj|]. right. exists c, (spawn c).
           cbn. repeat split; try assumption; try reflexivity.
           eapply running_init; eassumption.
        -- apply lookup_ge_None in Hc.
           rewrite (drop_ge _ _ Hc) in Hp |- *. cbn.
           exists j, []. split; [exact Hj|]. left.
           rewrite (drop_ge _ _ Hc). repeat split; assumption.
      * rewrite Hfl. cbn. exists j, bs. split; [exact Hj|]. left.
        repeat split; assumption.
    + rewrite Hfl. cbn. exists j, bs. split; [exact Hj|]. left.
      repeat split; assumption.
  - (* a phase in flight *)
    destruct (phases_guarded _ _ _ Hc) as (Hd & b & bs' & -> & Hb).
    assert (Hj' : (S j <= length phases)%nat)
      by (apply lookup_lt_Some in Hc; lia).
    destruct ch as [|i w d]; cbn [gpu_step].
    + rewrite Hp, Hfl. cbn [fmap list_fmap app].
      unfold barrier_open. cbn [forallb fst].
      rewrite bool_decide_eq_false_2 by (intros Hn; apply Hn, Hb).
      cbn [orb andb]. rewrite finished_single.
      destruct (forallb complete wgs) eqn:Hdone.
      * cbn [filter]. rewrite filter_cons_False, filter_nil
          by (rewrite finished_single, Hdone; discriminate).
        exists (S j), bs'. split; [exact Hj'|]. left. cbn.
        repeat split; try reflexivity.
        eapply running_exit; eassumption.
      * exists j, (b :: bs'). split; [exact Hj|]. right. exists c, wgs.
        repeat split; assumption.
    + rewrite Hfl. destruct i as [|i]; cbn [lookup list_lookup].
      * destruct (wgs !! w) as [wg|] eqn:Hw.
        -- destruct (workgroup_step K c w d wg (mem g)) as [[wg' m']|] eqn:Hs.
           ++ exists j, (b :: bs'). split; [exact Hj|]. right.
              exists c, (<[w := wg']> wgs). cbn.
              repeat split; try assumption; try reflexivity.
              eapply running_step; eassumption.
           ++ exists j, (b :: bs'). split; [exact Hj|]. right.
              exists c, wgs. repeat split; assumption.
        -- exists j, (b :: bs'). split; [exact Hj|]. right.
           exists c, wgs. repeat split; assumption.
      * exists j, (b :: bs'). split; [exact Hj|]. right.
        exists c, wgs. repeat split; assumption.
Qed.

Lemma serial_inv_run (schedule : list choice) (g : gpu) :
  serial_inv phases quiet running g ->
  serial_inv phases quiet running (gpu_run K schedule g).
Proof.
  revert g. induction schedule as [|ch schedule IH]; intros g Hg.
  - exact Hg.
  - cbn. apply IH, serial_inv_step, Hg.
Qed.

(** An idle device has run all phases. *)
Lemma serial_inv_idle (g : gpu) :
  serial_inv phases quiet running g -> gpu_idle g = true ->
  quiet (length phases) (mem g).
Proof.
  intros (j & bs & Hj & [(Hfl & Hp & Hq) | (c & wgs & Hc & Hfl & Hp & Hr)])
    Hidle.
  - apply andb_prop in Hidle as [Hnil _].
    apply bool_decide_eq_true_1 in Hnil. rewrite Hnil in Hp.
    symmetry in Hp. apply app_eq_nil in Hp as [_ Hp].
    destruct (phases !! j) as [[c bs0]|] eqn:Hc.
    + rewrite (commands_of_drop _ _ _ _ Hc) in Hp. discriminate Hp.
    + apply lookup_ge_None in Hc.
      replace (length phases) with j by lia. exact Hq.
  - apply andb_prop in Hidle as [Hnil _].
    apply bool_decide_eq_true_1 in Hnil. rewrite Hnil in Hp.
    destruct (phases_guarded _ _ _ Hc) as (_ & b & bs' & -> & _).
    discriminate Hp.
Qed.

End serial.

(** ** Work left decreases *)

Lemma complete_stuck (K : kernel_constants) (c : command) (w d : nat)
    (wg : workgroup) (m : memory) :
  complete wg = true -> workgroup_step K c w d wg m = None.
Proof.
  intros Hwg. destruct wg; try discriminate Hwg; destruct c; reflexivity.
Qed.

Lemma forallb_lookup {A : Type} (f : A -> bool) (l : list A) (i : nat)
    (x : A) :
  forallb f l = true -> l !! i = Some x -> f x = true.
Proof.
  revert i. induction l as [|y l IH]; intros i Hall Hi; [discriminate Hi|].
  cbn in Hall. apply andb_prop in Hall as [Hy Hl].
  destruct i as [|i]; [injection Hi as <-; exact Hy|].
  exact (IH i Hl Hi).
Qed.

(** Nothing moves on an idle device. *)
Lemma gpu_idle_stuck (K : kernel_constants) (ch : choice) (g : gpu) :
  gpu_idle g = true -> gpu_step K ch g = g.
Proof.
  intros Hidle. apply andb_prop in Hidle as [Hnil Hfin].
  apply bool_decide_eq_true_1 in Hnil.
  destruct ch as [|i w d]; cbn [gpu_step].
  - rewrite Hnil. reflexivity.
  - destruct (in_flight g !! i) as [[c wgs]|] eqn:Hi; [|reflexivity].
    destruct (wgs !! w) as [wg|] eqn:Hw; [|reflexivity].
    rewrite complete_stuck; [reflexivity|].
    pose proof (forallb_lookup _ _ _ _ Hfin Hi) as Hc.
    exact (forallb_lookup _ _ _ _ Hc Hw).
Qed.

Lemma gpu_run_app (K : kernel_constants) (l1 l2 : list choice) (g : gpu) :
  gpu_run K (l1 ++ l2) g = gpu_run K l2 (gpu_run K l1 g).
Proof. apply foldl_app. Qed.

Lemma gpu_idle_run (K : kernel_constants) (schedule : list choice)
    (g : gpu) :
  gpu_idle g = true -> gpu_run K schedule g = g.
Proof.
  intros Hidle. induction schedule as [|ch schedule IH]; [reflexivity|].
  cbn. rewrite (gpu_idle_stuck K ch g Hidle). exact IH.
Qed.

Section serial_work.
Context (K : kernel_constants) (phases : list phase).
Context (quiet : nat -> memory -> Prop).
Context (running : nat -> list workgroup -> memory -> Prop).
Context (width : nat).

Hypothesis phases_guarded :
  forall (j : nat) (c : command) (bs : list buffer),
    phases !! j = Some (c, bs) ->
    stage_of c <> None
    /\ exists (b : buffer) (bs' : list buffer), bs = b :: bs' /\ b ∈ accessed c.

Hypothesis running_progress :
  forall (j : nat) (c : command) (bs : list buffer) (wgs : list workgroup)
    (m : memory),
    phases !! j = Some (c, bs) -> running j wgs m ->
    forallb complete wgs = false ->
    exists (w d : nat) (wg : workgroup),
      (w < width)%nat /\ (d < RADIX)%nat /\ wgs !! w = Some wg
      /\ is_Some (workgroup_step K c w d wg m).

Hypothesis running_decrease :
  forall (j : nat) (c : command) (bs : list buffer) (wgs : list workgroup)
    (m : memory) (w d : nat) (wg wg' : workgroup) (m' : memory),
    phases !! j = Some (c, bs) -> running j wgs m ->
    wgs !! w = Some wg ->
    workgroup_step K c w d wg m = Some (wg', m') ->
    (dispatch_work (<[w := wg']> wgs) < dispatch_work wgs)%nat.

(** A step changes nothing or leaves less work. *)
Lemma gpu_step_work (ch : choice) (g : gpu) :
  serial_inv phases quiet running g ->
  gpu_step K ch g = g \/ (gpu_work (gpu_step K ch g) < gpu_work g)%nat.
Proof.
  intros (j & bs & Hj & [(Hfl & Hp & Hq) | (c & wgs & Hc & Hfl & Hp & Hr)]).
  - destruct ch as [|i w d]; cbn [gpu_step].
    + destruct (pending g) as [|c rest] eqn:Hpend; [left; reflexivity|].
      right. unfold gpu_work. rewrite Hpend, Hfl.
      destruct c; cbn [barrier_open forallb filter in_flight pending mem];
        rewrite ?filter_nil; cbn [app sum_list_with snd]; lia.
    + rewrite Hfl. left. reflexivity.
  - destruct (phases_guarded _ _ _ Hc) as (Hd & b & bs' & -> & Hb).
    destruct ch as [|i w d]; cbn [gpu_step].
    + rewrite Hp, Hfl. cbn [fmap list_fmap app].
      unfold barrier_open. cbn [forallb fst].
      rewrite bool_decide_eq_false_2 by (intros Hn; apply Hn, Hb).
      cbn [orb andb]. rewrite finished_single.
      destruct (forallb complete wgs) eqn:Hdone; [|left; reflexivity].
      right. cbn [andb]. rewrite filter_cons_False, filter_nil
        by (rewrite finished_single, Hdone; discriminate).
      unfold gpu_work. rewrite Hp, Hfl.
      cbn [fmap list_fmap app sum_list_with in_flight pending mem snd]. lia.
    + rewrite Hfl. destruct i as [|i]; cbn [lookup list_lookup];
        [|left; reflexivity].
      destruct (wgs !! w) as [wg|] eqn:Hw; [|left; reflexivity].
      destruct (workgroup_step K c w d wg (mem g)) as [[wg' m']|] eqn:Hs;
        [|left; reflexivity].
      right. unfold gpu_work. rewrite Hfl.
      cbn [sum_list_with in_flight pending mem insert list_insert snd].
      pose proof (running_decrease _ _ _ _ _ _ _ _ _ _ Hc Hr Hw Hs). lia.
Qed.

Lemma gpu_run_work (schedule : list choice) (g : gpu) :
  serial_inv phases quiet running g ->
  (forall ch g', serial_inv phases quiet running g' ->
                 serial_inv phases quiet running (gpu_step K ch g')) ->
  (gpu_work (gpu_run K schedule g) <= gpu_work g)%nat.
Proof.
  intros Hg Hstep. revert g Hg.
  induction schedule as [|ch schedule IH]; intros g Hg; [reflexivity|].
  cbn. etransitivity; [apply IH, Hstep, Hg|].
  destruct (gpu_step_work ch g Hg) as [-> | Hlt]; lia.
Qed.

(** When the device is not idle, some pick of a fair round leaves less
    work. *)
Lemma gpu_progress (g : gpu) :
  serial_inv phases quiet running g -> gpu_idle g = false ->
  exists ch : choice,
    (ch = Issue
     \/ exists w d : nat, (w < width)%nat /\ (d < RADIX)%nat
                          /\ ch = Step 0 w d)
    /\ (gpu_work (gpu_step K ch g) < gpu_work g)%nat.
Proof.
  intros Hg Hidle.
  destruct Hg as (j & bs & Hj & [(Hfl & Hp & Hq)
                                | (c & wgs & Hc & Hfl & Hp & Hr)]).
  - exists Issue. split; [left; reflexivity|]. cbn [gpu_step].
    destruct (pending g) as [|c rest] eqn:Hpend.
    + unfold gpu_idle in Hidle. rewrite Hpend, Hfl in Hidle.
      discriminate Hidle.
    + unfold gpu_work. rewrite Hpend, Hfl.
      destruct c; cbn [barrier_open forallb filter in_flight pending mem];
        rewrite ?filter_nil; cbn [app sum_list_with snd]; lia.
  - destruct (phases_guarded _ _ _ Hc) as (Hd & b & bs' & -> & Hb).
    destruct (forallb complete wgs) eqn:Hdone.
    + exists Issue. split; [left; reflexivity|]. cbn [gpu_step].
      rewrite Hp, Hfl. cbn [fmap list_fmap app].
      unfold barrier_open. cbn [forallb fst].
      rewrite bool_decide_eq_false_2 by (intros Hn; apply Hn, Hb).
      cbn [orb andb]. rewrite finished_single, Hdone. cbn [andb].
      rewrite filter_cons_False, filter_nil
        by (rewrite finished_single, Hdone; discriminate).
      unfold gpu_work. rewrite Hp, Hfl.
      cbn [fmap list_fmap app sum_list_with in_flight pending mem snd]. lia.
    + destruct (running_progress _ _ _ _ _ Hc Hr Hdone)
        as (w & d & wg & Hw & Hd' & Hwg & [[wg' m'] Hs]).
      exists (Step 0 w d). split; [right; eauto|]. cbn [gpu_step].
      rewrite Hfl. cbn [lookup list_lookup]. rewrite Hwg, Hs.
      unfold gpu_work. rewrite Hfl.
      cbn [sum_list_with in_flight pending mem insert list_insert snd].
      pose proof (running_decrease _ _ _ _ _ _ _ _ _ _ Hc Hr Hwg Hs). lia.
Qed.

Hypothesis inv_step :
  forall (ch : choice) (g : gpu),
    serial_inv phases quiet running g ->
    serial_inv phases quiet running (gpu_step K ch g).

Lemma inv_run (schedule : list choice) (g : gpu) :
  serial_inv phases quiet running g ->
  serial_inv phases quiet running (gpu_run K schedule g).
Proof.
  revert g. induction schedule as [|ch schedule IH]; intros g Hg.
  - exact Hg.
  - cbn. apply IH, inv_step, Hg.
Qed.

(** A schedule that contains a pick that leaves less work leaves less
    work. *)
Lemma gpu_run_progress (schedule : list choice) (ch : choice) (g : gpu) :
  serial_inv phases quiet running g ->
  ch ∈ schedule ->
  (gpu_work (gpu_step K ch g) < gpu_work g)%nat ->
  (gpu_work (gpu_run K schedule g) < gpu_work g)%nat.
Proof.
  revert g. induction schedule as [|ch' schedule IH]; intros g Hg Hin Hlt.
  - apply elem_of_nil in Hin. contradiction.
  - cbn.
    destruct (gpu_step_work ch' g Hg) as [Heq | Hlt'].
    + apply elem_of_cons in Hin as [-> | Hin].
      * rewrite Heq in Hlt. lia.
      * rewrite Heq. apply IH; assumption.
    + eapply Nat.le_lt_trans; [|exact Hlt'].
      apply gpu_run_work; [apply inv_step, Hg | exact inv_step].
Qed.

Lemma fair_round_work (round : list choice) (g : gpu) :
  serial_inv phases quiet running g ->
  fair_round 1 width round -> gpu_idle g = false ->
  (gpu_work (gpu_run K round g) < gpu_work g)%nat.
Proof.
  intros Hg [Hissue Hsteps] Hidle.
  destruct (gpu_progress g Hg Hidle)
    as (ch & [-> | (w & d & Hw & Hd & ->)] & Hlt).
  - eapply gpu_run_progress; eassumption.
  - eapply gpu_run_progress; [exact Hg| |exact Hlt].
    apply Hsteps; [lia | exact Hw | exact Hd].
Qed.

(** After as many fair rounds as there is work, the device is idle. *)
Lemma fair_rounds_idle (rounds : list (list choice)) (g : gpu) :
  serial_inv phases quiet running g ->
  Forall (fair_round 1 width) rounds ->
  (gpu_work g <= length rounds)%nat ->
  gpu_idle (gpu_run K (mjoin rounds) g) = true.
Proof.
  revert g. induction rounds as [|round rounds IH]; intros g Hg Hfair Hwork.
  - cbn in *. destruct (gpu_idle g) eqn:Hidle; [reflexivity|].
    destruct (gpu_progress g Hg Hidle) as (ch & _ & Hlt). lia.
  - apply Forall_cons in Hfair as [Hround Hfair].
    cbn [mjoin list_join]. rewrite gpu_run_app.
    destruct (gpu_idle g) eqn:Hidle.
    + rewrite (gpu_idle_run K round g Hidle).
      rewrite (gpu_idle_run K _ g Hidle). exact Hidle.
    + apply IH; [apply inv_run, Hg | exact Hfair |].
      pose proof (fair_round_work round g Hg Hround Hidle).
      cbn [length] in Hwork. lia.
Qed.

End serial_work.

(** ** Lists of work-groups *)

Lemma omap_insert_same {A B : Type} (f : A -> option B) (l : list A)
    (w : nat) (x x' : A) :
  l !! w = Some x -> f x' = f x -> omap f (<[w := x']> l) = omap f l.
Proof.
  revert w. induction l as [|y l IH]; intros w Hw Hf; [reflexivity|].
  unfold omap in *. destruct w as [|w]; simpl in *.
  - injection Hw as ->. rewrite Hf. reflexivity.
  - rewrite (IH w Hw Hf). reflexivity.
Qed.

Lemma omap_insert_new {A B : Type} (f : A -> option B) (l : list A)
    (w : nat) (x x' : A) (y : B) :
  l !! w = Some x -> f x = None -> f x' = Some y ->
  omap f (<[w := x']> l) ≡ₚ y :: omap f l.
Proof.
  revert w. induction l as [|z l IH]; intros w Hw Hx Hx'; [discriminate Hw|].
  destruct w as [|w]; simpl in *.
  - injection Hw as ->. rewrite Hx, Hx'. reflexivity.
  - destruct (f z); rewrite (IH w Hw Hx Hx');
      [apply Permutation_swap | reflexivity].
Qed.

Lemma omap_lookup_inj {A B : Type} (f : A -> option B) (l : list A)
    (w w' : nat) (x x' : A) (y : B) :
  NoDup (omap f l) ->
  l !! w = Some x -> l !! w' = Some x' -> f x = Some y -> f x' = Some y ->
  w = w'.
Proof.
  revert w w'. induction l as [|z l IH]; intros w w' Hnd Hw Hw' Hx Hx';
    [discriminate Hw|].
  unfold omap in *. simpl in Hnd.
  destruct w as [|w], w' as [|w']; simpl in *; [reflexivity| | |].
  - injection Hw as ->. rewrite Hx in Hnd. apply NoDup_cons in Hnd as [Hn _].
    exfalso. apply Hn. apply (list_elem_of_omap f). exists x'.
    split; [apply list_elem_of_lookup; eauto | exact Hx'].
  - injection Hw' as ->. rewrite Hx' in Hnd.
    apply NoDup_cons in Hnd as [Hn _].
    exfalso. apply Hn. apply (list_elem_of_omap f). exists x.
    split; [apply list_elem_of_lookup; eauto | exact Hx].
  - f_equal. apply (IH w w'); try assumption.
    destruct (f z); [apply NoDup_cons in Hnd as [_ Hnd]|]; exact Hnd.
Qed.

Lemma length_omap_le {A B : Type} (f : A -> option B) (l : list A) :
  (length (omap f l) <= length l)%nat.
Proof.
  unfold omap. induction l as [|z l IH]; simpl; [lia|].
  destruct (f z); simpl; lia.
Qed.

Lemma length_omap_lt {A B : Type} (f : A -> option B) (l : list A)
    (w : nat) (x : A) :
  l !! w = Some x -> f x = None -> (length (omap f l) < length l)%nat.
Proof.
  revert w. induction l as [|z l IH]; intros w Hw Hx; [discriminate Hw|].
  pose proof (length_omap_le f l) as Hle.
  unfold omap in *. destruct w as [|w]; simpl in *.
  - injection Hw as ->. rewrite Hx. lia.
  - specialize (IH w Hw Hx). destruct (f z); simpl; lia.
Qed.

(** ** Counts of tiles *)

Lemma tiles_before_S (cnt : nat -> nat -> nat) (tile d : nat) :
  tiles_before cnt (S tile) d = (tiles_before cnt tile d + cnt tile d)%nat.
Proof.
  unfold tiles_before. rewrite seq_S, sum_list_with_app. cbn. lia.
Qed.

Lemma tiles_before_0 (cnt : nat -> nat -> nat) (d : nat) :
  tiles_before cnt 0 d = 0%nat.
Proof. reflexivity. Qed.

Lemma tiles_before_ext (cnt cnt' : nat -> nat -> nat) (tile d : nat) :
  (forall u, (u < tile)%nat -> cnt' u d = cnt u d) ->
  tiles_before cnt' tile d = tiles_before cnt tile d.
Proof.
  induction tile as [|tile IH]; intros H; [reflexivity|].
  rewrite !tiles_before_S. rewrite IH by (intros; apply H; lia).
  rewrite H by lia. reflexivity.
Qed.

Lemma lane_inv_ext (cnt cnt' : nat -> nat -> nat) (tile d : nat) (l : lane)
    (e : tile_entry) :
  (forall u, (u <= tile)%nat -> cnt' u d = cnt u d) ->
  lane_inv cnt tile d l e -> lane_inv cnt' tile d l e.
Proof.
  intros H.
  assert (Hb : forall t, (t <= S tile)%nat ->
            tiles_before cnt' t d = tiles_before cnt t d).
  { intros t Ht. apply tiles_before_ext. intros u Hu. apply H. lia. }
  destruct l as [|cur acc|excl|excl]; cbn [lane_inv].
  - trivial.
  - intros (Hc & -> & Hacc). rewrite !Hb by lia. rewrite H by lia.
    repeat split; assumption.
  - intros (-> & ->). rewrite Hb by lia. rewrite H by lia.
    split; reflexivity.
  - intros (-> & ->). rewrite !Hb by lia. split; reflexivity.
Qed.

(** ** Memory after a write *)

Lemma published_publish (passHist : buffer) (pass tile d : nat)
    (e : tile_entry) (m : memory) (p' t' d' : nat) :
  published (passHistogram (publish passHist pass tile d e m) passHist)
    p' t' d'
  = if decide (p' = pass /\ t' = tile /\ d' = d) then e
    else published (passHistogram m passHist) p' t' d'.
Proof.
  unfold publish, set_passHistogram. cbn. rewrite fn_lookup_insert. cbn.
  destruct (decide (p' = pass)) as [->|Hp].
  - rewrite fn_lookup_insert. destruct (decide (t' = tile)) as [->|Ht].
    + rewrite fn_lookup_insert. destruct (decide (d' = d)) as [->|Hd].
      * rewrite fn_lookup_insert. rewrite decide_True by auto. reflexivity.
      * rewrite fn_lookup_insert_ne by auto.
        rewrite decide_False by (intros (_ & _ & ?); auto). reflexivity.
    + rewrite fn_lookup_insert_ne by auto.
      rewrite decide_False by (intros (_ & ? & _); auto). reflexivity.
  - rewrite fn_lookup_insert_ne by auto.
    rewrite decide_False by (intros (? & _ & _); auto). reflexivity.
Qed.

Lemma seed_publish (passHist : buffer) (pass tile d : nat) (e : tile_entry)
    (m : memory) :
  seed (passHistogram (publish passHist pass tile d e m) passHist)
  = seed (passHistogram m passHist).
Proof.
  unfold publish, set_passHistogram. cbn. rewrite fn_lookup_insert.
  reflexivity.
Qed.

Lemma tileIndex_set (index : buffer) (v : nat -> nat) (m : memory) :
  tileIndex (set_tileIndex index v m) index = v.
Proof. unfold set_tileIndex. cbn. apply fn_lookup_insert. Qed.

Lemma mapM_settled (lanes : nat -> lane) (prefixes : list nat) (d : nat) :
  mapM (fun d' => settled (lanes d')) (seq 0 RADIX) = Some prefixes ->
  (d < RADIX)%nat ->
  lanes d = Published (default 0%nat (prefixes !! d)).
Proof.
  intros HM Hd. apply mapM_Some in HM.
  assert (Hseq : seq 0 RADIX !! d = Some d)
    by (apply lookup_seq; split; [reflexivity | exact Hd]).
  destruct (Forall2_lookup_l _ _ _ _ _ HM Hseq) as (x & Hx & Hs).
  rewrite Hx. cbn. destruct (lanes d); cbn in Hs; try discriminate Hs.
  injection Hs as ->. reflexivity.
Qed.

(** ** The protocol of a digit-binning pass *)

Section binning_protocol.
Context (partSize : nat).
Context (sort alt sortPayload altPayload index passHist : buffer).
Context (numKeys groups : nat) (radixShift : Z).
Context (cnt : nat -> nat -> nat).

Let pass := Z.to_nat (radixShift / 8).

Lemma binning_inv_tile_lt (wgs : list workgroup) (m : memory) (w tile : nat)
    (wg : workgroup) :
  binning_inv passHist index groups radixShift cnt wgs m ->
  wgs !! w = Some wg -> workgroup_tile wg = Some tile ->
  (tile < tileIndex m index pass)%nat.
Proof.
  intros (_ & Htiles & _) Hw Ht.
  assert (Hin : tile ∈ omap workgroup_tile wgs).
  { apply list_elem_of_omap. exists wg.
    split; [apply list_elem_of_lookup; eauto | exact Ht]. }
  rewrite Htiles in Hin. apply elem_of_seq in Hin. unfold pass. lia.
Qed.

Lemma binning_inv_owner (wgs : list workgroup) (m : memory) (tile : nat) :
  binning_inv passHist index groups radixShift cnt wgs m ->
  (tile < tileIndex m index pass)%nat ->
  exists (w : nat) (wg : workgroup),
    wgs !! w = Some wg /\ workgroup_tile wg = Some tile.
Proof.
  intros (_ & Htiles & _) Ht.
  assert (Hin : tile ∈ omap workgroup_tile wgs).
  { rewrite Htiles. apply elem_of_seq. unfold pass in Ht. lia. }
  apply list_elem_of_omap in Hin as (wg & Hwg & Htile).
  apply list_elem_of_lookup in Hwg as [w Hw]. eauto.
Qed.

Lemma binning_inv_tiles_inj (wgs : list workgroup) (m : memory)
    (w w' tile : nat) (wg wg' : workgroup) :
  binning_inv passHist index groups radixShift cnt wgs m ->
  wgs !! w = Some wg -> wgs !! w' = Some wg' ->
  workgroup_tile wg = Some tile -> workgroup_tile wg' = Some tile ->
  w = w'.
Proof.
  intros (_ & Htiles & _) Hw Hw' Ht Ht'.
  eapply omap_lookup_inj; try eassumption.
  rewrite Htiles. apply NoDup_seq.
Qed.

(** What is published for a tile that has been handed out. *)
Lemma binning_inv_entry (wgs : list workgroup) (m : memory) (tile d : nat) :
  binning_inv passHist index groups radixShift cnt wgs m ->
  (tile < tileIndex m index pass)%nat -> (d < RADIX)%nat ->
  match published (passHistogram m passHist) pass tile d with
  | Aggregated inclusive => inclusive = tiles_before cnt (S tile) d
  | LocalCount count => count = cnt tile d
  | NotReady =>
      exists (w : nat) (tileKeys tilePayload : list Z) (lanes : nat -> lane),
        wgs !! w = Some (Binning tile tileKeys tilePayload lanes)
        /\ lanes d = Unpublished
  end.
Proof.
  intros Hinv Ht Hd.
  destruct (binning_inv_owner wgs m tile Hinv Ht) as (w & wg & Hw & Htile).
  destruct Hinv as (_ & _ & _ & Hrun & Hdone & _). fold pass in Hrun, Hdone.
  destruct wg as [|t ks ps lanes|t|]; try discriminate Htile;
    injection Htile as ->.
  - destruct (Hrun _ _ _ _ _ Hw d Hd) as [_ Hlane].
    destruct (lanes d) as [|cur acc|excl|excl] eqn:Hl; cbn [lane_inv] in Hlane.
    + rewrite Hlane. eauto 10.
    + destruct Hlane as (_ & -> & _). reflexivity.
    + destruct Hlane as (-> & _). reflexivity.
    + destruct Hlane as (-> & _). reflexivity.
  - rewrite (Hdone _ _ Hw d Hd). reflexivity.
Qed.

(** A step of a group keeps the protocol invariant.  For a group that
    starts, [cnt] has to give the counts of the slice it loads. *)
Lemma binning_inv_step (wgs : list workgroup) (m m' : memory) (w d : nat)
    (wg wg' : workgroup) :
  binning_inv passHist index groups radixShift cnt wgs m ->
  wgs !! w = Some wg ->
  binning_step partSize sort alt sortPayload altPayload index passHist
    numKeys radixShift d wg m = Some (wg', m') ->
  (wg = Waiting ->
   forall d' : nat, (d' < RADIX)%nat ->
     count_digit radixShift d'
       (slice partSize numKeys (tileIndex m index pass) (words m sort))
     = cnt (tileIndex m index pass) d') ->
  binning_inv passHist index groups radixShift cnt (<[w := wg']> wgs) m'.
Proof.
  intros Hinv Hw Hstep Hcnt.
  pose proof Hinv as (Hlen & Htiles & Hnr & Hrun & Hdone & Hfree).
  fold pass in Htiles, Hrun, Hdone, Hfree.
  unfold binning_step in Hstep. fold pass in Hstep.
  destruct wg as [|tile ks ps lanes|tile|]; try discriminate Hstep.
  - (* the group starts *)
    injection Hstep as <- <-.
    set (c := tileIndex m index pass) in *.
    assert (Hc : (c < groups)%nat).
    { rewrite <- Hlen.
      replace c with (length (omap workgroup_tile wgs))
        by (rewrite Htiles; apply length_seq).
      eapply length_omap_lt; [exact Hw | reflexivity]. }
    unfold binning_inv. fold pass. rewrite tileIndex_set.
    rewrite fn_lookup_insert. cbn [passHistogram set_tileIndex].
    split; [rewrite length_insert; exact Hlen|].
    split.
    { rewrite (omap_insert_new _ _ _ _ _ c Hw) by reflexivity.
      rewrite Htiles, seq_S. cbn. apply Permutation_cons_append. }
    split.
    { apply Forall_insert; [exact Hnr | discriminate]. }
    split.
    { intros w' t ks ps lanes Hw' d' Hd'.
      apply list_lookup_insert_Some in Hw' as [(-> & Heq & _) | (Hne & Hw')].
      - injection Heq as <- <- <- <-. split; [apply Hcnt; auto|].
        cbn [lane_inv]. apply Hfree. fold c. lia.
      - exact (Hrun _ _ _ _ _ Hw' d' Hd'). }
    split.
    { intros w' t Hw' d' Hd'.
      apply list_lookup_insert_Some in Hw' as [(-> & Heq & _) | (Hne & Hw')];
        [discriminate Heq|].
      exact (Hdone _ _ Hw' d' Hd'). }
    intros t d' Ht. apply Hfree. fold c. lia.
  - (* a running group *)
    assert (Htile : (tile < tileIndex m index pass)%nat)
      by (eapply binning_inv_tile_lt; [exact Hinv | exact Hw | reflexivity]).
    assert (Hother : forall w' wg0 t,
              w <> w' -> wgs !! w' = Some wg0 ->
              workgroup_tile wg0 = Some t -> t <> tile).
    { intros w' wg0 t Hne Hw' Ht ->. apply Hne.
      eapply binning_inv_tiles_inj;
        [exact Hinv | exact Hw | exact Hw' | reflexivity | exact Ht]. }
    destruct (mapM (fun d' => settled (lanes d')) (seq 0 RADIX))
      as [prefixes|] eqn:HM.
    + (* scatter *)
      injection Hstep as <- <-.
      unfold binning_inv. fold pass.
      cbn [passHistogram tileIndex set_words].
      split; [rewrite length_insert; exact Hlen|].
      split; [rewrite (omap_insert_same _ _ _ _ _ Hw) by reflexivity;
              exact Htiles|].
      split; [apply Forall_insert; [exact Hnr | discriminate]|].
      split.
      { intros w' t ks' ps' lanes' Hw' d' Hd'.
        apply list_lookup_insert_Some in Hw'
          as [(-> & Heq & _) | (Hne & Hw')]; [discriminate Heq|].
        exact (Hrun _ _ _ _ _ Hw' d' Hd'). }
      split; [|exact Hfree].
      intros w' t Hw' d' Hd'.
      apply list_lookup_insert_Some in Hw' as [(-> & Heq & _) | (Hne & Hw')].
      * injection Heq as <-.
        destruct (Hrun _ _ _ _ _ Hw d' Hd') as [_ Hlane].
        rewrite (mapM_settled _ _ _ HM Hd') in Hlane.
        destruct Hlane as [-> _]. reflexivity.
      * exact (Hdone _ _ Hw' d' Hd').
    + (* a lane steps *)
      destruct (decide (d < RADIX)%nat) as [Hd|]; [|discriminate Hstep].
      destruct (Hrun _ _ _ _ _ Hw d Hd) as [Hks Hlane].
      destruct (lane_step _ tile (count_digit radixShift d ks) (lanes d))
        as [[l written]|] eqn:Hl; [|discriminate Hstep].
      injection Hstep as <- <-.
      (* what the lane becomes, and what is published afterwards *)
      assert (Hnew :
        let m1 := match written with
                  | Some e => publish passHist pass tile d e m
                  | None => m
                  end in
        tileIndex m1 index = tileIndex m index
        /\ (forall t d', (t <> tile \/ d' <> d) ->
              published (passHistogram m1 passHist) pass t d'
              = published (passHistogram m passHist) pass t d')
        /\ lane_inv cnt tile d l
             (published (passHistogram m1 passHist) pass tile d)).
      { unfold lane_step in Hl.
        destruct (lanes d) as [|cur acc|excl|excl]; cbn [lane_inv] in Hlane.
        - injection Hl as <- <-. cbn zeta.
          split; [reflexivity|]. split.
          + intros t d' Hne. rewrite published_publish.
            rewrite decide_False by (intros (_ & ? & ?); tauto). reflexivity.
          + rewrite published_publish, decide_True by auto.
            cbn [lane_inv]. rewrite Hks. repeat split; lia.
        - destruct Hlane as (Hcur & He & Hacc).
          destruct cur as [|prev].
          + injection Hl as <- <-. cbn zeta.
            split; [reflexivity|]. split; [reflexivity|].
            cbn [lane_inv]. rewrite tiles_before_0 in Hacc.
            split; [exact He | lia].
          + pose proof (binning_inv_entry wgs m prev d Hinv ltac:(lia) Hd)
              as Hprev.
            rewrite tiles_before_S in Hacc.
            destruct (published (passHistogram m passHist) pass prev d)
              as [|count|inclusive]; [discriminate Hl| |].
            * injection Hl as <- <-. cbn zeta.
              split; [reflexivity|]. split; [reflexivity|].
              cbn [lane_inv]. subst count. repeat split; [lia|exact He|lia].
            * injection Hl as <- <-. cbn zeta.
              split; [reflexivity|]. split; [reflexivity|].
              cbn [lane_inv]. subst inclusive. rewrite tiles_before_S.
              split; [exact He | lia].
        - destruct Hlane as (He & ->). injection Hl as <- <-. cbn zeta.
          split; [reflexivity|]. split.
          + intros t d' Hne. rewrite published_publish.
            rewrite decide_False by (intros (_ & ? & ?); tauto). reflexivity.
          + rewrite published_publish, decide_True by auto.
            cbn [lane_inv]. rewrite Hks, tiles_before_S. split; reflexivity.
        - discriminate Hl. }
      cbn zeta in Hnew. destruct Hnew as (Hidx & Hpub & Hlane').
      unfold binning_inv. fold pass. rewrite Hidx.
      split; [rewrite length_insert; exact Hlen|].
      split; [rewrite (omap_insert_same _ _ _ _ _ Hw) by reflexivity;
              exact Htiles|].
      split; [apply Forall_insert; [exact Hnr | discriminate]|].
      split.
      { intros w' t ks' ps' lanes' Hw' d' Hd'.
        apply list_lookup_insert_Some in Hw'
          as [(-> & Heq & _) | (Hne & Hw')].
        - injection Heq as <- <- <- <-.
          destruct (decide (d' = d)) as [->|Hdd].
          + rewrite fn_lookup_insert. split; [exact Hks | exact Hlane'].
          + rewrite fn_lookup_insert_ne by auto.
            rewrite Hpub by auto. exact (Hrun _ _ _ _ _ Hw d' Hd').
        - rewrite Hpub by (left; eapply Hother; [exact Hne | exact Hw' |];
                           reflexivity).
          exact (Hrun _ _ _ _ _ Hw' d' Hd'). }
      split.
      { intros w' t Hw' d' Hd'.
        apply list_lookup_insert_Some in Hw'
          as [(-> & Heq & _) | (Hne & Hw')]; [discriminate Heq|].
        rewrite Hpub by (left; eapply Hother; [exact Hne | exact Hw' |];
                         reflexivity).
        exact (Hdone _ _ Hw' d' Hd'). }
      intros t d' Ht. rewrite Hpub by (left; lia). apply Hfree. exact Ht.
Qed.

End binning_protocol.

(** ** Work left in a digit-binning pass *)

Lemma sum_list_with_insert {A : Type} (f : A -> nat) (l : list A) (w : nat)
    (x x' : A) :
  l !! w = Some x ->
  (sum_list_with f (<[w := x']> l) + f x = sum_list_with f l + f x')%nat.
Proof.
  revert w. induction l as [|y l IH]; intros w Hw; [discriminate Hw|].
  destruct w as [|w]; simpl in *.
  - injection Hw as ->. lia.
  - specialize (IH w Hw). lia.
Qed.

Lemma sum_list_with_const {A : Type} (k : nat) (l : list A) :
  sum_list_with (fun _ => k) l = (length l * k)%nat.
Proof. induction l as [|y l IH]; simpl; lia. Qed.

Lemma sum_list_with_ext_in {A : Type} (f g : A -> nat) (l : list A) :
  (forall x, x ∈ l -> f x = g x) -> sum_list_with f l = sum_list_with g l.
Proof.
  induction l as [|y l IH]; intros H; [reflexivity|]. simpl.
  rewrite (H y) by apply list_elem_of_here.
  rewrite IH by (intros; apply H, list_elem_of_further; assumption).
  reflexivity.
Qed.

(** Changing one term of a sum over [0 .. n). *)
Lemma sum_list_with_seq_at (f g : nat -> nat) (n d : nat) :
  (d < n)%nat -> (forall d', d' <> d -> g d' = f d') ->
  (sum_list_with g (seq 0 n) + f d = sum_list_with f (seq 0 n) + g d)%nat.
Proof.
  intros Hd Hext.
  replace n with (d + S (n - S d))%nat by lia.
  rewrite seq_app, !sum_list_with_app. cbn [seq sum_list_with Nat.add].
  rewrite (sum_list_with_ext_in g f (seq 0 d)).
  - rewrite (sum_list_with_ext_in g f (seq (S d) (n - S d))); [lia|].
    intros x Hx. apply elem_of_seq in Hx. apply Hext. lia.
  - intros x Hx. apply elem_of_seq in Hx. apply Hext. lia.
Qed.

Lemma lane_step_work (entry : nat -> tile_entry) (tile localCount : nat)
    (l l' : lane) (written : option tile_entry) :
  lane_step entry tile localCount l = Some (l', written) ->
  (lane_work tile l' < lane_work tile l)%nat.
Proof.
  destruct l as [|[|prev] acc|excl|excl]; cbn [lane_step].
  - intros [= <- <-]. cbn. lia.
  - intros [= <- <-]. cbn. lia.
  - destruct (entry prev); intros [= <- <-]; cbn; lia.
  - intros [= <- <-]. cbn. lia.
  - discriminate.
Qed.

Lemma forallb_false_lookup {A : Type} (f : A -> bool) (l : list A) :
  forallb f l = false -> exists i x, l !! i = Some x /\ f x = false.
Proof.
  induction l as [|y l IH]; [discriminate|]. cbn.
  destruct (f y) eqn:Hy.
  - intros H. destruct (IH H) as (i & x & Hi & Hx). exists (S i), x. auto.
  - intros _. exists 0%nat, y. auto.
Qed.

Section binning_work.
Context (partSize : nat).
Context (sort alt sortPayload altPayload index passHist : buffer).
Context (numKeys groups : nat) (radixShift : Z).
Context (cnt : nat -> nat -> nat).

Lemma binning_step_work (wgs : list workgroup) (m m' : memory) (w d : nat)
    (wg wg' : workgroup) :
  binning_inv passHist index groups radixShift cnt wgs m ->
  wgs !! w = Some wg ->
  binning_step partSize sort alt sortPayload altPayload index passHist
    numKeys radixShift d wg m = Some (wg', m') ->
  (dispatch_work (<[w := wg']> wgs) < dispatch_work wgs)%nat.
Proof.
  intros Hinv Hw Hstep.
  assert (Hwork : (workgroup_work (length wgs) wg'
                   < workgroup_work (length wgs) wg)%nat).
  { unfold binning_step in Hstep.
    destruct wg as [|tile ks ps lanes|tile|]; try discriminate Hstep.
    - injection Hstep as <- <-. cbn [workgroup_work].
      rewrite sum_list_with_const, length_seq.
      destruct Hinv as (Hlen & Htiles & _).
      assert (Hc : (tileIndex m index (Z.to_nat (radixShift / 8))
                    < length wgs)%nat).
      { replace (tileIndex m index (Z.to_nat (radixShift / 8)))
          with (length (omap workgroup_tile wgs))
          by (rewrite Htiles; apply length_seq).
        eapply length_omap_lt; [exact Hw | reflexivity]. }
      cbn [lane_work]. generalize RADIX. intros R. nia.
    - destruct (mapM (fun d' => settled (lanes d')) (seq 0 RADIX)).
      + injection Hstep as <- <-. cbn [workgroup_work]. lia.
      + destruct (decide (d < RADIX)%nat) as [Hd|]; [|discriminate Hstep].
        destruct (lane_step _ tile (count_digit radixShift d ks) (lanes d))
          as [[l written]|] eqn:Hl; [|discriminate Hstep].
        injection Hstep as <- <-. cbn [workgroup_work].
        apply lane_step_work in Hl.
        assert (Hsum := sum_list_with_seq_at
                          (fun d' => lane_work tile (lanes d'))
                          (fun d' => lane_work tile ((<[d := l]> lanes) d'))
                          RADIX d Hd).
        cbn beta in Hsum. rewrite fn_lookup_insert in Hsum.
        specialize (Hsum ltac:(intros d' Hd';
                                 rewrite fn_lookup_insert_ne by auto;
                                 reflexivity)).
        lia. }
  unfold dispatch_work. rewrite length_insert.
  pose proof (sum_list_with_insert (workgroup_work (length wgs)) wgs w wg wg'
                Hw). lia.
Qed.

Lemma binning_step_progress (wgs : list workgroup) (m : memory) :
  binning_inv passHist index groups radixShift cnt wgs m ->
  forallb complete wgs = false ->
  exists (w d : nat) (wg : workgroup),
    (w < groups)%nat /\ (d < RADIX)%nat /\ wgs !! w = Some wg
    /\ is_Some (binning_step partSize sort alt sortPayload altPayload index
                  passHist numKeys radixShift d wg m).
Proof.
  intros Hinv Hnot.
  pose proof Hinv as (Hlen & Htiles & Hnr & Hrun & Hdone & Hfree).
  destruct (forallb_false_lookup _ _ Hnot) as (w & wg & Hw & Hwg).
  assert (Hwl : (w < groups)%nat)
    by (rewrite <- Hlen; eapply lookup_lt_Some; exact Hw).
  assert (H0 : (0 < RADIX)%nat) by (unfold RADIX; lia).
  destruct wg as [|tile ks ps lanes|tile|]; try discriminate Hwg.
  - exists w, 0%nat, Waiting. repeat split; try assumption.
    cbn. eauto.
  - destruct (mapM (fun d' => settled (lanes d')) (seq 0 RADIX))
      as [prefixes|] eqn:HM.
    + exists w, 0%nat, (Binning tile ks ps lanes).
      repeat split; try assumption. cbn [binning_step]. rewrite HM. eauto.
    + apply mapM_None_1, Exists_exists in HM as (d & Hd & Hset).
      apply elem_of_seq in Hd. assert (Hd' : (d < RADIX)%nat) by lia.
      assert (Htile : (tile < tileIndex m index (Z.to_nat (radixShift / 8)))%nat).
      { eapply binning_inv_tile_lt; [exact Hinv | exact Hw | reflexivity]. }
      destruct (Hrun _ _ _ _ _ Hw d Hd') as [_ Hlane].
      assert (Hmove :
        is_Some (lane_step
                   (fun t => published (passHistogram m passHist)
                               (Z.to_nat (radixShift / 8)) t d)
                   tile (count_digit radixShift d ks) (lanes d))
        \/ exists (w0 prev : nat) (ks0 ps0 : list Z) (lanes0 : nat -> lane),
             wgs !! w0 = Some (Binning prev ks0 ps0 lanes0)
             /\ lanes0 d = Unpublished).
      { destruct (lanes d) as [|[|prev] acc|excl|excl] eqn:Hld;
          cbn [lane_step lane_inv settled] in *;
          try (left; eauto; fail); try discriminate Hset.
        destruct Hlane as (Hcur & _).
        pose proof (binning_inv_entry _ _ _ _ _ wgs m prev d Hinv
                      ltac:(lia) Hd') as Hprev.
        destruct (published (passHistogram m passHist)
                    (Z.to_nat (radixShift / 8)) prev d);
          try (left; eauto; fail).
        destruct Hprev as (w0 & ks0 & ps0 & lanes0 & Hw0 & Hl0).
        right. eauto 10. }
      destruct Hmove as [[[l written] Hl] | (w0 & prev & ks0 & ps0 & lanes0
                                             & Hw0 & Hl0)].
      * exists w, d, (Binning tile ks ps lanes).
        repeat split; try assumption. cbn [binning_step].
        rewrite (proj2 (mapM_None _ _)), decide_True, Hl by
          (first [exact Hd' | apply Exists_exists; exists d;
                  split; [apply elem_of_seq; lia | exact Hset]]).
        eauto.
      * exists w0, d, (Binning prev ks0 ps0 lanes0).
        split; [rewrite <- Hlen; eapply lookup_lt_Some; exact Hw0|].
        repeat split; try assumption. cbn [binning_step].
        rewrite (proj2 (mapM_None _ _)), decide_True, Hl0 by
          (first [exact Hd' | apply Exists_exists; exists d;
                  split; [apply elem_of_seq; lia | rewrite Hl0; reflexivity]]).
        cbn. eauto.
Qed.

End binning_work.

(** ** The phases of a sort call *)

Lemma emitted_phases (s : OneSweep) :
  emitted s = commands_of (sort_phases s).
Proof. rewrite emitted_eq. reflexivity. Qed.

Lemma sort_phases_lookup (s : OneSweep) (j : nat) (c : command)
    (bs : list buffer) :
  sort_phases s !! j = Some (c, bs) ->
  (j = 0%nat
   /\ c = InitSweepDispatch (m_globalHistBuffer s) (m_passHistBuffer s)
            (m_indexBuffer s) (m_partitions s)
   /\ bs = [m_globalHistBuffer s])
  \/ (j = 1%nat
      /\ c = GlobalHistDispatch (m_sortBuffer s) (m_globalHistBuffer s)
               (m_numKeys s) (m_globalHistPartitions s)
      /\ bs = [m_globalHistBuffer s])
  \/ (j = 2%nat
      /\ c = ScanDispatch (m_globalHistBuffer s) (m_passHistBuffer s)
               (m_partitions s) (k_radixPasses (base s))
      /\ bs = [m_passHistBuffer s])
  \/ (exists pass : nat,
        (pass < 4)%nat /\ j = S (S (S pass))
        /\ (c, bs) = binning_phase s pass).
Proof.
  intros Hj. destruct j as [|[|[|pass]]]; cbn in Hj.
  - injection Hj as <- <-. auto.
  - injection Hj as <- <-. auto.
  - injection Hj as <- <-. auto 6.
  - right; right; right. exists pass.
    assert (Hp : (pass < 4)%nat).
    { apply lookup_lt_Some in Hj. cbn in Hj. lia. }
    split; [exact Hp|]. split; [reflexivity|].
    do 4 (destruct pass as [|pass]; [injection Hj as <- <-; reflexivity|]).
    lia.
Qed.

Lemma sort_phases_guarded (s : OneSweep) (j : nat) (c : command)
    (bs : list buffer) :
  sort_phases s !! j = Some (c, bs) ->
  stage_of c <> None
  /\ exists (b : buffer) (bs' : list buffer), bs = b :: bs' /\ b ∈ accessed c.
Proof.
  intros Hj.
  destruct (sort_phases_lookup s j c bs Hj)
    as [(_ & -> & ->) | [(_ & -> & ->) | [(_ & -> & ->)
       | (pass & _ & _ & [= -> ->])]]];
    (split; [discriminate|]); eexists _, _; (split; [reflexivity|]);
    unfold accessed; cbn [reads writes app]; set_solver.
Qed.

(** ** What the steps leave alone *)

Lemma binning_step_frame (partSize : nat)
    (sort alt sortPayload altPayload index passHist : buffer)
    (numKeys : nat) (radixShift : Z) (d : nat) (wg wg' : workgroup)
    (m m' : memory) :
  binning_step partSize sort alt sortPayload altPayload index passHist
    numKeys radixShift d wg m = Some (wg', m') ->
  let pass := Z.to_nat (radixShift / 8) in
  (forall p', p' <> pass -> tileIndex m' index p' = tileIndex m index p')
  /\ (forall p' t d', p' <> pass ->
        published (passHistogram m' passHist) p' t d'
        = published (passHistogram m passHist) p' t d')
  /\ seed (passHistogram m' passHist) = seed (passHistogram m passHist)
  /\ (forall b, b <> alt -> b <> altPayload -> words m' b = words m b).
Proof.
  intros Hstep. cbn zeta. unfold binning_step in Hstep.
  destruct wg as [|tile ks ps lanes|tile|]; try discriminate Hstep.
  - injection Hstep as <- <-. rewrite tileIndex_set.
    repeat split; try reflexivity.
    intros p' Hp'. rewrite fn_lookup_insert_ne by auto. reflexivity.
  - destruct (mapM (fun d' => settled (lanes d')) (seq 0 RADIX))
      as [prefixes|].
    + injection Hstep as <- <-. repeat split; try reflexivity.
      intros b Hb Hb'. unfold set_words. cbn.
      rewrite !fn_lookup_insert_ne by auto. reflexivity.
    + destruct (decide (d < RADIX)%nat); [|discriminate Hstep].
      destruct (lane_step _ tile _ (lanes d)) as [[ln [e|]]|];
        try discriminate Hstep; injection Hstep as <- <-;
        repeat split; try reflexivity.
      * intros p' t d' Hp'. rewrite published_publish.
        rewrite decide_False by (intros (? & _); auto). reflexivity.
      * apply seed_publish.
Qed.

Lemma binning_inv_ext (passHist index : buffer) (groups : nat)
    (radixShift : Z) (cnt cnt' : nat -> nat -> nat) (wgs : list workgroup)
    (m : memory) :
  (forall u d, (u < tileIndex m index (Z.to_nat (radixShift / 8)))%nat ->
               cnt' u d = cnt u d) ->
  binning_inv passHist index groups radixShift cnt wgs m ->
  binning_inv passHist index groups radixShift cnt' wgs m.
Proof.
  intros Hext Hinv.
  pose proof Hinv as (Hlen & Htiles & Hnr & Hrun & Hdone & Hfree).
  unfold binning_inv.
  split; [exact Hlen|]. split; [exact Htiles|]. split; [exact Hnr|].
  split; [|split; [|exact Hfree]].
  - intros w tile ks ps lanes Hw d Hd.
    assert (Ht : (tile < tileIndex m index (Z.to_nat (radixShift / 8)))%nat)
      by (eapply binning_inv_tile_lt; [exact Hinv | exact Hw | reflexivity]).
    destruct (Hrun _ _ _ _ _ Hw d Hd) as [Hks Hlane].
    split; [rewrite Hext by exact Ht; exact Hks|].
    eapply lane_inv_ext; [|exact Hlane].
    intros u Hu. apply Hext. lia.
  - intros w tile Hw d Hd.
    assert (Ht : (tile < tileIndex m index (Z.to_nat (radixShift / 8)))%nat)
      by (eapply binning_inv_tile_lt; [exact Hinv | exact Hw | reflexivity]).
    rewrite (Hdone _ _ Hw d Hd). f_equal. symmetry.
    apply tiles_before_ext. intros u Hu. apply Hext. lia.
Qed.

Lemma omap_replicate_None {A B : Type} (f : A -> option B) (x : A)
    (n : nat) :
  f x = None -> omap f (replicate n x) = [].
Proof.
  intros Hx. unfold omap. induction n as [|n IH]; [reflexivity|].
  simpl. rewrite Hx. exact IH.
Qed.

Lemma binning_inv_init (s : OneSweep) (pass : nat)
    (cnt : nat -> nat -> nat) (m : memory) :
  fresh_from s pass m ->
  binning_inv (m_passHistBuffer s) (m_indexBuffer s)
    (Z.to_nat (m_partitions s)) (shift_of_pass pass) cnt
    (replicate (Z.to_nat (m_partitions s)) Waiting) m.
Proof.
  intros Hfresh. destruct (Hfresh pass) as [Hidx Hpub]; [lia|].
  unfold binning_inv. rewrite pass_of_shift, Hidx.
  split; [apply length_replicate|].
  split.
  { rewrite omap_replicate_None by reflexivity. reflexivity. }
  split.
  { apply Forall_replicate. discriminate. }
  split.
  { intros w tile ks ps lanes Hw. apply lookup_replicate in Hw as [Hw _].
    discriminate Hw. }
  split.
  { intros w tile Hw. apply lookup_replicate in Hw as [Hw _].
    discriminate Hw. }
  intros tile d Ht. apply Hpub. lia.
Qed.

(** ** The protocol invariant of a sort call *)

Lemma fresh_from_weaken (s : OneSweep) (p p' : nat) (m : memory) :
  (p <= p')%nat -> fresh_from s p m -> fresh_from s p' m.
Proof. intros Hp H q Hq. apply H. lia. Qed.

Lemma fresh_from_same (s : OneSweep) (p : nat) (m m' : memory) :
  tileIndex m' (m_indexBuffer s) = tileIndex m (m_indexBuffer s) ->
  published (passHistogram m' (m_passHistBuffer s))
  = published (passHistogram m (m_passHistBuffer s)) ->
  fresh_from s p m -> fresh_from s p m'.
Proof. intros Hi Hp H. unfold fresh_from. rewrite Hi, Hp. exact H. Qed.

Lemma Forall_simple_replicate (n : nat) : Forall simple (replicate n Waiting).
Proof. apply Forall_replicate. left. reflexivity. Qed.

Lemma Forall_simple_retire (wgs : list workgroup) (w : nat) :
  Forall simple wgs -> Forall simple (<[w := Retired]> wgs).
Proof. intros H. apply Forall_insert; [exact H | right; reflexivity]. Qed.

Lemma simple_complete (wgs : list workgroup) (w : nat) (wg : workgroup) :
  Forall simple wgs -> forallb complete wgs = true ->
  wgs !! w = Some wg -> wg = Retired.
Proof.
  intros Hs Hc Hw. pose proof (forallb_lookup _ _ _ _ Hc Hw) as Hwg.
  rewrite Forall_lookup in Hs. destruct (Hs _ _ Hw) as [-> | ->];
    [discriminate Hwg | reflexivity].
Qed.

(** The protocol invariant: a phase starts in it, every step of a
    work-group keeps it, and a finished phase leaves memory ready for the
    next. *)
Lemma protocol_init (s : OneSweep) (j : nat) (c : command)
    (bs : list buffer) (m : memory) :
  sort_phases s !! j = Some (c, bs) ->
  protocol_quiet s j m -> protocol_running s j (spawn c) m.
Proof.
  intros Hj Hq.
  destruct (sort_phases_lookup s j c bs Hj)
    as [(-> & -> & _) | [(-> & -> & _) | [(-> & -> & _)
       | (pass & Hp & -> & [= -> _])]]]; cbn [spawn protocol_running].
  - split; [reflexivity|]. split; [apply Forall_simple_replicate|].
    split; discriminate.
  - split; [apply length_replicate|].
    split; [apply Forall_simple_replicate | exact Hq].
  - split; [apply length_replicate|].
    split; [apply Forall_simple_replicate | exact Hq].
  - cbn in Hq. rewrite Nat.sub_0_r in Hq.
    split; [eapply fresh_from_weaken; [|exact Hq]; lia|].
    exists (fun _ _ => 0%nat). apply binning_inv_init. exact Hq.
Qed.

Lemma protocol_step (K : kernel_constants) (s : OneSweep) (j : nat)
    (c : command) (bs : list buffer) (wgs : list workgroup) (m : memory)
    (w d : nat) (wg wg' : workgroup) (m' : memory) :
  sort_phases s !! j = Some (c, bs) -> protocol_running s j wgs m ->
  wgs !! w = Some wg ->
  workgroup_step K c w d wg m = Some (wg', m') ->
  protocol_running s j (<[w := wg']> wgs) m'.
Proof.
  intros Hj Hr Hw Hstep.
  destruct (sort_phases_lookup s j c bs Hj)
    as [(-> & -> & _) | [(-> & -> & _) | [(-> & -> & _)
       | (pass & Hp & -> & [= -> _])]]];
    cbn [workgroup_step protocol_running] in *.
  - (* Reset *)
    destruct wg; try discriminate Hstep.
    destruct (reset_step _ _ _ _ w m) as [m1|] eqn:Hreset;
      [|discriminate Hstep].
    injection Hstep as <- <-.
    destruct Hr as (Hlen & Hs & Hph & Hidx).
    split; [rewrite length_insert; exact Hlen|].
    split; [apply Forall_simple_retire, Hs|].
    destruct w as [|[|[|w]]]; cbn [reset_step] in Hreset;
      try discriminate Hreset; injection Hreset as <-.
    + split; intros Hx; rewrite list_lookup_insert_ne in Hx by lia;
        first [exact (Hph Hx) | exact (Hidx Hx)].
    + split.
      * intros _ p tile d' Ht. unfold set_passHistogram. cbn.
        rewrite fn_lookup_insert. cbn. rewrite decide_True by exact Ht.
        reflexivity.
      * intros Hx. rewrite list_lookup_insert_ne in Hx by lia.
        exact (Hidx Hx).
    + split.
      * intros Hx. rewrite list_lookup_insert_ne in Hx by lia.
        exact (Hph Hx).
      * intros _ p. rewrite tileIndex_set. reflexivity.
  - (* Global histogram *)
    destruct wg; try discriminate Hstep. injection Hstep as <- <-.
    destruct Hr as (Hlen & Hs & Hf).
    split; [rewrite length_insert; exact Hlen|].
    split; [apply Forall_simple_retire, Hs|].
    eapply fresh_from_same; [| |exact Hf]; reflexivity.
  - (* Scan *)
    destruct wg; try discriminate Hstep. injection Hstep as <- <-.
    destruct Hr as (Hlen & Hs & Hf).
    split; [rewrite length_insert; exact Hlen|].
    split; [apply Forall_simple_retire, Hs|].
    eapply fresh_from_same; [| |exact Hf]; [reflexivity|].
    unfold scan_step, set_passHistogram. cbn. rewrite fn_lookup_insert.
    reflexivity.
  - (* a digit-binning pass *)
    destruct Hr as (Hf & cnt & Hinv).
    destruct (binning_step_frame _ _ _ _ _ _ _ _ _ _ _ _ _ _ Hstep)
      as (Hidx & Hpub & _). cbn zeta in Hidx, Hpub.
    rewrite pass_of_shift in Hidx, Hpub.
    split.
    { intros p Hp'. destruct (Hf p Hp') as [Hi Hn].
      rewrite Hidx by lia. split; [exact Hi|].
      intros tile d' Ht. rewrite Hpub by lia. apply Hn. exact Ht. }
    set (c0 := tileIndex m (m_indexBuffer s)
                 (Z.to_nat (shift_of_pass pass / 8))).
    set (loaded_count := fun d' =>
           count_digit (shift_of_pass pass) d'
             (slice (PART_SIZE K) (Z.to_nat (m_numKeys s)) c0
                (words m (srcKeys (pass_roles s pass))))).
    exists (fun u d' => if decide (u = c0) then loaded_count d' else cnt u d').
    eapply binning_inv_step; [|exact Hw|exact Hstep|].
    + eapply binning_inv_ext; [|exact Hinv].
      intros u d' Hu. fold c0 in Hu. rewrite decide_False by lia.
      reflexivity.
    + intros _ d' Hd'. fold c0. rewrite decide_True by reflexivity.
      reflexivity.
Qed.

Lemma protocol_exit (s : OneSweep) (j : nat) (c : command)
    (bs : list buffer) (wgs : list workgroup) (m : memory) :
  sort_phases s !! j = Some (c, bs) -> protocol_running s j wgs m ->
  forallb complete wgs = true -> protocol_quiet s (S j) m.
Proof.
  intros Hj Hr Hdone.
  destruct (sort_phases_lookup s j c bs Hj)
    as [(-> & -> & _) | [(-> & -> & _) | [(-> & -> & _)
       | (pass & Hp & -> & [= -> _])]]];
    cbn [protocol_running protocol_quiet Nat.sub] in *.
  - destruct Hr as (Hlen & Hs & Hph & Hidx).
    destruct (lookup_lt_is_Some_2 wgs 1) as [wg1 H1]; [lia|].
    destruct (lookup_lt_is_Some_2 wgs 2) as [wg2 H2]; [lia|].
    pose proof (simple_complete _ _ _ Hs Hdone H1) as ->.
    pose proof (simple_complete _ _ _ Hs Hdone H2) as ->.
    intros p _. split; [apply Hidx, H2|].
    intros tile d Ht. apply Hph; [exact H1 | exact Ht].
  - apply Hr.
  - apply Hr.
  - apply Hr.
Qed.

Lemma widest_dispatch_bounds (s : OneSweep) :
  (3 <= widest_dispatch s)%nat
  /\ (Z.to_nat (m_globalHistPartitions s) <= widest_dispatch s)%nat
  /\ (Z.to_nat (k_radixPasses (base s)) <= widest_dispatch s)%nat
  /\ (Z.to_nat (m_partitions s) <= widest_dispatch s)%nat.
Proof. unfold widest_dispatch. lia. Qed.

Lemma simple_progress (wgs : list workgroup) :
  Forall simple wgs -> forallb complete wgs = false ->
  exists w : nat, wgs !! w = Some Waiting.
Proof.
  intros Hs Hnot.
  destruct (forallb_false_lookup _ _ Hnot) as (w & wg & Hw & Hwg).
  rewrite Forall_lookup in Hs. destruct (Hs _ _ Hw) as [-> | ->];
    [eauto | discriminate Hwg].
Qed.

(** Under the protocol invariant a dispatch that has not finished has a
    work-group and a digit whose step is enabled: in a digit-binning pass,
    a lane that polls in vain polls the slot of a tile that has been
    handed out, and the lane of that tile can publish its local count. *)
Lemma protocol_progress (K : kernel_constants) (s : OneSweep) (j : nat)
    (c : command) (bs : list buffer) (wgs : list workgroup) (m : memory) :
  sort_phases s !! j = Some (c, bs) -> protocol_running s j wgs m ->
  forallb complete wgs = false ->
  exists (w d : nat) (wg : workgroup),
    (w < widest_dispatch s)%nat /\ (d < RADIX)%nat /\ wgs !! w = Some wg
    /\ is_Some (workgroup_step K c w d wg m).
Proof.
  intros Hj Hr Hnot.
  destruct (widest_dispatch_bounds s) as (W3 & WG & WR & WP).
  assert (H0 : (0 < RADIX)%nat) by (unfold RADIX; lia).
  destruct (sort_phases_lookup s j c bs Hj)
    as [(-> & -> & _) | [(-> & -> & _) | [(-> & -> & _)
       | (pass & Hp & -> & [= -> _])]]];
    cbn [workgroup_step protocol_running] in *.
  - destruct Hr as (Hlen & Hs & _).
    destruct (simple_progress _ Hs Hnot) as [w Hw].
    pose proof (lookup_lt_Some _ _ _ Hw) as Hwl.
    exists w, 0%nat, Waiting. split; [lia|]. split; [exact H0|].
    split; [exact Hw|].
    destruct w as [|[|[|w]]]; cbn; eauto. lia.
  - destruct Hr as (Hlen & Hs & _).
    destruct (simple_progress _ Hs Hnot) as [w Hw].
    pose proof (lookup_lt_Some _ _ _ Hw) as Hwl.
    exists w, 0%nat, Waiting. split; [lia|]. split; [exact H0|].
    split; [exact Hw | eauto].
  - destruct Hr as (Hlen & Hs & _).
    destruct (simple_progress _ Hs Hnot) as [w Hw].
    pose proof (lookup_lt_Some _ _ _ Hw) as Hwl.
    exists w, 0%nat, Waiting. split; [lia|]. split; [exact H0|].
    split; [exact Hw | eauto].
  - destruct Hr as (_ & cnt & Hinv).
    destruct (binning_step_progress (PART_SIZE K)
                (srcKeys (pass_roles s pass)) (dstKeys (pass_roles s pass))
                (srcPayload (pass_roles s pass))
                (dstPayload (pass_roles s pass))
                _ _ (Z.to_nat (m_numKeys s)) _ _ cnt wgs m Hinv Hnot)
      as (w & d & wg & Hw & Hd & Hwg & Hsome).
    exists w, d, wg. split; [lia|]. auto.
Qed.

Lemma retire_work (wgs : list workgroup) (w : nat) :
  wgs !! w = Some Waiting ->
  (dispatch_work (<[w := Retired]> wgs) < dispatch_work wgs)%nat.
Proof.
  intros Hw. unfold dispatch_work. rewrite length_insert.
  pose proof (sum_list_with_insert (workgroup_work (length wgs)) wgs w
                Waiting Retired Hw) as H.
  cbn [workgroup_work] in H. lia.
Qed.

Lemma protocol_decrease (K : kernel_constants) (s : OneSweep) (j : nat)
    (c : command) (bs : list buffer) (wgs : list workgroup) (m : memory)
    (w d : nat) (wg wg' : workgroup) (m' : memory) :
  sort_phases s !! j = Some (c, bs) -> protocol_running s j wgs m ->
  wgs !! w = Some wg ->
  workgroup_step K c w d wg m = Some (wg', m') ->
  (dispatch_work (<[w := wg']> wgs) < dispatch_work wgs)%nat.
Proof.
  intros Hj Hr Hw Hstep.
  destruct (sort_phases_lookup s j c bs Hj)
    as [(-> & -> & _) | [(-> & -> & _) | [(-> & -> & _)
       | (pass & Hp & -> & [= -> _])]]];
    cbn [workgroup_step protocol_running] in *.
  - destruct wg; try discriminate Hstep.
    destruct (reset_step _ _ _ _ w m); [|discriminate Hstep].
    injection Hstep as <- <-. apply retire_work, Hw.
  - destruct wg; try discriminate Hstep. injection Hstep as <- <-.
    apply retire_work, Hw.
  - destruct wg; try discriminate Hstep. injection Hstep as <- <-.
    apply retire_work, Hw.
  - destruct Hr as (_ & cnt & Hinv).
    eapply binning_step_work; eassumption.
Qed.

Lemma protocol_submit (s : OneSweep) (keys payload : list Z) (m : memory) :
  serial_inv (sort_phases s) (protocol_quiet s) (protocol_running s)
    (submit s keys payload m).
Proof.
  exists 0%nat, []. split; [lia|]. left. cbn.
  split; [reflexivity|]. split; [apply emitted_phases | exact I].
Qed.

Lemma protocol_inv_step (K : kernel_constants) (s : OneSweep) (ch : choice)
    (g : gpu) :
  serial_inv (sort_phases s) (protocol_quiet s) (protocol_running s) g ->
  serial_inv (sort_phases s) (protocol_quiet s) (protocol_running s)
    (gpu_step K ch g).
Proof.
  apply serial_inv_step.
  - apply sort_phases_guarded.
  - apply protocol_init.
  - apply protocol_step.
  - apply protocol_exit.
Qed.

Lemma gpu_work_submit (s : OneSweep) (keys payload : list Z) (m : memory) :
  gpu_work (submit s keys payload m) = rounds_needed s.
Proof. unfold gpu_work, rounds_needed. cbn. lia. Qed.

(** Whatever the sorter and the memory, a sort call completes under every
    schedule of enough fair rounds. *)
Lemma sort_completes (K : kernel_constants) (s : OneSweep)
    (keys payload : list Z) (m : memory) (rounds : list (list choice)) :
  Forall (fair_round 1 (widest_dispatch s)) rounds ->
  (rounds_needed s <= length rounds)%nat ->
  gpu_idle (gpu_run K (mjoin rounds) (submit s keys payload m)) = true.
Proof.
  intros Hfair Hlen.
  eapply (fair_rounds_idle K (sort_phases s) (protocol_quiet s)
            (protocol_running s) (widest_dispatch s)).
  - apply sort_phases_guarded.
  - apply protocol_progress.
  - apply protocol_decrease.
  - apply protocol_inv_step.
  - apply protocol_submit.
  - exact Hfair.
  - rewrite gpu_work_submit. exact Hlen.
Qed.

(** ** Tiles and stable positions *)

Lemma tiles_before_slices (radixShift : Z) (partSize : nat) (l : list Z)
    (tile d : nat) :
  tiles_before
    (fun u d' => count_digit radixShift d' (slice partSize (length l) u l))
    tile d
  = count_digit radixShift d (take (tile * partSize) l).
Proof.
  induction tile as [|tile IH]; [reflexivity|].
  rewrite tiles_before_S, IH, slice_full, <- count_digit_app.
  rewrite take_take_drop. f_equal. f_equal. lia.
Qed.

Lemma tile_destinations (radixShift : Z) (partSize : nat) (l : list Z)
    (tile : nat) (offsets excl : nat -> nat) :
  (forall d, (d < RADIX)%nat ->
     offsets d = exclusive_scan (fun d' => count_digit radixShift d' l) d) ->
  (forall d, (d < RADIX)%nat ->
     excl d = count_digit radixShift d (take (tile * partSize) l)) ->
  destinations radixShift offsets excl (slice partSize (length l) tile l)
  = take partSize (drop (tile * partSize) (stable_positions radixShift l)).
Proof.
  intros Hoff Hexcl. unfold destinations. rewrite slice_full.
  rewrite (tile_positions partSize radixShift offsets excl l tile Hexcl).
  rewrite (binning_positions_stable radixShift offsets l Hoff). reflexivity.
Qed.

Lemma lookup_tile {B : Type} (partSize tile jj : nat) (l : list B) (x : B) :
  take partSize (drop (tile * partSize) l) !! jj = Some x <->
  (jj < partSize)%nat /\ l !! (tile * partSize + jj)%nat = Some x.
Proof. rewrite lookup_take_Some, lookup_drop. tauto. Qed.

Lemma NoDup_tile (radixShift : Z) (partSize tile : nat) (l : list Z) :
  NoDup (take partSize
           (drop (tile * partSize) (stable_positions radixShift l))).
Proof.
  eapply sublist_NoDup; [apply NoDup_stable_positions|].
  etransitivity; [apply sublist_take | apply sublist_drop].
Qed.

(** Scattering one tile puts its values at their stable positions and
    leaves the slots of all other keys alone. *)
Lemma scatter_tile {B : Type} (radixShift : Z) (partSize tile : nat)
    (l : list Z) (vals out : list B) :
  length vals = length l -> length out = length l ->
  let dests := take partSize
                 (drop (tile * partSize) (stable_positions radixShift l)) in
  let out' :=
    scatter dests (take partSize (drop (tile * partSize) vals)) out in
  (forall (i : nat) (key : Z) (v : B),
     (tile * partSize <= i < S tile * partSize)%nat ->
     l !! i = Some key -> vals !! i = Some v ->
     out' !! stable_position radixShift l i key = Some v)
  /\ (forall (i : nat) (key : Z),
        ~ (tile * partSize <= i < S tile * partSize)%nat ->
        l !! i = Some key ->
        out' !! stable_position radixShift l i key
        = out !! stable_position radixShift l i key).
Proof.
  intros Hvals Hout. cbn zeta. split.
  - intros i key v Hi Hkey Hv.
    apply scatter_lookup with (i := (i - tile * partSize)%nat).
    + apply NoDup_tile.
    + apply lookup_tile. split; [lia|].
      replace (tile * partSize + (i - tile * partSize))%nat with i by lia.
      apply lookup_stable_positions. eauto.
    + apply lookup_tile. split; [lia|].
      replace (tile * partSize + (i - tile * partSize))%nat with i by lia.
      exact Hv.
    + rewrite Hout. apply stable_position_bound. exact Hkey.
  - intros i key Hi Hkey. apply scatter_lookup_other.
    intros Hin. apply list_elem_of_lookup in Hin as [jj Hjj].
    apply lookup_tile in Hjj as [Hjj Hpos].
    assert (Hi' : stable_positions radixShift l !! i
                  = Some (stable_position radixShift l i key))
      by (apply lookup_stable_positions; eauto).
    pose proof (NoDup_lookup _ _ _ _ (NoDup_stable_positions radixShift l)
                  Hpos Hi') as Heq.
    lia.
Qed.

(** When every record is at its stable position, the buffers hold the
    stable sort. *)
Lemma scattered_all (radixShift : Z) (l : list (Z * Z))
    (outKeys outPayload : list Z) :
  length outKeys = length l -> length outPayload = length l ->
  (forall (i : nat) (x : Z * Z), l !! i = Some x ->
     outKeys !! stable_position radixShift (l.*1) i x.1 = Some x.1
     /\ outPayload !! stable_position radixShift (l.*1) i x.1 = Some x.2) ->
  outKeys = (stable_sort_by_digit radixShift l).*1
  /\ outPayload = (stable_sort_by_digit radixShift l).*2.
Proof.
  intros HlenK HlenP Hall.
  assert (Hslot : forall q, (q < length l)%nat ->
            exists i x, l !! i = Some x
                        /\ q = stable_position radixShift (l.*1) i x.1).
  { intros q Hq.
    assert (Hin : q ∈ stable_positions radixShift (l.*1)).
    { rewrite stable_positions_perm, length_fmap. apply elem_of_seq. lia. }
    apply list_elem_of_lookup in Hin as [i Hi].
    apply lookup_stable_positions in Hi as (key & Hkey & ->).
    apply list_lookup_fmap_Some in Hkey as (x & -> & Hx). eauto. }
  split.
  - apply (list_eq_same_length _ _ (length l));
      [rewrite length_fmap; apply length_stable_sort_by_digit | exact HlenK|].
    intros q a b Hq Ha Hb. destruct (Hslot q Hq) as (i & x & Hx & ->).
    destruct (Hall i x Hx) as [HK _]. rewrite HK in Ha. injection Ha as <-.
    rewrite list_lookup_fmap, (stable_position_lookup radixShift l i x Hx)
      in Hb.
    injection Hb as <-. reflexivity.
  - apply (list_eq_same_length _ _ (length l));
      [rewrite length_fmap; apply length_stable_sort_by_digit | exact HlenP|].
    intros q a b Hq Ha Hb. destruct (Hslot q Hq) as (i & x & Hx & ->).
    destruct (Hall i x Hx) as [_ HP]. rewrite HP in Ha. injection Ha as <-.
    rewrite list_lookup_fmap, (stable_position_lookup radixShift l i x Hx)
      in Hb.
    injection Hb as <-. reflexivity.
Qed.

Lemma passes_done_perm (pass : nat) (l : list (Z * Z)) :
  passes_done pass l ≡ₚ l.
Proof.
  induction pass as [|pass IH]; [reflexivity|]. cbn [passes_done].
  rewrite stable_sort_by_digit_perm. exact IH.
Qed.

Lemma passes_done_length (pass : nat) (l : list (Z * Z)) :
  length (passes_done pass l) = length l.
Proof. rewrite passes_done_perm. reflexivity. Qed.

Lemma passes_done_4 (l : list (Z * Z)) : passes_done 4 l = reference_sort l.
Proof.
  unfold reference_sort. cbn [passes_done].
  change (shift_of_pass 3) with 24. change (shift_of_pass 2) with 16.
  change (shift_of_pass 1) with 8. change (shift_of_pass 0) with 0.
  reflexivity.
Qed.

Lemma holds_length (m : memory) (b bP : buffer) (l : list (Z * Z)) :
  holds m b bP l ->
  length (words m b) = length l /\ length (words m bP) = length l.
Proof. intros [-> ->]. rewrite !length_fmap. auto. Qed.

(** ** The data invariant of a sort call *)

Lemma pass_roles_S (s : OneSweep) (pass : nat) :
  pass_roles s (S pass) = swap_roles (pass_roles s pass).
Proof. reflexivity. Qed.

Lemma sum_list_with_zero {A : Type} (f : A -> nat) (l : list A) :
  (forall x, x ∈ l -> f x = 0%nat) -> sum_list_with f l = 0%nat.
Proof.
  intros H. rewrite (sum_list_with_ext_in f (fun _ => 0%nat) l H).
  rewrite sum_list_with_const. lia.
Qed.

(** The invariant on the data, for a sorter over four distinct key and
    payload buffers whose counts fit the input [keys], [payload] (the keys
    as they are in memory, after the key transform). *)
Section data.
Context (K : kernel_constants) (s : OneSweep) (keys payload : list Z).

Hypothesis buffers_distinct4 :
  NoDup [m_sortBuffer s; m_altBuffer s;
         m_sortPayloadBuffer s; m_altPayloadBuffer s].
Hypothesis numKeys_length : m_numKeys s = Z.of_nat (length keys).
Hypothesis payload_length : length payload = length keys.
Hypothesis partitions_cover :
  (length keys <= Z.to_nat (m_partitions s) * PART_SIZE K)%nat.
Hypothesis globalHistPartitions_cover :
  (length keys
   <= Z.to_nat (m_globalHistPartitions s) * G_HIST_PART_SIZE K)%nat.
Hypothesis four_passes : k_radixPasses (base s) = 4.

Lemma pass_roles_distinct (pass : nat) :
  let r := pass_roles s pass in
  srcKeys r <> dstKeys r /\ srcKeys r <> dstPayload r
  /\ srcPayload r <> dstKeys r /\ srcPayload r <> dstPayload r
  /\ dstKeys r <> dstPayload r /\ srcKeys r <> srcPayload r.
Proof.
  induction pass as [|pass IH].
  - destruct (NoDup_four _ _ _ _ buffers_distinct4)
      as (H1 & H2 & H3 & H4 & H5 & H6). cbn. repeat split; congruence.
  - rewrite pass_roles_S. cbn zeta in *. cbn [swap_roles srcKeys dstKeys
      srcPayload dstPayload]. destruct IH as (H1 & H2 & H3 & H4 & H5 & H6).
    repeat split; congruence.
Qed.

Lemma zip_keys : (zip keys payload).*1 = keys.
Proof. apply fst_zip. lia. Qed.

Lemma zip_payload : (zip keys payload).*2 = payload.
Proof. apply snd_zip. lia. Qed.

Lemma passes_done_keys_length (pass : nat) :
  length (passes_done pass (zip keys payload)).*1 = length keys.
Proof.
  rewrite length_fmap, passes_done_length, length_zip. lia.
Qed.

Lemma passes_done_payload_length (pass : nat) :
  length (passes_done pass (zip keys payload)).*2 = length keys.
Proof.
  rewrite length_fmap, passes_done_length, length_zip. lia.
Qed.

Lemma passes_done_count (pass : nat) (radixShift : Z) (d : nat) :
  count_digit radixShift d (passes_done pass (zip keys payload)).*1
  = count_digit radixShift d keys.
Proof.
  apply count_digit_perm. rewrite passes_done_perm, zip_keys. reflexivity.
Qed.

Lemma tile_count_before (pass tile d : nat) :
  tiles_before (tile_count K keys payload pass) tile d
  = count_digit (shift_of_pass pass) d
      (take (tile * PART_SIZE K)
         (passes_done pass (zip keys payload)).*1).
Proof.
  unfold tile_count. rewrite <- (passes_done_keys_length pass).
  apply tiles_before_slices.
Qed.

(** A phase that is put in flight from a quiet state starts in its
    running invariant. *)
Lemma data_init (j : nat) (c : command) (bs : list buffer) (m : memory) :
  sort_phases s !! j = Some (c, bs) ->
  data_quiet s keys payload j m ->
  data_running K s keys payload j (spawn c) m.
Proof.
  intros Hj [Hq Hd].
  pose proof (protocol_init s j c bs m Hj Hq) as Hp.
  destruct (sort_phases_lookup s j c bs Hj)
    as [(-> & -> & _) | [(-> & -> & _) | [(-> & -> & _)
       | (pass & Hpass & -> & [= -> _])]]];
    cbn [spawn data_running data_quiet] in *.
  - split; [exact Hp|]. split; [exact Hd | discriminate].
  - destruct Hd as [Hl Hz]. split; [exact Hp|]. split; [exact Hl|].
    intros p d. rewrite Hz. symmetry. apply sum_list_with_zero.
    intros w Hw. destruct (replicate _ Waiting !! w) as [wg|] eqn:Hwg;
      [|reflexivity].
    apply lookup_replicate in Hwg as [-> _]. reflexivity.
  - destruct Hd as [Hl Hc]. split; [exact Hp|]. split; [exact Hl|].
    rewrite four_passes. split; [reflexivity|].
    intros p Hp4. split.
    + intros _ d. apply Hc.
    + intros Hw. apply lookup_replicate in Hw as [Hw _]. discriminate Hw.
  - destruct Hp as [Hf _]. split; [exact Hf|].
    cbn in Hq. rewrite Nat.sub_0_r in Hq.
    split; [apply binning_inv_init; exact Hq|].
    destruct Hd as (Hsrc & Hother & Hseed).
    unfold binning_data.
    split; [exact Hsrc|].
    assert (Hlens : length (words m (dstKeys (pass_roles s pass)))
                    = length keys
                    /\ length (words m (dstPayload (pass_roles s pass)))
                       = length keys).
    { destruct pass as [|prev]; cbn [other_pair] in Hother; [exact Hother|].
      apply holds_length in Hother. rewrite passes_done_length in Hother.
      rewrite length_zip in Hother. lia. }
    split; [apply Hlens|]. split; [apply Hlens|]. split; [exact Hseed|].
    split.
    + intros w tile ks ps lanes Hw.
      apply lookup_replicate in Hw as [Hw _]. discriminate Hw.
    + intros w tile Hw. apply lookup_replicate in Hw as [Hw _].
      discriminate Hw.
Qed.

Lemma seeded_offsets (pass : nat) (m : memory) :
  (pass < 4)%nat -> seeded s keys m ->
  forall d, (d < RADIX)%nat ->
    seed (passHistogram m (m_passHistBuffer s)) pass d
    = exclusive_scan
        (fun d' => count_digit (shift_of_pass pass) d'
                     (passes_done pass (zip keys payload)).*1) d.
Proof.
  intros Hp Hseed d Hd. rewrite (Hseed pass d Hp Hd).
  apply exclusive_scan_ext. intros d' _. symmetry. apply passes_done_count.
Qed.

(** A step of a digit-binning group keeps the data of the pass: a group
    that starts loads the slice of its tile; a lane step touches no key; a
    group that scatters has settled, for every digit, on the count of the
    digit in the tiles before its own, so that its records go to their
    stable positions, where no other tile writes. *)
Lemma binning_data_step (pass : nat) (wgs : list workgroup) (m m' : memory)
    (w d : nat) (wg wg' : workgroup) :
  (pass < 4)%nat ->
  let r := pass_roles s pass in
  binning_inv (m_passHistBuffer s) (m_indexBuffer s)
    (Z.to_nat (m_partitions s)) (shift_of_pass pass)
    (tile_count K keys payload pass) wgs m ->
  binning_data K s keys payload pass wgs m ->
  wgs !! w = Some wg ->
  binning_step (PART_SIZE K) (srcKeys r) (dstKeys r) (srcPayload r)
    (dstPayload r) (m_indexBuffer s) (m_passHistBuffer s)
    (Z.to_nat (m_numKeys s)) (shift_of_pass pass) d wg m = Some (wg', m') ->
  binning_data K s keys payload pass (<[w := wg']> wgs) m'.
Proof.
  intros Hpass r Hinv Hdata Hw Hstep.
  destruct (pass_roles_distinct pass) as (N1 & N2 & N3 & N4 & N5 & N6).
  fold r in N1, N2, N3, N4, N5, N6.
  destruct (binning_step_frame _ _ _ _ _ _ _ _ _ _ _ _ _ _ Hstep)
    as (_ & _ & Hseed' & Hwords).
  pose proof Hdata as (Hsrc & HlenK & HlenP & Hseed & Hrun & Hdone).
  fold r in Hsrc, HlenK, HlenP, Hrun, Hdone.
  set (l := passes_done pass (zip keys payload)) in *.
  assert (Hsrc' : holds m' (srcKeys r) (srcPayload r) l).
  { destruct Hsrc as [H1 H2]. split; rewrite Hwords by auto; assumption. }
  assert (Hseeded' : seeded s keys m').
  { unfold seeded. rewrite Hseed'. exact Hseed. }
  rewrite numKeys_length, Nat2Z.id in Hstep.
  unfold binning_step in Hstep.
  destruct wg as [|tile ks ps lanes|tile|]; try discriminate Hstep.
  - (* the group starts: memory keeps its words *)
    injection Hstep as <- <-.
    unfold binning_data. fold r l.
    split; [exact Hsrc'|]. split; [exact HlenK|]. split; [exact HlenP|].
    split; [exact Hseeded'|]. split.
    + intros w' t ks ps lanes Hw'.
      apply list_lookup_insert_Some in Hw' as [(-> & Heq & _) | (Hne & Hw')].
      * injection Heq as <- <- <- <-. destruct Hsrc as [-> ->].
        split; reflexivity.
      * exact (Hrun _ _ _ _ _ Hw').
    + intros w' t Hw'.
      apply list_lookup_insert_Some in Hw' as [(-> & Heq & _) | (Hne & Hw')];
        [discriminate Heq|].
      exact (Hdone _ _ Hw').
  - destruct (mapM (fun d' => settled (lanes d')) (seq 0 RADIX))
      as [prefixes|] eqn:HM.
    + (* the group scatters *)
      injection Hstep as <- <-.
      destruct (Hrun _ _ _ _ _ Hw) as [-> ->].
      pose proof Hinv as (_ & _ & _ & Hlanes & _).
      assert (Hexcl : forall d', (d' < RADIX)%nat ->
                default 0%nat (prefixes !! d')
                = count_digit (shift_of_pass pass) d'
                    (take (tile * PART_SIZE K) (l.*1))).
      { intros d' Hd'. destruct (Hlanes _ _ _ _ _ Hw d' Hd') as [_ Hlane].
        rewrite (mapM_settled _ _ _ HM Hd') in Hlane.
        destruct Hlane as [_ ->]. apply tile_count_before. }
      rewrite pass_of_shift.
      assert (Hdests :
        destinations (shift_of_pass pass)
          (seed (passHistogram m (m_passHistBuffer s)) pass)
          (fun d' => default 0%nat (prefixes !! d'))
          (slice (PART_SIZE K) (length keys) tile (l.*1))
        = take (PART_SIZE K)
            (drop (tile * PART_SIZE K)
               (stable_positions (shift_of_pass pass) (l.*1)))).
      { rewrite <- (passes_done_keys_length pass). fold l.
        apply tile_destinations; [|exact Hexcl].
        apply seeded_offsets; assumption. }
      rewrite Hdests.
      replace (slice (PART_SIZE K) (length keys) tile (l.*1))
        with (take (PART_SIZE K) (drop (tile * PART_SIZE K) (l.*1)))
        by (rewrite <- (passes_done_keys_length pass); fold l;
            symmetry; apply slice_full).
      replace (slice (PART_SIZE K) (length keys) tile (l.*2))
        with (take (PART_SIZE K) (drop (tile * PART_SIZE K) (l.*2)))
        by (rewrite <- (passes_done_payload_length pass); fold l;
            symmetry; apply slice_full).
      assert (Hl1 : length (l.*1) = length keys)
        by apply passes_done_keys_length.
      assert (Hl2 : length (l.*2) = length keys)
        by apply passes_done_payload_length.
      destruct (scatter_tile (shift_of_pass pass) (PART_SIZE K) tile (l.*1)
                  (l.*1) (words m (dstKeys r)) eq_refl ltac:(lia))
        as [HKin HKout].
      destruct (scatter_tile (shift_of_pass pass) (PART_SIZE K) tile (l.*1)
                  (l.*2) (words m (dstPayload r)) ltac:(lia) ltac:(lia))
        as [HPin HPout].
      cbn zeta in HKin, HKout, HPin, HPout.
      unfold binning_data. fold r l. unfold holds, set_words.
      cbn [words passHistogram].
      rewrite !fn_lookup_insert.
      rewrite !(fn_lookup_insert_ne _ (dstPayload r) (dstKeys r)) by auto.
      rewrite !(fn_lookup_insert_ne _ (dstPayload r) (srcKeys r)) by auto.
      rewrite !(fn_lookup_insert_ne _ (dstPayload r) (srcPayload r)) by auto.
      rewrite !(fn_lookup_insert_ne _ (dstKeys r) (srcKeys r)) by auto.
      rewrite !(fn_lookup_insert_ne _ (dstKeys r) (srcPayload r)) by auto.
      rewrite !fn_lookup_insert.
      split; [exact Hsrc|].
      split; [rewrite length_scatter; exact HlenK|].
      split; [rewrite length_scatter; exact HlenP|].
      split; [exact Hseed|]. split.
      * intros w' t ks ps lanes' Hw'.
        apply list_lookup_insert_Some in Hw'
          as [(-> & Heq & _) | (Hne & Hw')]; [discriminate Heq|].
        exact (Hrun _ _ _ _ _ Hw').
      * intros w' t Hw' i x Hi Hx.
        assert (Hx1 : l.*1 !! i = Some x.1)
          by (rewrite list_lookup_fmap, Hx; reflexivity).
        assert (Hx2 : l.*2 !! i = Some x.2)
          by (rewrite list_lookup_fmap, Hx; reflexivity).
        apply list_lookup_insert_Some in Hw'
          as [(-> & Heq & _) | (Hne & Hw')].
        -- injection Heq as <-.
           split; [exact (HKin i x.1 x.1 Hi Hx1 Hx1)
                  | exact (HPin i x.1 x.2 Hi Hx1 Hx2)].
        -- assert (Htt : t <> tile).
           { intros ->. apply Hne.
             eapply binning_inv_tiles_inj;
               [exact Hinv | exact Hw | exact Hw' | reflexivity
               | reflexivity]. }
           assert (Hout : ~ (tile * PART_SIZE K <= i
                             < S tile * PART_SIZE K)%nat) by nia.
           rewrite (HKout i x.1 Hout Hx1), (HPout i x.1 Hout Hx1).
           exact (Hdone _ _ Hw' i x Hi Hx).
    + (* a lane steps: memory keeps its words *)
      destruct (decide (d < RADIX)%nat); [|discriminate Hstep].
      destruct (lane_step _ tile _ (lanes d)) as [[ln written]|];
        [|discriminate Hstep].
      injection Hstep as <- <-.
      assert (Hsame : forall b,
                words match written with
                      | Some e =>
                          publish (m_passHistBuffer s)
                            (Z.to_nat (shift_of_pass pass / 8)) tile d e m
                      | None => m
                      end b = words m b)
        by (intros b; destruct written; reflexivity).
      unfold binning_data. fold r l. rewrite !Hsame.
      split; [exact Hsrc'|]. split; [exact HlenK|]. split; [exact HlenP|].
      split; [exact Hseeded'|]. split.
      * intros w' t ks' ps' lanes' Hw'.
        apply list_lookup_insert_Some in Hw'
          as [(-> & Heq & _) | (Hne & Hw')].
        -- injection Heq as <- <- <- <-. exact (Hrun _ _ _ _ _ Hw).
        -- exact (Hrun _ _ _ _ _ Hw').
      * intros w' t Hw'.
        apply list_lookup_insert_Some in Hw'
          as [(-> & Heq & _) | (Hne & Hw')]; [discriminate Heq|].
        exact (Hdone _ _ Hw').
Qed.

Lemma loaded_keys (m : memory) :
  loaded s keys payload m -> words m (m_sortBuffer s) = keys.
Proof. intros [[H _] _]. rewrite H. apply zip_keys. Qed.

(** Every step of a work-group keeps the running invariant. *)
Lemma data_step (j : nat) (c : command) (bs : list buffer)
    (wgs : list workgroup) (m : memory) (w d : nat) (wg wg' : workgroup)
    (m' : memory) :
  sort_phases s !! j = Some (c, bs) ->
  data_running K s keys payload j wgs m ->
  wgs !! w = Some wg ->
  workgroup_step K c w d wg m = Some (wg', m') ->
  data_running K s keys payload j (<[w := wg']> wgs) m'.
Proof.
  intros Hj Hr Hw Hstep.
  destruct (sort_phases_lookup s j c bs Hj)
    as [(-> & -> & _) | [(-> & -> & _) | [(-> & -> & _)
       | (pass & Hpass & -> & [= -> _])]]];
    cbn [data_running] in *.
  - (* Reset *)
    destruct Hr as (Hp & Hl & Hz).
    split; [eapply protocol_step; eassumption|].
    cbn [workgroup_step] in Hstep.
    destruct wg; try discriminate Hstep.
    destruct (reset_step _ _ _ _ w m) as [m1|] eqn:Hreset;
      [|discriminate Hstep].
    injection Hstep as <- <-.
    destruct w as [|[|[|w]]]; cbn [reset_step] in Hreset;
      try discriminate Hreset; injection Hreset as <-.
    + split; [exact Hl|]. intros _ p d'. unfold set_globalHistogram. cbn.
      rewrite fn_lookup_insert. reflexivity.
    + split; [exact Hl|]. intros Hx.
      rewrite list_lookup_insert_ne in Hx by lia. exact (Hz Hx).
    + split; [exact Hl|]. intros Hx.
      rewrite list_lookup_insert_ne in Hx by lia. exact (Hz Hx).
  - (* Global histogram *)
    destruct Hr as (Hp & Hl & Hsum).
    split; [eapply protocol_step; eassumption|].
    cbn [workgroup_step] in Hstep.
    destruct wg; try discriminate Hstep. injection Hstep as <- <-.
    split; [exact Hl|]. intros p d'.
    unfold global_hist_step, set_globalHistogram. cbn.
    rewrite fn_lookup_insert, Hsum, (loaded_keys m Hl).
    rewrite numKeys_length, Nat2Z.id, length_insert.
    pose proof (lookup_lt_Some _ _ _ Hw) as Hwl.
    pose proof (sum_list_with_seq_at
                  (fun w0 =>
                     match wgs !! w0 with
                     | Some Retired =>
                         local_histogram
                           (slice (G_HIST_PART_SIZE K) (length keys) w0 keys)
                           p d'
                     | _ => 0%nat
                     end)
                  (fun w0 =>
                     match <[w := Retired]> wgs !! w0 with
                     | Some Retired =>
                         local_histogram
                           (slice (G_HIST_PART_SIZE K) (length keys) w0 keys)
                           p d'
                     | _ => 0%nat
                     end)
                  (length wgs) w Hwl) as Hat.
    cbn beta in Hat. rewrite Hw in Hat.
    rewrite list_lookup_insert_eq in Hat by exact Hwl.
    rewrite <- Hat; [lia|].
    intros w0 Hw0. rewrite list_lookup_insert_ne by auto. reflexivity.
  - (* Scan *)
    destruct Hr as (Hp & Hl & Hlen & Hrows).
    split; [eapply protocol_step; eassumption|].
    cbn [workgroup_step] in Hstep.
    destruct wg; try discriminate Hstep. injection Hstep as <- <-.
    split; [exact Hl|]. split; [rewrite length_insert; exact Hlen|].
    pose proof (lookup_lt_Some _ _ _ Hw) as Hwl.
    intros p Hp4. unfold scan_step, set_passHistogram, set_globalHistogram.
    cbn. rewrite !fn_lookup_insert. cbn.
    destruct (decide (p = w)) as [->|Hpw].
    + rewrite list_lookup_insert_eq by exact Hwl. split; [discriminate|].
      intros _ d' Hd'. rewrite fn_lookup_insert.
      apply exclusive_scan_ext. intros d0 _.
      apply (proj1 (Hrows w Hp4) Hw).
    + rewrite list_lookup_insert_ne by auto.
      rewrite !fn_lookup_insert_ne by auto. exact (Hrows p Hp4).
  - (* a digit-binning pass *)
    destruct Hr as (Hf & Hinv & Hdata).
    cbn [workgroup_step] in Hstep.
    split.
    { refine (proj1 (protocol_step K s (S (S (S pass))) _ _ wgs m w d wg wg'
                       m' Hj _ Hw Hstep)).
      cbn [protocol_running]. split; [exact Hf | eauto]. }
    split.
    { eapply binning_inv_step; [exact Hinv | exact Hw | exact Hstep|].
      intros _ d' Hd'. unfold tile_count.
      destruct Hdata as ([-> _] & _).
      rewrite numKeys_length, Nat2Z.id. reflexivity. }
    eapply binning_data_step; eassumption.
Qed.

(** When a digit-binning pass has finished, every tile has been handed
    out and scattered. *)
Lemma binning_inv_finished (pass : nat) (cnt : nat -> nat -> nat)
    (wgs : list workgroup) (m : memory) (tile : nat) :
  binning_inv (m_passHistBuffer s) (m_indexBuffer s)
    (Z.to_nat (m_partitions s)) (shift_of_pass pass) cnt wgs m ->
  forallb complete wgs = true ->
  (tile < Z.to_nat (m_partitions s))%nat ->
  exists w : nat, wgs !! w = Some (Scattered tile).
Proof.
  intros Hinv Hdone Ht.
  pose proof Hinv as (Hlen & Htiles & Hnr & _).
  assert (Hall : forall w wg, wgs !! w = Some wg ->
            exists t, wg = Scattered t).
  { intros w wg Hw. pose proof (forallb_lookup _ _ _ _ Hdone Hw) as Hc.
    rewrite Forall_lookup in Hnr. specialize (Hnr _ _ Hw).
    destruct wg; try discriminate Hc; [eauto | contradiction]. }
  assert (Hcount : length (omap workgroup_tile wgs) = length wgs).
  { clear -Hall. induction wgs as [|wg wgs' IH]; [reflexivity|].
    destruct (Hall 0%nat wg eq_refl) as [t ->]. unfold omap in *. simpl.
    f_equal. apply IH. intros w wg' Hw. exact (Hall (S w) wg' Hw). }
  rewrite Htiles, length_seq, Hlen in Hcount.
  destruct (binning_inv_owner _ _ _ _ _ wgs m tile Hinv ltac:(lia))
    as (w & wg & Hw & Htile).
  destruct (Hall w wg Hw) as [t ->]. injection Htile as ->. eauto.
Qed.

(** The records of a finished pass are all at their stable positions. *)
Lemma binning_data_finished (pass : nat) (wgs : list workgroup)
    (m : memory) :
  binning_inv (m_passHistBuffer s) (m_indexBuffer s)
    (Z.to_nat (m_partitions s)) (shift_of_pass pass)
    (tile_count K keys payload pass) wgs m ->
  binning_data K s keys payload pass wgs m ->
  forallb complete wgs = true ->
  let r := pass_roles s pass in
  let l := passes_done pass (zip keys payload) in
  holds m (srcKeys r) (srcPayload r) l
  /\ length (words m (dstKeys r)) = length keys
  /\ length (words m (dstPayload r)) = length keys
  /\ forall (i : nat) (x : Z * Z), l !! i = Some x ->
       words m (dstKeys r)
         !! stable_position (shift_of_pass pass) (l.*1) i x.1 = Some x.1
       /\ words m (dstPayload r)
            !! stable_position (shift_of_pass pass) (l.*1) i x.1
          = Some x.2.
Proof.
  intros Hinv Hdata Hdone. cbn zeta.
  destruct Hdata as (Hsrc & HlenK & HlenP & _ & _ & Hscattered).
  split; [exact Hsrc|]. split; [exact HlenK|]. split; [exact HlenP|].
  intros i x Hx.
  assert (Hi : (i < length keys)%nat).
  { apply lookup_lt_Some in Hx. rewrite passes_done_length in Hx.
    rewrite length_zip in Hx. lia. }
  assert (HP : (0 < PART_SIZE K)%nat) by nia.
  assert (Ht : (i / PART_SIZE K < Z.to_nat (m_partitions s))%nat).
  { apply Nat.Div0.div_lt_upper_bound. nia. }
  destruct (binning_inv_finished pass _ wgs m _ Hinv Hdone Ht) as [w Hw].
  apply (Hscattered w _ Hw i x); [|exact Hx].
  pose proof (Nat.div_mod_eq i (PART_SIZE K)) as Hdm.
  pose proof (Nat.mod_upper_bound i (PART_SIZE K)). nia.
Qed.

(** When the work-groups of a phase have finished, memory is as the next
    phase needs it. *)
Lemma data_exit (j : nat) (c : command) (bs : list buffer)
    (wgs : list workgroup) (m : memory) :
  sort_phases s !! j = Some (c, bs) ->
  data_running K s keys payload j wgs m ->
  forallb complete wgs = true ->
  data_quiet s keys payload (S j) m.
Proof.
  intros Hj Hr Hdone.
  destruct (sort_phases_lookup s j c bs Hj)
    as [(-> & -> & _) | [(-> & -> & _) | [(-> & -> & _)
       | (pass & Hpass & -> & [= -> _])]]];
    cbn [data_running] in *.
  - destruct Hr as (Hp & Hl & Hz).
    split; [eapply protocol_exit; eassumption|].
    cbn [data_quiet]. split; [exact Hl|].
    destruct Hp as (Hlen & Hs & _).
    destruct (lookup_lt_is_Some_2 wgs 0) as [wg0 H0]; [lia|].
    pose proof (simple_complete _ _ _ Hs Hdone H0) as ->.
    exact (Hz H0).
  - destruct Hr as (Hp & Hl & Hsum).
    split; [eapply protocol_exit; eassumption|].
    cbn [data_quiet]. split; [exact Hl|].
    destruct Hp as (Hlen & Hs & _).
    intros p d. rewrite Hsum, Hlen.
    rewrite (sum_list_with_ext_in _
               (fun u => count_digit (shift_of_pass p) d
                           (slice (G_HIST_PART_SIZE K) (length keys) u keys))).
    + pose proof (tiles_before_slices (shift_of_pass p) (G_HIST_PART_SIZE K)
                    keys (Z.to_nat (m_globalHistPartitions s)) d) as Hb.
      unfold tiles_before in Hb. rewrite Hb, take_ge by lia. reflexivity.
    + intros w Hw. apply elem_of_seq in Hw.
      destruct (lookup_lt_is_Some_2 wgs w) as [wg Hwg]; [lia|].
      pose proof (simple_complete _ _ _ Hs Hdone Hwg) as ->.
      rewrite Hwg. reflexivity.
  - destruct Hr as (Hp & Hl & Hlen & Hrows).
    split; [eapply protocol_exit; eassumption|].
    cbn [data_quiet]. unfold pass_ready. destruct Hl as (Hh & HlK & HlP).
    destruct Hp as (_ & Hs & _).
    split; [exact Hh|]. split; [split; assumption|].
    intros p d Hp4 Hd.
    destruct (lookup_lt_is_Some_2 wgs p) as [wg Hwg]; [lia|].
    pose proof (simple_complete _ _ _ Hs Hdone Hwg) as ->.
    exact (proj2 (Hrows p Hp4) Hwg d Hd).
  - destruct Hr as (Hf & Hinv & Hdata).
    split; [exact Hf|].
    cbn [data_quiet]. unfold pass_ready. rewrite pass_roles_S.
    cbn [swap_roles srcKeys dstKeys srcPayload dstPayload other_pair].
    destruct (binning_data_finished pass wgs m Hinv Hdata Hdone)
      as (Hsrc & HlenK & HlenP & Hall).
    split; [|split; [exact Hsrc | apply Hdata]].
    cbn [passes_done]. unfold holds.
    apply scattered_all; [| |exact Hall].
    + rewrite HlenK, passes_done_length, length_zip. lia.
    + rewrite HlenP, passes_done_length, length_zip. lia.
Qed.

Lemma data_inv_step (ch : choice) (g : gpu) :
  serial_inv (sort_phases s) (data_quiet s keys payload)
    (data_running K s keys payload) g ->
  serial_inv (sort_phases s) (data_quiet s keys payload)
    (data_running K s keys payload) (gpu_step K ch g).
Proof.
  apply serial_inv_step.
  - apply sort_phases_guarded.
  - apply data_init.
  - apply data_step.
  - apply data_exit.
Qed.

Lemma data_inv_run (schedule : list choice) (g : gpu) :
  serial_inv (sort_phases s) (data_quiet s keys payload)
    (data_running K s keys payload) g ->
  serial_inv (sort_phases s) (data_quiet s keys payload)
    (data_running K s keys payload) (gpu_run K schedule g).
Proof.
  apply serial_inv_run.
  - apply sort_phases_guarded.
  - apply data_init.
  - apply data_step.
  - apply data_exit.
Qed.

(** On an idle device the sort and payload buffers hold the input after
    the four passes. *)
Lemma data_inv_idle (g : gpu) :
  serial_inv (sort_phases s) (data_quiet s keys payload)
    (data_running K s keys payload) g ->
  gpu_idle g = true ->
  holds (mem g) (m_sortBuffer s) (m_sortPayloadBuffer s)
    (reference_sort (zip keys payload)).
Proof.
  intros Hg Hidle.
  pose proof (serial_inv_idle (sort_phases s) _ _ (sort_phases_guarded s) g
                Hg Hidle) as [_ Hq].
  cbn [length sort_phases app fmap list_fmap seq data_quiet] in Hq.
  destruct Hq as (Hh & _). rewrite passes_done_4 in Hh. exact Hh.
Qed.

(** While the dispatch of pass [pass] is in flight and has finished, its
    source is untouched and every record of the source is at its stable
    position in the destination. *)
Lemma data_inv_pass (g : gpu) (pass : nat) (wgs : list workgroup) :
  serial_inv (sort_phases s) (data_quiet s keys payload)
    (data_running K s keys payload) g ->
  (pass < 4)%nat ->
  in_flight g = [((binning_phase s pass).1, wgs)] ->
  forallb complete wgs = true ->
  let r := pass_roles s pass in
  let l := passes_done pass (zip keys payload) in
  holds (mem g) (srcKeys r) (srcPayload r) l
  /\ forall (i : nat) (x : Z * Z), l !! i = Some x ->
       words (mem g) (dstKeys r)
         !! stable_position (shift_of_pass pass) (l.*1) i x.1 = Some x.1
       /\ words (mem g) (dstPayload r)
            !! stable_position (shift_of_pass pass) (l.*1) i x.1
          = Some x.2.
Proof.
  intros (j & bs & _ & [(Hfl & _) | (c & wgs' & Hc & Hfl & _ & Hr)])
    Hpass Hflight Hdone; rewrite Hfl in Hflight; [discriminate Hflight|].
  injection Hflight as -> ->.
  destruct (sort_phases_lookup s j _ bs Hc)
    as [(_ & Heq & _) | [(_ & Heq & _) | [(_ & Heq & _)
       | (pass' & Hpass' & -> & Heq)]]]; try discriminate Heq.
  assert (pass' = pass) as ->.
  { cbn in Heq. injection Heq as _ _ _ _ Hshift _.
    unfold shift_of_pass in Hshift. lia. }
  cbn [data_running] in Hr. destruct Hr as (_ & Hinv & Hdata).
  destruct (binning_data_finished pass wgs (mem g) Hinv Hdata Hdone)
    as (Hsrc & _ & _ & Hall).
  split; assumption.
Qed.

End data.

(** ** From submission to read-back *)

Lemma data_submit (K : kernel_constants) (s : OneSweep)
    (keys payload : list Z) (m : memory) :
  ready K s keys payload m ->
  let keys' := key_transform (k_sortingOrder (base s)) (k_keyType (base s))
                 <$> keys in
  serial_inv (sort_phases s) (data_quiet s keys' payload)
    (data_running K s keys' payload) (submit s keys payload m).
Proof.
  intros Hready. cbv zeta.
  destruct (ready_load K s keys payload m Hready) as (Hready' & Hk & Hp).
  destruct Hready' as (_ & _ & Hlen & Ha & HaP & _).
  exists 0%nat, []. split; [lia|]. left. cbn [submit in_flight pending mem].
  split; [reflexivity|]. split; [apply emitted_phases|].
  split; [exact I|]. split; [|split; assumption].
  unfold holds. rewrite fst_zip, snd_zip by lia. split; assumption.
Qed.

(** On prepared memory the data invariant holds in every state a schedule
    reaches. *)
Lemma data_reachable (K : kernel_constants) (s : OneSweep)
    (keys payload : list Z) (m : memory) (schedule : list choice) :
  ready K s keys payload m ->
  let keys' := key_transform (k_sortingOrder (base s)) (k_keyType (base s))
                 <$> keys in
  serial_inv (sort_phases s) (data_quiet s keys' payload)
    (data_running K s keys' payload)
    (gpu_run K schedule (submit s keys payload m)).
Proof.
  intros Hready. cbv zeta.
  pose proof (data_submit K s keys payload m Hready) as Hsubmit.
  destruct (ready_load K s keys payload m Hready) as (Hready' & _).
  destruct Hready' as (Hnd & Hn & Hlen & _ & _ & Hcover & Hgcover & Hpasses).
  apply data_inv_run; assumption.
Qed.

(** Whatever the schedule, a completed sort call has computed the
    four-pass reference sort of the transformed keys with their payloads,
    read back through the inverse transform. *)
Lemma sort_result (K : kernel_constants) (s : OneSweep)
    (keys payload : list Z) (m : memory) (schedule : list choice) :
  ready K s keys payload m ->
  let order := k_sortingOrder (base s) in
  let keyType := k_keyType (base s) in
  let sorted :=
    reference_sort (zip (key_transform order keyType <$> keys) payload) in
  let g := gpu_run K schedule (submit s keys payload m) in
  gpu_idle g = true ->
  read_back s g = (key_untransform order keyType <$> sorted.*1, sorted.*2).
Proof.
  intros Hready. cbv zeta. intros Hidle.
  pose proof (data_reachable K s keys payload m schedule Hready) as Hg.
  destruct (ready_load K s keys payload m Hready) as (Hready' & _).
  destruct Hready' as (Hnd & Hn & Hlen & _ & _ & Hcover & Hgcover & Hpasses).
  destruct (data_inv_idle K s _ payload _ Hg Hidle) as [Hs HsP].
  unfold read_back. rewrite PrepareSortCmdList_eq.
  cbn [m_sortBuffer m_sortPayloadBuffer]. rewrite Hs, HsP. reflexivity.
Qed.

(** The sequential executor computes what the concurrent device computes
    under every schedule that completes. *)
Lemma Sort_agrees (K : kernel_constants) (s : OneSweep)
    (keys payload : list Z) (m : memory) (schedule : list choice) :
  ready K s keys payload m ->
  let g := gpu_run K schedule (submit s keys payload m) in
  gpu_idle g = true ->
  Sort K s keys payload m = Some (read_back s g).
Proof.
  intros Hready. cbv zeta. intros Hidle.
  rewrite (sort_result K s keys payload m schedule Hready Hidle).
  apply Sort_eq. exact Hready.
Qed.

(** When the work-groups of pass [pass] have all finished, the slots of
    the pass are a permutation of the index domain and every key of the
    source is found at its slot of the destination. *)
Lemma pass_result (K : kernel_constants) (s : OneSweep)
    (keys payload : list Z) (m : memory) (schedule : list choice)
    (pass : nat) (wgs : list workgroup) :
  ready K s keys payload m ->
  (pass < 4)%nat ->
  let g := gpu_run K schedule (submit s keys payload m) in
  in_flight g = [((binning_phase s pass).1, wgs)] ->
  forallb complete wgs = true ->
  let src := words (mem g) (srcKeys (pass_roles s pass)) in
  let dst := words (mem g) (dstKeys (pass_roles s pass)) in
  length src = length keys
  /\ stable_positions (shift_of_pass pass) src ≡ₚ seq 0 (length keys)
  /\ (forall i slot : nat,
        stable_positions (shift_of_pass pass) src !! i = Some slot ->
        dst !! slot = src !! i).
Proof.
  intros Hready Hpass. cbv zeta. intros Hflight Hdone.
  pose proof (data_reachable K s keys payload m schedule Hready) as Hg.
  destruct (ready_load K s keys payload m Hready) as (Hready' & _).
  destruct Hready' as (Hnd & Hn & Hlen & _ & _ & Hcover & Hgcover & Hpasses).
  destruct (data_inv_pass K s _ payload Hn Hlen Hcover Hgcover _ pass wgs
              Hg Hpass Hflight Hdone) as [[Hsrc _] Hall].
  rewrite length_fmap in Hlen.
  assert (Hl : length (words (mem (gpu_run K schedule
                                     (submit s keys payload m)))
                         (srcKeys (pass_roles s pass))) = length keys).
  { rewrite Hsrc, length_fmap, passes_done_length, length_zip, length_fmap.
    lia. }
  split; [exact Hl|]. split.
  - rewrite <- Hl. apply stable_positions_perm.
  - intros i slot Hi.
    apply lookup_stable_positions in Hi as (key & Hkey & ->).
    rewrite Hkey. rewrite Hsrc in Hkey |- *.
    apply list_lookup_fmap_Some in Hkey as (x & -> & Hx).
    exact (proj1 (Hall i x Hx)).
Qed.

(** ** The result, by positions *)

(** The reference sort of the transformed keys, read back: the input
    rearranged by a permutation of the indices that moves payloads with
    their keys, puts the keys in the requested order, and keeps equal keys
    in input order. *)
Lemma reference_sort_positions (order : ORDER) (keyType : KEY_TYPE)
    (keys payload : list Z) :
  length payload = length keys ->
  Forall is_word keys ->
  let sorted :=
    reference_sort (zip (key_transform order keyType <$> keys) payload) in
  let out := key_untransform order keyType <$> sorted.*1 in
  let outP := sorted.*2 in
  exists sigma : list nat,
    zip out outP ≡ₚ zip keys payload
    /\ length out = length keys /\ length outP = length keys
    /\ sigma ≡ₚ seq 0 (length keys)
    /\ (forall p i, sigma !! p = Some i ->
          out !! p = keys !! i /\ outP !! p = payload !! i)
    /\ (forall p q i j a b,
          (p < q)%nat -> sigma !! p = Some i -> sigma !! q = Some j ->
          keys !! i = Some a -> keys !! j = Some b ->
          key_le order keyType a b /\ (a = b -> (i < j)%nat)).
Proof.
  intros Hlen Hwords. cbv zeta.
  set (keys' := key_transform order keyType <$> keys).
  set (l := zip keys' payload).
  assert (Hlen' : length keys' = length keys) by apply length_fmap.
  assert (Hl : length l = length keys)
    by (unfold l; rewrite length_zip; lia).
  assert (Hback : forall i x, l !! i = Some x ->
            exists a, keys !! i = Some a /\ is_word a
                      /\ x.1 = key_transform order keyType a
                      /\ key_untransform order keyType x.1 = a
                      /\ payload !! i = Some x.2).
  { intros i [u v] Hx. apply lookup_zip_with_Some in Hx
      as (u' & v' & [= <- <-] & Hu & Hv).
    unfold keys' in Hu. apply list_lookup_fmap_Some in Hu as (a & -> & Ha).
    assert (Hwa : is_word a).
    { rewrite Forall_forall in Hwords. apply Hwords.
      apply list_elem_of_lookup. eauto. }
    exists a. cbn. split; [assumption|]. split; [assumption|].
    split; [reflexivity|].
    split; [apply key_untransform_transform|]; assumption. }
  destruct (reference_sort_stable l) as (sigma & Hsigma & Hlookup & Horder).
  rewrite Hl in Hsigma.
  exists sigma.
  assert (Hsl : forall p i, sigma !! p = Some i -> is_Some (l !! i)).
  { intros p i Hp. apply lookup_lt_is_Some. rewrite Hl.
    assert (Hi : i ∈ seq 0 (length keys))
      by (rewrite <- Hsigma; apply list_elem_of_lookup; eauto).
    apply elem_of_seq in Hi. lia. }
  split; [|split; [|split; [|split; [|split]]]].
  - rewrite zip_fmap_fst, (reference_sort_perm l), <- zip_fmap_fst.
    unfold l. rewrite fst_zip, snd_zip by lia.
    replace (key_untransform order keyType <$> keys') with keys;
      [reflexivity|].
    unfold keys'. rewrite <- list_fmap_compose.
    rewrite <- (list_fmap_id keys) at 1.
    apply Forall_fmap_ext. eapply Forall_impl; [exact Hwords|].
    intros a Ha. cbn. symmetry. apply key_untransform_transform. exact Ha.
  - rewrite !length_fmap, (reference_sort_perm l). exact Hl.
  - rewrite length_fmap, (reference_sort_perm l). exact Hl.
  - exact Hsigma.
  - intros p i Hp. destruct (Hsl p i Hp) as [x Hx].
    destruct (Hback i x Hx) as (a & Ha & _ & _ & Hun & Hpay).
    rewrite !list_lookup_fmap, (Hlookup p i Hp), Hx. cbn.
    rewrite Hun, Ha, Hpay. split; reflexivity.
  - intros p q i j a b Hpq Hp Hq Ha Hb.
    destruct (Hsl p i Hp) as [x Hx]. destruct (Hsl q j Hq) as [y Hy].
    destruct (Hback i x Hx) as (a' & Ha' & Hwa & Hxa & _).
    destruct (Hback j y Hy) as (b' & Hb' & Hwb & Hyb & _).
    rewrite Ha in Ha'. injection Ha' as <-.
    rewrite Hb in Hb'. injection Hb' as <-.
    specialize (Horder p q i j x y Hpq Hp Hq Hx Hy).
    rewrite !low_bits_word in Horder
      by (rewrite ?Hxa, ?Hyb; apply key_transform_word; assumption).
    rewrite Hxa, Hyb in Horder. split.
    + apply key_transform_le; [assumption..|]. lia.
    + intros ->. lia.
Qed.

(** ** Fair schedules exist *)

Lemma round_robin_fair (dispatches groups : nat) :
  fair_round dispatches groups (round_robin dispatches groups).
Proof.
  split; [apply list_elem_of_here|].
  intros i w d Hi Hw Hd. unfold round_robin. apply list_elem_of_further.
  apply list_elem_of_bind. exists i. split; [|apply elem_of_seq; lia].
  apply list_elem_of_bind. exists w. split; [|apply elem_of_seq; lia].
  apply list_elem_of_bind. exists d. split; [|apply elem_of_seq; lia].
  apply list_elem_of_here.
Qed.

Lemma round_robin_rounds (s : OneSweep) :
  let rounds :=
    replicate (rounds_needed s) (round_robin 1 (widest_dispatch s)) in
  Forall (fair_round 1 (widest_dispatch s)) rounds
  /\ (rounds_needed s <= length rounds)%nat.
Proof.
  cbv zeta. split.
  - apply Forall_replicate, round_robin_fair.
  - rewrite length_replicate. lia.
Qed.

(** ** A sort call on no keys *)

Lemma scatter_nil {A : Type} (vals out : list A) : scatter [] vals out = out.
Proof. reflexivity. Qed.

Lemma fn_insert_same {A T : Type} `{EqDecision A} (f : A -> T) (a b : A) :
  <[a := f a]> f b = f b.
Proof.
  destruct (decide (a = b)) as [->|Hne];
    [apply fn_lookup_insert | apply fn_lookup_insert_ne; exact Hne].
Qed.

Lemma slice_zero {A : Type} (size tile : nat) (l : list A) :
  slice size 0 tile l = [].
Proof.
  unfold slice. rewrite take_0, drop_nil. apply take_nil.
Qed.

(** A step of a work-group of a dispatch for no keys writes no key and no
    payload. *)
Lemma zero_keys_step (K : kernel_constants) (c : command) (w d : nat)
    (wg wg' : workgroup) (m m' : memory) :
  zero_keys c -> empty_tile wg ->
  workgroup_step K c w d wg m = Some (wg', m') ->
  empty_tile wg' /\ forall b : buffer, words m' b = words m b.
Proof.
  intros Hc Hwg Hstep.
  destruct c as [gh ph idx parts | srt gh n parts | gh ph parts passes
                | srt alt srtP altP idx ph n parts shift | b];
    cbn [workgroup_step] in Hstep.
  - destruct wg; try discriminate Hstep.
    destruct (reset_step gh ph idx (Z.to_nat parts) w m) as [m0|] eqn:Hr;
      [|discriminate Hstep].
    injection Hstep as <- <-. split; [exact I|].
    unfold reset_step in Hr.
    destruct w as [|[|[|w]]]; [| | |discriminate Hr];
      injection Hr as <-; reflexivity.
  - destruct wg; try discriminate Hstep.
    injection Hstep as <- <-. split; [exact I | reflexivity].
  - destruct wg; try discriminate Hstep.
    injection Hstep as <- <-. split; [exact I | reflexivity].
  - cbn [zero_keys] in Hc. subst n. change (Z.to_nat 0) with 0%nat in Hstep.
    unfold binning_step in Hstep.
    destruct wg as [|tile tileKeys tilePayload lanes| |];
      [| |discriminate Hstep..].
    + injection Hstep as <- <-. rewrite !slice_zero.
      split; [split; reflexivity | reflexivity].
    + destruct Hwg as [-> ->].
      destruct (mapM (fun d' => settled (lanes d')) (seq 0 RADIX))
        as [prefixes|].
      * injection Hstep as <- <-. split; [exact I|].
        intros b. unfold destinations. cbn [imap]. rewrite !scatter_nil.
        cbn [words set_words].
        destruct (decide (altP = b)) as [->|HaP];
          [exact (fn_lookup_insert _ _ _)|].
        etrans; [exact (fn_lookup_insert_ne _ _ _ _ HaP)|].
        apply fn_insert_same.
      * destruct (decide (d < RADIX)%nat); [|discriminate Hstep].
        destruct (lane_step _ tile _ (lanes d)) as [[ln [e|]]|];
          [| |discriminate Hstep]; injection Hstep as <- <-.
        -- split; [split; reflexivity | reflexivity].
        -- split; [split; reflexivity | reflexivity].
  - discriminate Hstep.
Qed.

Lemma words_kept_step (K : kernel_constants) (W : buffer -> list Z)
    (ch : choice) (g : gpu) :
  words_kept W g -> words_kept W (gpu_step K ch g).
Proof.
  intros (Hw & Hp & Hf). destruct ch as [|i w d]; cbn [gpu_step].
  - destruct (pending g) as [|c rest] eqn:Hpend;
      [split; [exact Hw|]; rewrite Hpend; split; assumption|].
    apply Forall_cons in Hp as [Hc Hrest].
    assert (Hdispatch : words_kept W
              (mkGpu rest (in_flight g ++ [(c, spawn c)]) (mem g))).
    { split; [exact Hw|]. split; [exact Hrest|]. cbn [in_flight].
      apply Forall_app. split; [exact Hf|].
      apply Forall_singleton. split; [exact Hc|].
      destruct c; cbn [spawn snd]; try apply Forall_nil_2;
        apply Forall_replicate; exact I. }
    destruct c; try exact Hdispatch.
    destruct (barrier_open _ _).
    + split; [exact Hw|]. split; [exact Hrest|]. cbn [in_flight].
      rewrite Forall_forall in Hf |- *. intros x Hx.
      apply list_elem_of_filter in Hx as [_ Hx]. exact (Hf x Hx).
    + split; [exact Hw|]. rewrite Hpend. split; [|exact Hf].
      apply Forall_cons. split; assumption.
  - destruct (in_flight g !! i) as [[c wgs]|] eqn:Hi;
      [|split; [|split]; assumption].
    destruct (wgs !! w) as [wg|] eqn:Hwg; [|split; [|split]; assumption].
    destruct (workgroup_step K c w d wg (mem g)) as [[wg' m']|] eqn:Hstep;
      [|split; [|split]; assumption].
    pose proof (Forall_lookup_1 _ _ _ _ Hf Hi) as [Hc Hwgs].
    cbn [fst snd] in Hc, Hwgs.
    destruct (zero_keys_step K c w d wg wg' (mem g) m' Hc
                (Forall_lookup_1 _ _ _ _ Hwgs Hwg) Hstep) as [He Hsame].
    split; [|split; [exact Hp|]]; cbn [mem in_flight].
    + intros b. rewrite Hsame. apply Hw.
    + apply Forall_insert; [exact Hf|]. split; [exact Hc|].
      cbn [snd]. apply Forall_insert; assumption.
Qed.

Lemma words_kept_run (K : kernel_constants) (W : buffer -> list Z)
    (schedule : list choice) (g : gpu) :
  words_kept W g -> words_kept W (gpu_run K schedule g).
Proof.
  revert g. induction schedule as [|ch schedule IH]; intros g Hg;
    [exact Hg|].
  apply IH, words_kept_step, Hg.
Qed.

(** Every command of a sorter for no keys is recorded for no keys. *)
Lemma zero_keys_emitted (s : OneSweep) :
  m_numKeys s = 0 -> Forall zero_keys (emitted s).
Proof.
  intros Hzero. rewrite emitted_eq.
  unfold expected_cmds, binningDispatch, binningBarriers. cbn [app].
  repeat (apply Forall_cons; split; [first [exact I | exact Hzero]|]).
  apply Forall_nil_2.
Qed.

(** Whatever the schedule and however far it has got, a sort call on no
    keys reads back no keys and no payloads. *)
Lemma empty_read_back (K : kernel_constants) (s : OneSweep) (m : memory)
    (schedule : list choice) :
  m_numKeys s = 0 ->
  read_back s (gpu_run K schedule (submit s [] [] m)) = ([], []).
Proof.
  intros Hzero.
  assert (Hkept : words_kept (words (load s [] [] m))
                    (gpu_run K schedule (submit s [] [] m))).
  { apply words_kept_run. split; [reflexivity|].
    split; [apply zero_keys_emitted; exact Hzero | apply Forall_nil_2]. }
  destruct Hkept as (Hw & _).
  unfold read_back. rewrite PrepareSortCmdList_eq.
  cbn [m_sortBuffer m_sortPayloadBuffer]. rewrite !Hw.
  unfold load. cbn [words set_words fmap list_fmap].
  rewrite fn_lookup_insert.
  destruct (decide (m_sortPayloadBuffer s = m_sortBuffer s)) as [Heq|Hne].
  - rewrite Heq, fn_lookup_insert. reflexivity.
  - rewrite fn_lookup_insert_ne by congruence.
    rewrite fn_lookup_insert. reflexivity.
Qed.

(** * The sort, end to end *)

(** C1.  On prepared memory and 32-bit keys, with the work-groups of
    every dispatch running concurrently in whatever order the scheduler
    picks: the sort call completes under every schedule of enough fair
    rounds; whatever the schedule, once the call has completed the keys
    read back are one and the same list, a permutation of the input keys
    that is sorted in the requested order under the key type's
    interpretation; and whenever the work-groups of a digit-binning pass
    have all finished, the slots of the pass (number of keys with a smaller
    digit plus number of earlier keys with the same digit) are a
    permutation of the index domain, each source key being found at its
    slot of the destination buffer. *)
Theorem sort_is_sorted_permutation (K : kernel_constants) (s : OneSweep)
    (keys payload : list Z) (m : memory)
    (Hprepared : prepared K s keys payload m)
    (Hwords : Forall is_word keys) :
  (forall rounds : list (list choice),
     Forall (fair_round 1 (widest_dispatch s)) rounds ->
     (rounds_needed s <= length rounds)%nat ->
     gpu_idle (gpu_run K (mjoin rounds) (submit s keys payload m)) = true)
  /\ (exists out : list Z,
        out ≡ₚ keys
        /\ StronglySorted
             (key_le (k_sortingOrder (base s)) (k_keyType (base s))) out
        /\ forall schedule : list choice,
             gpu_idle (gpu_run K schedule (submit s keys payload m)) = true ->
             (read_back s (gpu_run K schedule (submit s keys payload m))).1
             = out)
  /\ (forall (schedule : list choice) (pass : nat) (wgs : list workgroup),
        (pass < 4)%nat ->
        let g := gpu_run K schedule (submit s keys payload m) in
        in_flight g = [((binning_phase s pass).1, wgs)] ->
        forallb complete wgs = true ->
        let src := words (mem g) (srcKeys (pass_roles s pass)) in
        let dst := words (mem g) (dstKeys (pass_roles s pass)) in
        length src = length keys
        /\ stable_positions (shift_of_pass pass) src ≡ₚ seq 0 (length keys)
        /\ (forall i slot : nat,
              stable_positions (shift_of_pass pass) src !! i = Some slot ->
              dst !! slot = src !! i)).
Proof.
  destruct Hprepared as [_ Hready].
  split; [intros rounds; apply sort_completes|]. split.
  - pose proof Hready as (_ & _ & Hlen & _).
    destruct (reference_sort_positions (k_sortingOrder (base s))
                (k_keyType (base s)) keys payload Hlen Hwords)
      as (sigma & Hperm & Hlo & HloP & Hsigma & Hlookup & Horder).
    cbv zeta in Hperm, Hlo, HloP, Hlookup.
    eexists. split; [|split; [|intros schedule Hidle;
      rewrite (sort_result K s keys payload m schedule Hready Hidle);
      reflexivity]].
    + cbv zeta. cbn [fst].
      rewrite <- (fst_zip _ _ ltac:(rewrite Hlo, HloP; reflexivity)), Hperm.
      rewrite fst_zip by lia. reflexivity.
    + cbv zeta. cbn [fst].
      apply StronglySorted_lookup. intros p q a b Hpq Ha Hb.
      assert (Hlens : length sigma = length keys)
        by (rewrite Hsigma; apply length_seq).
      destruct (lookup_lt_is_Some_2 sigma p) as [i Hi].
      { apply lookup_lt_Some in Ha. lia. }
      destruct (lookup_lt_is_Some_2 sigma q) as [j Hj].
      { apply lookup_lt_Some in Hb. lia. }
      destruct (Hlookup p i Hi) as [Hpi _].
      destruct (Hlookup q j Hj) as [Hqj _].
      rewrite Ha in Hpi. rewrite Hb in Hqj.
      apply (Horder p q i j a b Hpq Hi Hj); congruence.
  - intros schedule pass wgs Hpass. cbv zeta. intros Hflight Hdone.
    exact (pass_result K s keys payload m schedule pass wgs Hready Hpass
             Hflight Hdone).
Qed.

(** Five float keys (1e-45, a negative NaN, +0, -0, a denormal) on a
    sorter as constructed, descending, with the kernels compiled for its
    partition size.  The schedule [first_pass] runs the call up to the
    moment the one work-group of the first digit-binning pass has
    scattered its tile: reset, global histogram and scan, each followed by
    its barrier, then the pass with its lanes taken from digit 255 down. *)
Lemma sort_is_sorted_permutation_witness :
  let K := onesweep_constants in
  let s := sorter_for K ORDER_DESCENDING KEY_FLOAT32 5 in
  let keys := [1; 4294967295; 0; 2147483648; 70000] in
  let payload := [65; 66; 67; 68; 69] in
  let m := blank_memory 5 in
  let first_pass :=
    [Issue; Step 0 0 0; Step 0 1 0; Step 0 2 0; Issue;
     Issue; Step 0 0 0; Issue;
     Issue; Step 0 0 0; Step 0 1 0; Step 0 2 0; Step 0 3 0; Issue;
     Issue; Step 0 0 0]
    ++ (d ← reverse (seq 0 RADIX); replicate 3 (Step 0 0 d))
    ++ [Step 0 0 0] in
  prepared K s keys payload m
  /\ Forall is_word keys
  /\ in_flight (gpu_run K first_pass (submit s keys payload m))
     = [((binning_phase s 0).1, [Scattered 0])]
  /\ (forall i slot : nat,
        stable_positions 0
          (words (mem (gpu_run K first_pass (submit s keys payload m)))
             (m_sortBuffer s)) !! i = Some slot ->
        words (mem (gpu_run K first_pass (submit s keys payload m)))
          (m_altBuffer s) !! slot
        = words (mem (gpu_run K first_pass (submit s keys payload m)))
            (m_sortBuffer s) !! i)
  /\ (forall rounds : list (list choice),
        Forall (fair_round 1 (widest_dispatch s)) rounds ->
        (rounds_needed s <= length rounds)%nat ->
        gpu_idle (gpu_run K (mjoin rounds) (submit s keys payload m)) = true)
  /\ (exists out : list Z,
        out ≡ₚ keys
        /\ StronglySorted
             (key_le (k_sortingOrder (base s)) (k_keyType (base s))) out
        /\ forall schedule : list choice,
             gpu_idle (gpu_run K schedule (submit s keys payload m)) = true ->
             (read_back s (gpu_run K schedule (submit s keys payload m))).1
             = out)
  /\ (forall (schedule : list choice) (pass : nat) (wgs : list workgroup),
        (pass < 4)%nat ->
        let g := gpu_run K schedule (submit s keys payload m) in
        in_flight g = [((binning_phase s pass).1, wgs)] ->
        forallb complete wgs = true ->
        let src := words (mem g) (srcKeys (pass_roles s pass)) in
        let dst := words (mem g) (dstKeys (pass_roles s pass)) in
        length src = length keys
        /\ stable_positions (shift_of_pass pass) src ≡ₚ seq 0 (length keys)
        /\ (forall i slot : nat,
              stable_positions (shift_of_pass pass) src !! i = Some slot ->
              dst !! slot = src !! i)).
Proof.
  cbv zeta.
  assert (Hprepared : prepared onesweep_constants
                        (sorter_for onesweep_constants ORDER_DESCENDING
                           KEY_FLOAT32 5)
                        [1; 4294967295; 0; 2147483648; 70000]
                        [65; 66; 67; 68; 69] (blank_memory 5)).
  { split; [reflexivity|]. unfold ready.
    split; [apply (bool_decide_unpack _); vm_compute; exact I|].
    split; [reflexivity|]. split; [reflexivity|]. split; [reflexivity|].
    split; [reflexivity|].
    split; [apply Nat.leb_le; vm_compute; reflexivity|].
    split; [apply Nat.leb_le; vm_compute; reflexivity | reflexivity]. }
  assert (Hwords : Forall is_word [1; 4294967295; 0; 2147483648; 70000]).
  { unfold is_word. repeat constructor; lia. }
  split; [exact Hprepared|]. split; [exact Hwords|].
  pose proof (sort_is_sorted_permutation _ _ _ _ _ Hprepared Hwords)
    as Hsort.
  match goal with
  | |- ?flight = ?x /\ _ =>
      assert (Hflight : flight = x) by (vm_compute; reflexivity)
  end.
  split; [exact Hflight|]. split; [|exact Hsort].
  destruct Hsort as (_ & _ & Hpass).
  exact (proj2 (proj2 (Hpass _ 0%nat [Scattered 0] ltac:(lia) Hflight
                         eq_refl))).
Defined.

(** C2.  The sort is stable and moves every payload with its key, under
    every schedule of the concurrent work-groups: there is one permutation
    [sigma] of the indices, keeping equal keys in input order (two equal
    keys at input positions [i < j] land at output positions [p < q]),
    such that whatever the schedule, once the call has completed, output
    position [p] holds the key and the payload of input position
    [sigma p]; and the call does complete under every schedule of enough
    fair rounds.  In particular keys [5, 3, 3, 1] with payloads
    [A, B, C, D], unsigned ascending, give keys [1, 3, 3, 5] with payloads
    [D, B, C, A] under every schedule that completes. *)
Theorem sort_is_stable (K : kernel_constants) (s : OneSweep)
    (keys payload : list Z) (m : memory)
    (Hprepared : prepared K s keys payload m)
    (Hwords : Forall is_word keys) :
  (exists sigma : list nat,
     sigma ≡ₚ seq 0 (length keys)
     /\ (forall i j p q : nat,
           (i < j)%nat -> keys !! i = keys !! j ->
           sigma !! p = Some i -> sigma !! q = Some j -> (p < q)%nat)
     /\ forall schedule : list choice,
          let g := gpu_run K schedule (submit s keys payload m) in
          gpu_idle g = true ->
          forall p i : nat, sigma !! p = Some i ->
            (read_back s g).1 !! p = keys !! i
            /\ (read_back s g).2 !! p = payload !! i)
  /\ (forall rounds : list (list choice),
        Forall (fair_round 1 (widest_dispatch s)) rounds ->
        (rounds_needed s <= length rounds)%nat ->
        gpu_idle (gpu_run K (mjoin rounds) (submit s keys payload m)) = true)
  /\ (forall A B C D : Z,
        keys = [5; 3; 3; 1] -> payload = [A; B; C; D] ->
        k_sortingOrder (base s) = ORDER_ASCENDING ->
        k_keyType (base s) = KEY_UINT32 ->
        forall schedule : list choice,
          let g := gpu_run K schedule (submit s keys payload m) in
          gpu_idle g = true ->
          read_back s g = ([1; 3; 3; 5], [D; B; C; A])).
Proof.
  destruct Hprepared as [_ Hready].
  split; [|split; [intros rounds; apply sort_completes|]].
  - pose proof Hready as (_ & _ & Hlen & _).
    destruct (reference_sort_positions (k_sortingOrder (base s))
                (k_keyType (base s)) keys payload Hlen Hwords)
      as (sigma & Hperm & Hlo & HloP & Hsigma & Hlookup & Horder).
    exists sigma. split; [exact Hsigma|]. split.
    + intros i j p q Hij Heq Hp Hq.
      assert (Hi : is_Some (keys !! i)).
      { apply lookup_lt_is_Some.
        assert (Hin : i ∈ seq 0 (length keys))
          by (rewrite <- Hsigma; apply list_elem_of_lookup; eauto).
        apply elem_of_seq in Hin. lia. }
      destruct Hi as [a Ha]. rewrite Ha in Heq. symmetry in Heq.
      destruct (Nat.lt_trichotomy p q) as [Hlt|[->|Hgt]]; [exact Hlt| |].
      * rewrite Hp in Hq. injection Hq as ->. lia.
      * destruct (Horder q p j i a a Hgt Hq Hp Heq Ha) as [_ Hstable].
        specialize (Hstable eq_refl). lia.
    + intros schedule. cbv zeta. intros Hidle p i Hp.
      rewrite (sort_result K s keys payload m schedule Hready Hidle).
      exact (Hlookup p i Hp).
  - intros A B C D -> -> Horder HkeyType schedule. cbv zeta. intros Hidle.
    rewrite (sort_result K s _ _ m schedule Hready Hidle). cbv zeta.
    rewrite Horder, HkeyType. vm_compute. reflexivity.
Qed.

(** The scenario of C2 on a sorter as constructed, with the kernels
    compiled for its partition size, under the round-robin schedule. *)
Lemma sort_is_stable_witness :
  let K := onesweep_constants in
  let s := sorter_for K ORDER_ASCENDING KEY_UINT32 4 in
  let keys := [5; 3; 3; 1] in
  let payload := [65; 66; 67; 68] in
  let m := blank_memory 4 in
  let schedule :=
    mjoin (replicate (rounds_needed s) (round_robin 1 (widest_dispatch s))) in
  prepared K s keys payload m
  /\ Forall is_word keys
  /\ gpu_idle (gpu_run K schedule (submit s keys payload m)) = true
  /\ read_back s (gpu_run K schedule (submit s keys payload m))
     = ([1; 3; 3; 5], [68; 66; 67; 65]).
Proof.
  cbv zeta.
  assert (Hprepared : prepared onesweep_constants
                        (sorter_for onesweep_constants ORDER_ASCENDING
                           KEY_UINT32 4)
                        [5; 3; 3; 1] [65; 66; 67; 68] (blank_memory 4)).
  { split; [reflexivity|]. unfold ready.
    split; [apply (bool_decide_unpack _); vm_compute; exact I|].
    split; [reflexivity|]. split; [reflexivity|]. split; [reflexivity|].
    split; [reflexivity|].
    split; [apply Nat.leb_le; vm_compute; reflexivity|].
    split; [apply Nat.leb_le; vm_compute; reflexivity | reflexivity]. }
  assert (Hwords : Forall is_word [5; 3; 3; 1]).
  { unfold is_word. repeat constructor; lia. }
  split; [exact Hprepared|]. split; [exact Hwords|].
  destruct (sort_is_stable _ _ _ _ _ Hprepared Hwords)
    as (_ & Hcompletes & Hscenario).
  destruct (round_robin_rounds
              (sorter_for onesweep_constants ORDER_ASCENDING KEY_UINT32 4))
    as [Hfair Hlen].
  pose proof (Hcompletes _ Hfair Hlen) as Hidle.
  split; [exact Hidle|].
  exact (Hscenario 65 66 67 68 eq_refl eq_refl eq_refl eq_refl _ Hidle).
Defined.

(** C6.  On every 32-bit pattern, for every key type and order, the
    inverse transform undoes the forward transform and the forward
    transform undoes the inverse; both stay within 32 bits, so the
    transform is a bijection of the 32-bit patterns.  The sort applies the
    forward transform to the keys it loads and the inverse to the keys it
    reads back, and nothing else. *)
Theorem key_transform_roundtrip (order : ORDER) (keyType : KEY_TYPE)
    (key : Z) (Hkey : is_word key) :
  key_untransform order keyType (key_transform order keyType key) = key
  /\ key_transform order keyType (key_untransform order keyType key) = key
  /\ is_word (key_transform order keyType key)
  /\ is_word (key_untransform order keyType key)
  /\ (forall (K : kernel_constants) (s : OneSweep) (keys payload : list Z)
        (m : memory),
        k_sortingOrder (base s) = order -> k_keyType (base s) = keyType ->
        Sort K s keys payload m
        = (fun m' =>
             (key_untransform order keyType
                <$> words m' (m_sortBuffer (PrepareSortCmdList s)),
              words m' (m_sortPayloadBuffer (PrepareSortCmdList s))))
          <$> run K (emitted s)
                (set_words (m_sortPayloadBuffer s) payload
                   (set_words (m_sortBuffer s)
                      (key_transform order keyType <$> keys) m))).
Proof.
  split; [apply key_untransform_transform; exact Hkey|].
  split; [apply key_transform_untransform; exact Hkey|].
  split; [apply key_transform_word; exact Hkey|].
  split; [apply key_untransform_word; exact Hkey|].
  intros K s keys payload m <- <-. unfold Sort, load.
  destruct (run K (emitted s) _); reflexivity.
Qed.

(** The float patterns [-0], [+0], a quiet NaN, the largest pattern, and
    the most negative signed integer. *)
Lemma key_transform_roundtrip_witness :
  (is_word 2147483648
   /\ key_untransform ORDER_ASCENDING KEY_FLOAT32
        (key_transform ORDER_ASCENDING KEY_FLOAT32 2147483648) = 2147483648)
  /\ (is_word 0
      /\ key_untransform ORDER_DESCENDING KEY_FLOAT32
           (key_transform ORDER_DESCENDING KEY_FLOAT32 0) = 0)
  /\ (is_word 2143289344
      /\ key_untransform ORDER_ASCENDING KEY_FLOAT32
           (key_transform ORDER_ASCENDING KEY_FLOAT32 2143289344)
         = 2143289344)
  /\ (is_word 4294967295
      /\ key_untransform ORDER_DESCENDING KEY_FLOAT32
           (key_transform ORDER_DESCENDING KEY_FLOAT32 4294967295)
         = 4294967295)
  /\ (is_word 2147483648
      /\ key_untransform ORDER_DESCENDING KEY_INT32
           (key_transform ORDER_DESCENDING KEY_INT32 2147483648)
         = 2147483648).
Proof.
  assert (H1 : is_word 2147483648) by (unfold is_word; lia).
  assert (H2 : is_word 0) by (unfold is_word; lia).
  assert (H3 : is_word 2143289344) by (unfold is_word; lia).
  assert (H4 : is_word 4294967295) by (unfold is_word; lia).
  split; [split; [exact H1|]|].
  { exact (proj1 (key_transform_roundtrip ORDER_ASCENDING KEY_FLOAT32 _ H1)). }
  split; [split; [exact H2|]|].
  { exact (proj1 (key_transform_roundtrip ORDER_DESCENDING KEY_FLOAT32 _ H2)). }
  split; [split; [exact H3|]|].
  { exact (proj1 (key_transform_roundtrip ORDER_ASCENDING KEY_FLOAT32 _ H3)). }
  split; [split; [exact H4|]|].
  { exact (proj1 (key_transform_roundtrip ORDER_DESCENDING KEY_FLOAT32 _ H4)). }
  split; [exact H1|].
  exact (proj1 (key_transform_roundtrip ORDER_DESCENDING KEY_INT32 _ H1)).
Defined.

(** C8.  A sort call on no keys completes and reads back no keys and no
    payloads: with [m_numKeys] zero, whatever the partition counts, the
    buffers and the memory, the device runs all seven dispatches to
    completion under every schedule of enough fair rounds, and under every
    schedule, however far it has got, the keys and payloads read back are
    the empty lists. *)
Theorem empty_sort_succeeds (K : kernel_constants) (s : OneSweep)
    (m : memory) (Hzero : m_numKeys s = 0) :
  (forall rounds : list (list choice),
     Forall (fair_round 1 (widest_dispatch s)) rounds ->
     (rounds_needed s <= length rounds)%nat ->
     gpu_idle (gpu_run K (mjoin rounds) (submit s [] [] m)) = true)
  /\ (forall schedule : list choice,
        read_back s (gpu_run K schedule (submit s [] [] m)) = ([], []))
  /\ omap stage_of (pending (submit s [] [] m))
     = [Reset; GlobalHistogram; ExclusiveScan;
        DigitBinning; DigitBinning; DigitBinning; DigitBinning].
Proof.
  split; [intros rounds; apply sort_completes|].
  split; [intros schedule; apply empty_read_back; exact Hzero|].
  cbn [submit pending]. rewrite emitted_eq. reflexivity.
Qed.

(** A sorter for zero keys over memory whose buffers still hold five words
    each from an earlier use, under the round-robin schedule. *)
Lemma empty_sort_succeeds_witness :
  let K := onesweep_constants in
  let s := sorter_for K ORDER_ASCENDING KEY_UINT32 0 in
  let m := blank_memory 5 in
  let schedule :=
    mjoin (replicate (rounds_needed s) (round_robin 1 (widest_dispatch s))) in
  m_numKeys s = 0
  /\ gpu_idle (gpu_run K schedule (submit s [] [] m)) = true
  /\ read_back s (gpu_run K schedule (submit s [] [] m)) = ([], []).
Proof.
  cbv zeta. split; [reflexivity|].
  destruct (empty_sort_succeeds onesweep_constants
              (sorter_for onesweep_constants ORDER_ASCENDING KEY_UINT32 0)
              (blank_memory 5) eq_refl) as (Hcompletes & Hempty & _).
  destruct (round_robin_rounds
              (sorter_for onesweep_constants ORDER_ASCENDING KEY_UINT32 0))
    as [Hfair Hlen].
  split; [exact (Hcompletes _ Hfair Hlen) | apply Hempty].
Defined.

(** C9.  The call is the prologue followed by exactly four runs of the
    loop body, each of which swaps the key buffers and the payload
    buffers once; four swaps are the identity, so the sort, alternate and
    payload handles are those of before the call, and the destination of
    the fourth digit-binning dispatch is the original sort buffer (its
    payload destination the original payload buffer). *)
Theorem PrepareSortCmdList_restores_roles (s : OneSweep) :
  PrepareSortCmdList s
  = loopBody 24 (loopBody 16 (loopBody 8 (loopBody 0 (prologue s))))
  /\ (forall (radixShift : Z) (s' : OneSweep),
        current_roles (loopBody radixShift s')
        = swap_roles (current_roles s'))
  /\ current_roles (prologue s) = current_roles s
  /\ current_roles (PrepareSortCmdList s)
     = Nat.iter 4 swap_roles (current_roles s)
  /\ m_sortBuffer (PrepareSortCmdList s) = m_sortBuffer s
  /\ m_altBuffer (PrepareSortCmdList s) = m_altBuffer s
  /\ m_sortPayloadBuffer (PrepareSortCmdList s) = m_sortPayloadBuffer s
  /\ m_altPayloadBuffer (PrepareSortCmdList s) = m_altPayloadBuffer s
  /\ (exists fourth : roles,
        omap binning_roles (emitted s) !! 3%nat = Some fourth
        /\ dstKeys fourth = m_sortBuffer s
        /\ dstPayload fourth = m_sortPayloadBuffer s).
Proof.
  split; [apply PrepareSortCmdList_unfold|].
  split; [apply loopBody_roles|].
  split; [rewrite prologue_eq; reflexivity|].
  rewrite PrepareSortCmdList_eq, emitted_eq.
  repeat split. eexists. repeat split.
Qed.

(** * Further properties of the host side *)

(** ** The command list as a whole *)

(** The commands of a call depend on the sorter only through its seven
    buffers, its three counts and the number of radix passes. *)
Lemma expected_cmds_ext (s s' : OneSweep) :
  buffers_of s = buffers_of s' ->
  m_numKeys s = m_numKeys s' ->
  m_partitions s = m_partitions s' ->
  m_globalHistPartitions s = m_globalHistPartitions s' ->
  k_radixPasses (base s) = k_radixPasses (base s') ->
  expected_cmds s = expected_cmds s'.
Proof.
  unfold buffers_of, expected_cmds, binningDispatch, binningBarriers.
  intros Hb -> -> -> ->. injection Hb as -> -> -> -> -> -> ->.
  reflexivity.
Qed.

(** After a call the sorter is ready to record the same commands again. *)
Lemma expected_cmds_PrepareSortCmdList (s : OneSweep) :
  expected_cmds (PrepareSortCmdList s) = expected_cmds s.
Proof. rewrite PrepareSortCmdList_eq. reflexivity. Qed.

Lemma iter_PrepareSortCmdList (n : nat) (s : OneSweep) :
  Nat.iter n PrepareSortCmdList s =
  mkOneSweep (base s)
    (m_cmdList s ++ mjoin (replicate n (expected_cmds s)))
    (m_sortBuffer s) (m_altBuffer s)
    (m_sortPayloadBuffer s) (m_altPayloadBuffer s)
    (m_globalHistBuffer s) (m_passHistBuffer s) (m_indexBuffer s)
    (m_numKeys s) (m_partitions s) (m_globalHistPartitions s).
Proof.
  revert s. induction n as [|n IH]; intros s.
  - cbn. rewrite app_nil_r. destruct s; reflexivity.
  - rewrite Nat.iter_succ_r, IH, expected_cmds_PrepareSortCmdList.
    rewrite PrepareSortCmdList_eq. cbn [replicate mjoin list_join].
    cbv [base m_cmdList m_sortBuffer m_altBuffer m_sortPayloadBuffer
      m_altPayloadBuffer m_globalHistBuffer m_passHistBuffer m_indexBuffer
      m_numKeys m_partitions m_globalHistPartitions].
    destruct s. rewrite <- app_assoc. reflexivity.
Qed.

(** X1.  A call changes nothing but the command list: every other member
    of the sorter is what it was, the commands recorded earlier are kept
    in front, and exactly 26 commands are appended, 19 of them barriers
    and 7 dispatches. *)
Theorem PrepareSortCmdList_appends_26_commands (s : OneSweep) :
  PrepareSortCmdList s
  = mkOneSweep (base s) (m_cmdList s ++ emitted s)
      (m_sortBuffer s) (m_altBuffer s)
      (m_sortPayloadBuffer s) (m_altPayloadBuffer s)
      (m_globalHistBuffer s) (m_passHistBuffer s) (m_indexBuffer s)
      (m_numKeys s) (m_partitions s) (m_globalHistPartitions s)
  /\ length (emitted s) = 26%nat
  /\ length (filter (fun c => stage_of c = None) (emitted s)) = 19%nat
  /\ length (omap stage_of (emitted s)) = 7%nat.
Proof.
  rewrite emitted_eq. split; [apply PrepareSortCmdList_eq|].
  repeat split.
Qed.

(** X2.  Calls compose: since a call leaves the buffer roles as it found
    them, [n] calls in a row append [n] identical copies of the same 26
    commands, and the sorter stays ready to record them once more. *)
Theorem PrepareSortCmdList_repeated (n : nat) (s : OneSweep) :
  m_cmdList (Nat.iter n PrepareSortCmdList s)
  = m_cmdList s ++ mjoin (replicate n (emitted s))
  /\ emitted (Nat.iter n PrepareSortCmdList s) = emitted s
  /\ current_roles (Nat.iter n PrepareSortCmdList s) = current_roles s.
Proof.
  rewrite !emitted_eq, iter_PrepareSortCmdList. repeat split.
Qed.

(** ** Barriers and bound buffers *)

(** X3.  A barrier is recorded on a buffer if and only if it is one of six
    members: the global histogram, the pass histogram and the four key and
    payload buffers.  No other buffer is ever named by a barrier; the
    tile-index buffer in particular is named by none, unless it is the same
    object as one of the six. *)
Theorem barriers_only_on_six_buffers (s : OneSweep) (b : buffer) :
  UAVBarrier b ∈ emitted s <-> b ∈ barrier_buffers s.
Proof.
  rewrite emitted_eq.
  unfold expected_cmds, binningDispatch, binningBarriers, barrier_buffers.
  cbn [app]. rewrite !elem_of_cons, !elem_of_nil.
  split; intros H.
  - repeat match type of H with
           | _ \/ _ => destruct H as [H|H]
           end;
      first [ discriminate H | contradiction | injection H as -> ]; tauto.
  - repeat match type of H with
           | _ \/ _ => destruct H as [H|H]
           end;
      first [ contradiction | subst b; tauto ].
Qed.

(** X4.  The buffers named by the recorded commands are exactly the seven
    buffer members of the sorter: every command binds members only, and
    each of the seven is bound by some command. *)
Theorem commands_bind_exactly_the_members (s : OneSweep) (b : buffer) :
  (exists c : command, c ∈ emitted s /\ b ∈ bound c) <-> b ∈ buffers_of s.
Proof.
  rewrite emitted_eq.
  unfold expected_cmds, binningDispatch, binningBarriers, buffers_of.
  cbn [app]. split.
  - intros (c & Hc & Hb).
    rewrite !elem_of_cons, elem_of_nil in Hc.
    repeat match type of Hc with
           | _ \/ _ => destruct Hc as [Hc|Hc]
           end;
      first [ contradiction | subst c ];
      cbn [bound] in Hb; rewrite !elem_of_cons, elem_of_nil in Hb;
      rewrite !elem_of_cons, !elem_of_nil; tauto.
  - intros Hb. rewrite !elem_of_cons, elem_of_nil in Hb.
    destruct (decide (b = m_globalHistBuffer s)) as [->|Hgh].
    + eexists. split; [apply list_elem_of_here|]. cbn [bound].
      rewrite !elem_of_cons. tauto.
    + eexists. split.
      * do 6 apply list_elem_of_further. apply list_elem_of_here.
      * cbn [bound]. rewrite !elem_of_cons, elem_of_nil. tauto.
Qed.

(** ** The digit-binning passes *)

(** X5.  Pass number [pass] (of 0, 1, 2, 3) occupies the five commands
    from position [6 + 5 * pass]: the dispatch at shift [8 * pass], then
    barriers on its source keys, source payloads, destination keys and
    destination payloads.  Its source is the sort buffer when [pass] is
    even and the alternate buffer when it is odd; index buffer, pass
    histogram, key count and partition count are the same in every pass. *)
Theorem digit_binning_pass_commands (s : OneSweep) (pass : nat)
    (Hpass : (pass < 4)%nat) :
  take 5 (drop (6 + 5 * pass) (emitted s))
  = pass_commands s (pass_roles s pass) (8 * Z.of_nat pass)
  /\ pass_roles s pass
     = (if Nat.even pass then current_roles s
        else swap_roles (current_roles s)).
Proof.
  rewrite emitted_eq.
  destruct pass as [|[|[|[|pass]]]]; [| | | |lia]; split; reflexivity.
Qed.

(** The last pass of a sorter over seven distinct buffers. *)
Lemma digit_binning_pass_commands_witness :
  let s := sample_sorter ORDER_ASCENDING KEY_UINT32 4 in
  take 5 (drop 21 (emitted s))
  = [ DigitBinningPassDispatch 2%nat 1%nat 4%nat 3%nat 7%nat 6%nat 4 1 24;
      UAVBarrier 2%nat; UAVBarrier 4%nat; UAVBarrier 1%nat;
      UAVBarrier 3%nat ]
  /\ pass_roles s 3 = swap_roles (current_roles s).
Proof.
  cbv zeta.
  apply (digit_binning_pass_commands
           (sample_sorter ORDER_ASCENDING KEY_UINT32 4) 3).
  lia.
Defined.

(** ** What the arguments of the calls depend on *)

(** X6.  The arguments that [PrepareSortCmdList] passes to the [Dispatch]
    calls and to [UAVBarrierSingle], in the order of the calls, depend on
    the sorter only through its seven buffers, its key count, its two
    partition counts and [k_radixPasses]: two sorters that agree on these
    pass the same arguments, whatever their sorting order, key type,
    payload type, radix, partition size and earlier command list.  This is
    about the arguments only: the kernel objects that receive the calls
    were built by [InitComputeShaders] from the device, the device info
    and the compile arguments, and are no part of a [command]. *)
Theorem dispatch_arguments_depend_on (s s' : OneSweep)
    (Hbuffers : buffers_of s = buffers_of s')
    (HnumKeys : m_numKeys s = m_numKeys s')
    (Hpartitions : m_partitions s = m_partitions s')
    (HglobalHistPartitions :
       m_globalHistPartitions s = m_globalHistPartitions s')
    (HradixPasses : k_radixPasses (base s) = k_radixPasses (base s')) :
  emitted s = emitted s'.
Proof.
  rewrite !emitted_eq. apply expected_cmds_ext; assumption.
Qed.

(** A sorter of ascending unsigned keys with payloads and a keys-only
    sorter of descending float keys, recording after another call. *)
Lemma dispatch_arguments_depend_on_witness :
  let s := sample_sorter ORDER_ASCENDING KEY_UINT32 4 in
  let s' :=
    mkOneSweep
      (OneSweep_keys 9%nat (mkDeviceInfo 1 2) ORDER_DESCENDING KEY_FLOAT32)
      (emitted s) 1%nat 2%nat 3%nat 4%nat 5%nat 6%nat 7%nat 4 1 1 in
  base s <> base s' /\ m_cmdList s <> m_cmdList s'
  /\ emitted s = emitted s'.
Proof.
  cbv zeta. split; [discriminate|]. split; [discriminate|].
  apply dispatch_arguments_depend_on; reflexivity.
Defined.

(** X7.  The number of digit-binning passes is fixed by the loop bounds:
    four are dispatched whatever [k_radixPasses] is, while the scan is
    handed [k_radixPasses]; so the scan is told the number of passes that
    are dispatched exactly when [k_radixPasses] is 4. *)
Theorem pass_count_ignores_k_radixPasses (s : OneSweep) :
  length (omap binning_shift (emitted s)) = 4%nat
  /\ omap scan_passes (emitted s) = [k_radixPasses (base s)]
  /\ (omap scan_passes (emitted s)
      = [Z.of_nat (length (omap binning_shift (emitted s)))]
      <-> k_radixPasses (base s) = 4).
Proof.
  rewrite emitted_eq. split; [reflexivity|]. split; [reflexivity|].
  change (omap scan_passes (expected_cmds s)) with [k_radixPasses (base s)].
  change (length (omap binning_shift (expected_cmds s))) with 4%nat.
  split; [intros H; injection H as ->; reflexivity | intros ->; reflexivity].
Qed.

(** X8.  For a sorter built by either constructor the hard-coded loop and
    the constructor's constants agree: the scan is handed the number of
    passes that are dispatched, the shifts are the multiples of
    [log2 k_radix] below [k_radixPasses * log2 k_radix], and these cover the
    32 bits of a key. *)
Theorem constructed_sorter_passes_cover_key (s : OneSweep)
    (dev : device) (info : DeviceInfo) (order : ORDER) (keyType : KEY_TYPE)
    (payloadType : option PAYLOAD_TYPE)
    (Hbase : base s
             = match payloadType with
               | None => OneSweep_keys dev info order keyType
               | Some p => OneSweep_pairs dev info order keyType p
               end) :
  omap scan_passes (emitted s)
  = [Z.of_nat (length (omap binning_shift (emitted s)))]
  /\ omap binning_shift (emitted s)
     = (fun pass : nat => Z.log2 (k_radix (base s)) * Z.of_nat pass)
       <$> seq 0 (Z.to_nat (k_radixPasses (base s)))
  /\ 2 ^ Z.log2 (k_radix (base s)) = k_radix (base s)
  /\ Z.log2 (k_radix (base s)) * k_radixPasses (base s) = 32.
Proof.
  rewrite emitted_eq.
  change (omap scan_passes (expected_cmds s)) with [k_radixPasses (base s)].
  change (omap binning_shift (expected_cmds s)) with [0; 8; 16; 24].
  rewrite Hbase. destruct payloadType; repeat split.
Qed.

(** The sample sorter is built by the constructor for key-payload
    pairs. *)
Lemma constructed_sorter_passes_cover_key_witness :
  let s := sample_sorter ORDER_DESCENDING KEY_INT32 100000 in
  omap scan_passes (emitted s) = [4]
  /\ omap binning_shift (emitted s) = [0; 8; 16; 24]
  /\ 2 ^ Z.log2 (k_radix (base s)) = 256
  /\ Z.log2 (k_radix (base s)) * k_radixPasses (base s) = 32.
Proof.
  cbv zeta.
  apply (constructed_sorter_passes_cover_key
           (sample_sorter ORDER_DESCENDING KEY_INT32 100000)
           0%nat (mkDeviceInfo 64 7680) ORDER_DESCENDING KEY_INT32
           (Some PAYLOAD_UINT32)).
  reflexivity.
Defined.

(** ** [InitComputeShaders] *)

(** Looking up past the first of two appended lists. *)
Lemma lookup_app_at {A : Type} (l1 l2 : list A) (i n : nat) :
  n = (length l1 + i)%nat -> (l1 ++ l2) !! n = l2 !! i.
Proof.
  intros ->. rewrite lookup_app_r by lia. f_equal. lia.
Qed.

(** The call, written out: four objects are added to the free store and
    the four members point to them. *)
Lemma InitComputeShaders_eq (b : SweepBase) (k : Shaders) (h : free_store) :
  InitComputeShaders b k h
  = (mkShaders (m_compileArguments k)
       (length h) (S (length h)) (S (S (length h))) (S (S (S (length h)))),
     h ++ ((fun class =>
              mkKernel class (m_device b) (m_devInfo b)
                (m_compileArguments k) path_OneSweep_hlsl)
           <$> [SweepCommonKernels_InitSweep; SweepCommonKernels_GlobalHist;
                SweepCommonKernels_Scan; OneSweepKernels_DigitBinningPass])).
Proof.
  unfold InitComputeShaders, new. cbn [fmap list_fmap].
  rewrite <- !app_assoc. cbn [app].
  rewrite !length_app. cbn [length].
  f_equal. f_equal; lia.
Qed.

(** X9.  Whatever the kernel pointers held before, after the call they
    point to four different objects that did not exist before: an
    [InitSweep], a [GlobalHist], a [Scan] and a [DigitBinningPass] kernel,
    each created for the sorter's device and device info, with the
    sorter's compile arguments, from the one shader file
    [Shaders/OneSweep.hlsl].  The objects that existed before are
    untouched, and so are the compile arguments. *)
Theorem InitComputeShaders_creates_four_kernels (b : SweepBase)
    (k : Shaders) (h : free_store) :
  let k' := fst (InitComputeShaders b k h) in
  let h' := snd (InitComputeShaders b k h) in
  let made (class : kernel_class) :=
    mkKernel class (m_device b) (m_devInfo b) (m_compileArguments k)
      path_OneSweep_hlsl in
  h' !! m_initSweep k' = Some (made SweepCommonKernels_InitSweep)
  /\ h' !! m_globalHist k' = Some (made SweepCommonKernels_GlobalHist)
  /\ h' !! m_scan k' = Some (made SweepCommonKernels_Scan)
  /\ h' !! m_digitBinningPass k'
     = Some (made OneSweepKernels_DigitBinningPass)
  /\ NoDup (kernel_pointers k')
  /\ Forall (fun p => h !! p = None) (kernel_pointers k')
  /\ (forall (p : pointer) (o : kernel), h !! p = Some o -> h' !! p = Some o)
  /\ length h' = (length h + 4)%nat
  /\ m_compileArguments k' = m_compileArguments k.
Proof.
  cbv zeta. rewrite InitComputeShaders_eq.
  unfold kernel_pointers.
  cbn [fst snd m_initSweep m_globalHist m_scan m_digitBinningPass
       m_compileArguments fmap list_fmap].
  unfold pointer, free_store in *.
  split; [rewrite lookup_app_r by lia;
          replace (length h - length h)%nat with 0%nat by lia; reflexivity|].
  split; [rewrite lookup_app_r by lia;
          replace (S (length h) - length h)%nat with 1%nat by lia;
          reflexivity|].
  split; [rewrite lookup_app_r by lia;
          replace (S (S (length h)) - length h)%nat with 2%nat by lia;
          reflexivity|].
  split; [rewrite lookup_app_r by lia;
          replace (S (S (S (length h))) - length h)%nat with 3%nat by lia;
          reflexivity|].
  split.
  { rewrite !NoDup_cons, !not_elem_of_cons, !elem_of_nil.
    repeat split; try lia; try tauto. apply NoDup_nil_2. }
  split.
  { repeat constructor; apply lookup_ge_None; lia. }
  split.
  { intros p o Hp. rewrite lookup_app_l; [exact Hp|].
    apply lookup_lt_Some in Hp. exact Hp. }
  split; [rewrite length_app; reflexivity | reflexivity].
Qed.

(** X10.  The function only ever creates objects.  Calling it again
    creates four more kernels with the same arguments and redirects the
    four members to them; the four objects of the first call stay in the
    free store as they were, and no kernel pointer of the sorter refers to
    any of them any more. *)
Theorem InitComputeShaders_again_orphans_kernels (b : SweepBase)
    (k : Shaders) (h : free_store) :
  let k1 := fst (InitComputeShaders b k h) in
  let h1 := snd (InitComputeShaders b k h) in
  let k2 := fst (InitComputeShaders b k1 h1) in
  let h2 := snd (InitComputeShaders b k1 h1) in
  length h2 = (length h + 8)%nat
  /\ Forall (fun p => is_Some (h1 !! p) /\ h2 !! p = h1 !! p
                      /\ p ∉ kernel_pointers k2)
       (kernel_pointers k1)
  /\ Forall2 (fun p1 p2 => h1 !! p1 = h2 !! p2)
       (kernel_pointers k1) (kernel_pointers k2).
Proof.
  cbv zeta. rewrite (InitComputeShaders_eq b k h).
  cbn [fst snd]. rewrite InitComputeShaders_eq.
  unfold kernel_pointers.
  cbn [fst snd m_initSweep m_globalHist m_scan m_digitBinningPass
       m_compileArguments fmap list_fmap].
  unfold pointer, free_store in *.
  set (made := mkKernel _ _ _ _ _ :: _).
  assert (Hfirst : forall i n : nat, (i < 4)%nat -> n = (length h + i)%nat ->
            (h ++ made) !! n = made !! i
            /\ ((h ++ made) ++ made) !! n = made !! i
            /\ ((h ++ made) ++ made) !! (length (h ++ made) + i)%nat
               = made !! i).
  { intros i n Hi ->. split; [|split].
    - apply lookup_app_at. reflexivity.
    - rewrite lookup_app_l by (rewrite length_app; cbn; lia).
      apply lookup_app_at. reflexivity.
    - apply lookup_app_at. reflexivity. }
  assert (Hlen : length (h ++ made) = (length h + 4)%nat)
    by (rewrite length_app; reflexivity).
  destruct (Hfirst 0%nat (length h) ltac:(lia) ltac:(lia))
    as (A0 & B0 & C0).
  destruct (Hfirst 1%nat (S (length h)) ltac:(lia) ltac:(lia))
    as (A1 & B1 & C1).
  destruct (Hfirst 2%nat (S (S (length h))) ltac:(lia) ltac:(lia))
    as (A2 & B2 & C2).
  destruct (Hfirst 3%nat (S (S (S (length h)))) ltac:(lia) ltac:(lia))
    as (A3 & B3 & C3).
  clear Hfirst.
  replace (length (h ++ made) + 0)%nat with (length (h ++ made)) in C0
    by lia.
  replace (length (h ++ made) + 1)%nat with (S (length (h ++ made))) in C1
    by lia.
  replace (length (h ++ made) + 2)%nat
    with (S (S (length (h ++ made)))) in C2 by lia.
  replace (length (h ++ made) + 3)%nat
    with (S (S (S (length (h ++ made))))) in C3 by lia.
  split; [rewrite length_app, Hlen; cbn; lia|].
  split.
  - repeat apply Forall_cons_2; try apply Forall_nil_2;
      rewrite ?B0, ?B1, ?B2, ?B3, ?A0, ?A1, ?A2, ?A3;
      (split; [eexists; reflexivity|]); (split; [reflexivity|]);
      rewrite !not_elem_of_cons, elem_of_nil, Hlen; lia.
  - repeat apply Forall2_cons_2; try apply Forall2_nil_2;
      rewrite ?C0, ?C1, ?C2, ?C3, ?A0, ?A1, ?A2, ?A3; reflexivity.
Qed.
